(** * Pairwise sequence alignment of LingPy (lingpy/algorithm/align.cpp)

    A shallow embedding of the five alignment kernels ([_global], [_local],
    [_overlap], [_repeats], [_dialign]), of the drivers built on them and of
    [edit_dist], followed by the properties of that code.

    Modelling conventions.
    - A C [int] is a [Z]; the sequences handled are far shorter than 2^31, so
      no wrap-around is written out.
    - A C array ([int *], [float **], a variable-length array on the stack) is
      a total map from indices to values, updated pointwise.  Every access
      whose index is not fixed by the bounds of a [for] loop is guarded: an
      access outside the array is the outcome [Undefined].
    - A C [float] is an abstract type with the operations the code uses
      (class [FloatOps]); statements that do not depend on the arithmetic
      hold for every interpretation, binary32 included.  The instance
      [Z_float] (integer-valued scores, exact in binary32 below 2^24) is used
      to run the code on concrete inputs.
    - Python lists are [list]s, the Python dictionary is a [gmap], a Python
      exception or a C++ undefined behaviour is an [outcome].
    - A [while] loop is a recursion on a budget of rounds; the budget of a
      kernel is [lA + lB] (one more for [_local], whose loop may stop on
      row or column 0), and [OutOfFuel] is the outcome of a loop that
      exhausts it.  No kernel does, whatever its arrays hold. *)

From stdpp Require Import base list strings gmap.
From Stdlib Require Import ZArith QArith Lia.

Open Scope Z_scope.

(** ** Outcomes of a call *)

Inductive pyexc : Type :=
| KeyError
| IndexError.

Inductive outcome (T : Type) : Type :=
| Ok (v : T)
| Raised (e : pyexc)
| Undefined
| OutOfFuel.

Arguments Ok {T} v.
Arguments Raised {T} e.
Arguments Undefined {T}.
Arguments OutOfFuel {T}.

#[export] Instance outcome_ret : MRet outcome := λ T v, Ok v.

#[export] Instance outcome_bind : MBind outcome := λ A B f m,
  match m with
  | Ok v => f v
  | Raised e => Raised e
  | Undefined => Undefined
  | OutOfFuel => OutOfFuel
  end.

(** ** Floating-point scores *)

Class FloatOps (F : Type) : Type := {
  f_of_Z : Z → F;
  fadd : F → F → F;
  fsub : F → F → F;
  fmul : F → F → F;
  fge : F → F → bool;
  fgt : F → F → bool
}.

(** The order facts about [>=] and [>] that the local kernel relies on. *)
Class FloatOrder (F : Type) `{FloatOps F} : Prop := {
  fge_zero_refl : fge (f_of_Z 0) (f_of_Z 0) = true;
  fgt_fge : ∀ x y : F, fgt x y = true → fge x y = true
}.

#[export] Instance Z_float : FloatOps Z := {|
  f_of_Z := λ z, z;
  fadd := Z.add;
  fsub := Z.sub;
  fmul := Z.mul;
  fge := Z.geb;
  fgt := Z.gtb
|}.

(** ** Arrays and loops *)

Definition upd {T : Type} (a : Z → T) (k : Z) (v : T) : Z → T :=
  λ k', if k' =? k then v else a k'.

Definition upd2 {T : Type} (m : Z → Z → T) (i j : Z) (v : T) : Z → Z → T :=
  λ i' j', if (i' =? i) && (j' =? j) then v else m i' j'.

(** [for (k = lo; k < lo + n; k++) body] *)
Definition for_range {St : Type} (lo n : Z) (body : Z → St → St) (st : St) : St :=
  foldl (λ s k, body k s) st (seqZ lo n).

(** The same loop when the body can fail. *)
Fixpoint for_eachM {St : Type} (ks : list Z) (body : Z → St → outcome St)
    (st : St) : outcome St :=
  match ks with
  | [] => Ok st
  | k :: ks' => st' ← body k st; for_eachM ks' body st'
  end.

(** [for (i = 1; i < lB + 1; i++) for (j = 1; j < lA + 1; j++) cell] *)
Definition fill_cells {St : Type} (lA lB : Z) (cell : Z → Z → St → St) (st : St) : St :=
  for_range 1 lB (λ i, for_range 1 lA (λ j, cell i j)) st.

(** The pair of stack arrays [matrix] and [traceback] of a kernel. *)
Record dp (F : Type) : Type := Dp {
  matrix : Z → Z → F;
  traceback : Z → Z → Z
}.

Arguments Dp {F} matrix traceback.
Arguments matrix {F} d.
Arguments traceback {F} d.

Definition set_cell {F : Type} (st : dp F) (i j : Z) (v : F) (t : Z) : dp F :=
  Dp (upd2 (matrix st) i j v) (upd2 (traceback st) i j t).

(** ** The kernels *)

Section Kernels.
Context {F : Type} `{FloatOps F}.
Variables (arrayA : Z → Z) (lA : Z) (arrayB : Z → Z) (lB : Z).
Variables (scorer : Z → Z → F) (scale : F).

(** [arrayB[i-1] < 0 && arrayA[j-1] > 0 && j != lA] *)
Definition R_A (i j : Z) : bool :=
  (arrayB (i - 1) <? 0) && (0 <? arrayA (j - 1)) && negb (j =? lA).

(** [arrayA[j-1] < 0 && arrayB[i-1] > 0 && i != lB] *)
Definition R_B (i j : Z) : bool :=
  (arrayA (j - 1) <? 0) && (0 <? arrayB (i - 1)) && negb (i =? lB).

(** Contents of the stack arrays before the first assignment; no cell is
    read before it is written. *)
Definition dp_fresh : dp F := Dp (λ _ _, f_of_Z 0) (λ _ _, 0).

(** *** _global *)

Definition global_init : dp F :=
  let st := set_cell dp_fresh 0 0 (f_of_Z 0) 1 in
  let st := for_range 1 lA (λ i st,
    set_cell st 0 i (fadd (matrix st 0 (i - 1)) (fmul (scorer 0 i) scale)) 2) st in
  for_range 1 lB (λ i st,
    set_cell st i 0 (fadd (matrix st (i - 1) 0) (fmul (scorer i 0) scale)) 3) st.

Definition global_cell (i j : Z) (st : dp F) : dp F :=
  let gapA :=
    if R_A i j then fsub (matrix st (i - 1) j) (f_of_Z 1000000)
    else if traceback st (i - 1) j =? 3
         then fadd (matrix st (i - 1) j) (fmul (scorer i 0) scale)
         else fadd (matrix st (i - 1) j) (scorer i 0) in
  let gapB :=
    if R_B i j then fsub (matrix st i (j - 1)) (f_of_Z 1000000)
    else if traceback st i (j - 1) =? 2
         then fadd (matrix st i (j - 1)) (fmul (scorer 0 j) scale)
         else fadd (matrix st i (j - 1)) (scorer 0 j) in
  let match_ := fadd (matrix st (i - 1) (j - 1)) (scorer i j) in
  if fgt gapA match_ && fge gapA gapB then set_cell st i j gapA 3
  else if fge match_ gapB then set_cell st i j match_ 1
  else set_cell st i j gapB 2.

Definition global_fill : dp F := fill_cells lA lB global_cell global_init.

(** The traceback loop shared, statement for statement, by [_global],
    [_overlap] and [_dialign]:
    [while (i > 0 || j > 0)] with the three-way branch on [traceback[i][j]]. *)
Fixpoint traceback_walk (fuel : nat) (tb : Z → Z → Z) (i j : Z)
    (almA almB : Z → Z) : outcome ((Z → Z) * (Z → Z)) :=
  if (0 <? i) || (0 <? j) then
    if (i <? 0) || (j <? 0) then Undefined
    else
      match fuel with
      | O => OutOfFuel
      | S fuel' =>
        if tb i j =? 3 then
          traceback_walk fuel' tb (i - 1) j (upd almA j (almA j + 1)) almB
        else if tb i j =? 1 then
          traceback_walk fuel' tb (i - 1) (j - 1) almA almB
        else
          traceback_walk fuel' tb i (j - 1) almA (upd almB i (almB i + 1))
      end
  else Ok (almA, almB).

(** After the nested [for] loops [i == lB + 1] and [j == lA + 1]; [j] is
    indeterminate when the outer body never ran, and the arrays have no
    cell when a dimension is not positive. *)
Definition bad_dims : bool := (lB <? 1) || (lA <? 0).

Definition walk_fuel : nat := Z.to_nat (lA + lB).

Definition _global (almA almB : Z → Z) : outcome (F * (Z → Z) * (Z → Z)) :=
  if bad_dims then Undefined
  else
    let st := global_fill in
    let sim := matrix st lB lA in
    '(almA, almB) ← traceback_walk walk_fuel (traceback st) lB lA almA almB;
    Ok (sim, almA, almB).

(** *** _local *)

Record local_state : Type := LocalState {
  l_dp : dp F;
  max_score : F;
  imax : option Z;
  jmax : option Z
}.

Definition local_init : dp F :=
  let st := set_cell dp_fresh 0 0 (f_of_Z 0) 0 in
  let st := for_range 1 lA (λ i st, set_cell st 0 i (f_of_Z 0) 0) st in
  for_range 1 lB (λ i st, set_cell st i 0 (f_of_Z 0) 0) st.

Definition local_cell (i j : Z) (ls : local_state) : local_state :=
  let st := l_dp ls in
  let null := f_of_Z 0 in
  let '(gapA, null) :=
    if R_A i j then (fsub (matrix st (i - 1) j) (f_of_Z 1000000), f_of_Z (-1000000))
    else if traceback st (i - 1) j =? 3
         then (fadd (matrix st (i - 1) j) (fmul (scorer i 0) scale), null)
         else (fadd (matrix st (i - 1) j) (scorer i 0), null) in
  let '(gapB, null) :=
    if R_B i j then (fsub (matrix st i (j - 1)) (f_of_Z 1000000), f_of_Z (-1000000))
    else if traceback st i (j - 1) =? 2
         then (fadd (matrix st i (j - 1)) (fmul (scorer 0 j) scale), null)
         else (fadd (matrix st i (j - 1)) (scorer 0 j), null) in
  let match_ := fadd (matrix st (i - 1) (j - 1)) (scorer i j) in
  let st' :=
    if fge gapA match_ && fge gapA gapB && fge gapA null then set_cell st i j gapA 3
    else if fge match_ gapB && fge match_ null then set_cell st i j match_ 1
    else if fgt gapB null then set_cell st i j gapB 2
    else set_cell st i j null 0 in
  if fge (matrix st' i j) (max_score ls)
  then LocalState st' (matrix st' i j) (Some i) (Some j)
  else LocalState st' (max_score ls) (imax ls) (jmax ls).

Definition local_fill : local_state :=
  fill_cells lA lB local_cell (LocalState local_init (f_of_Z 0) None None).

(** [while (traceback[i][j] != 0)]; a walk from inside the arrays needs one
    round more than [i + j] to leave them. *)
Fixpoint local_walk (fuel : nat) (tb : Z → Z → Z) (i j : Z)
    (almA almB : Z → Z) : outcome (Z * Z * (Z → Z) * (Z → Z)) :=
  if (i <? 0) || (j <? 0) then Undefined
  else if tb i j =? 0 then Ok (i, j, almA, almB)
  else
    match fuel with
    | O => OutOfFuel
    | S fuel' =>
      if tb i j =? 3 then
        local_walk fuel' tb (i - 1) j (upd almA j (almA j + 1)) almB
      else if tb i j =? 1 then
        local_walk fuel' tb (i - 1) (j - 1) almA almB
      else if tb i j =? 2 then
        local_walk fuel' tb i (j - 1) almA (upd almB i (almB i + 1))
      else Ok (i, j, almA, almB)
    end.

(** [for (k = lo; k < hi; k++) alm[k] = -1] *)
Definition mark_outside (lo hi : Z) (alm : Z → Z) : Z → Z :=
  for_range lo (hi - lo) (λ k a, upd a k (-1)) alm.

Definition _local (almA almB : Z → Z) : outcome (F * (Z → Z) * (Z → Z)) :=
  if (lB <? 0) || (lA <? 0) then Undefined
  else
    let ls := local_fill in
    match imax ls, jmax ls with
    | Some i, Some j =>
      let sim := matrix (l_dp ls) i j in
      let almA := mark_outside j lA almA in
      let almB := mark_outside i lB almB in
      '(i, j, almA, almB) ←
        local_walk (S walk_fuel) (traceback (l_dp ls)) i j almA almB;
      let almA := mark_outside 0 j almA in
      let almB := mark_outside 0 i almB in
      Ok (sim, almA, almB)
    | _, _ => Undefined
    end.

(** *** _overlap *)

Definition overlap_init : dp F :=
  let st := set_cell dp_fresh 0 0 (f_of_Z 0) 1 in
  let st := for_range 1 lA (λ i st, set_cell st 0 i (f_of_Z 0) 2) st in
  for_range 1 lB (λ i st, set_cell st i 0 (f_of_Z 0) 3) st.

Definition overlap_gapA (i j : Z) (st : dp F) : F :=
  if R_A i j then fsub (matrix st (i - 1) j) (f_of_Z 1000000)
  else if j =? lA then matrix st (i - 1) j
  else if traceback st (i - 1) j =? 3
       then fadd (matrix st (i - 1) j) (fmul (scorer i 0) scale)
       else fadd (matrix st (i - 1) j) (scorer i 0).

Definition overlap_gapB (i j : Z) (st : dp F) : F :=
  if R_B i j then fsub (matrix st i (j - 1)) (f_of_Z 1000000)
  else if i =? lB then matrix st i (j - 1)
  else if traceback st i (j - 1) =? 2
       then fadd (matrix st i (j - 1)) (fmul (scorer 0 j) scale)
       else fadd (matrix st i (j - 1)) (scorer 0 j).

Definition overlap_cell (i j : Z) (st : dp F) : dp F :=
  let gapA := overlap_gapA i j st in
  let gapB := overlap_gapB i j st in
  let match_ := fadd (matrix st (i - 1) (j - 1)) (scorer i j) in
  if fgt gapA match_ && fge gapA gapB then set_cell st i j gapA 3
  else if fge match_ gapB then set_cell st i j match_ 1
  else set_cell st i j gapB 2.

Definition overlap_fill : dp F := fill_cells lA lB overlap_cell overlap_init.

Definition _overlap (almA almB : Z → Z) : outcome (F * (Z → Z) * (Z → Z)) :=
  if bad_dims then Undefined
  else
    let st := overlap_fill in
    let sim := matrix st lB lA in
    '(almA, almB) ← traceback_walk walk_fuel (traceback st) lB lA almA almB;
    Ok (sim, almA, almB).

(** *** _repeats *)

Definition repeats_init : dp F :=
  let st := set_cell dp_fresh 0 0 (f_of_Z 0) 1 in
  let st := for_range 1 lA (λ i st, set_cell st 0 i (f_of_Z 0) 2) st in
  for_range 1 lB (λ i st, set_cell st i 0 (f_of_Z 0) 3) st.

(** Every branch of both tests assigns [null]; the value that reaches the
    comparison is the one set by the second test. *)
Definition repeats_cell (i j : Z) (st : dp F) : dp F :=
  let '(gapA, null) :=
    if R_A i j then (fsub (matrix st (i - 1) j) (f_of_Z 1000000), f_of_Z (-1000000))
    else if traceback st (i - 1) j =? 3
         then (fadd (matrix st (i - 1) j) (fmul (scorer i 0) scale), f_of_Z 0)
         else (fadd (matrix st (i - 1) j) (scorer i 0), f_of_Z 0) in
  let '(gapB, null) :=
    if R_B i j then (fsub (matrix st i (j - 1)) (f_of_Z 1000000), f_of_Z (-1000000))
    else if traceback st i (j - 1) =? 2
         then (fadd (matrix st i (j - 1)) (fmul (scorer 0 j) scale), f_of_Z 0)
         else (fadd (matrix st i (j - 1)) (scorer 0 j), f_of_Z 0) in
  let match_ := fadd (matrix st (i - 1) (j - 1)) (scorer i j) in
  if fge gapA match_ && fge gapA gapB && fge gapA null then set_cell st i j gapA 3
  else if fgt match_ gapB && fgt match_ null then set_cell st i j match_ 1
  else if fgt gapB null then set_cell st i j gapB 2
  else set_cell st i j null 0.

Definition repeats_fill : dp F := fill_cells lA lB repeats_cell repeats_init.

(** The inner loop [for (l = i-1; l >= 0; l--)]: its body is the empty
    statement guarded by [if (traceback[l][k] == 1);], then
    [breakit = true; break;] unconditionally, so it runs at most once.
    Returns the value of [l] and of [breakit] after the loop. *)
Definition repeats_scan_inner (tb : Z → Z → Z) (i k : Z) : Z * bool :=
  let l := i - 1 in
  if 0 <=? l then
    let _ := if tb l k =? 1 then tt else tt in
    (l, true)
  else (l, false).

(** The outer loop [for (k = j-1; k >= 0; k--)], started at [k]; [l] is the
    current content of the variable [l] ([None]: never assigned). *)
Fixpoint repeats_scan_outer (fuel : nat) (tb : Z → Z → Z) (i k : Z)
    (l : option Z) : Z * option Z :=
  if 0 <=? k then
    match fuel with
    | O => (k, l)
    | S fuel' =>
      let '(l', breakit) := repeats_scan_inner tb i k in
      if breakit then (k, Some l')
      else repeats_scan_outer fuel' tb i (k - 1) (Some l')
    end
  else (k, l).

Definition repeats_scan (tb : Z → Z → Z) (i j : Z) (l : option Z) : Z * option Z :=
  repeats_scan_outer (Z.to_nat j) tb i (j - 1) l.

(** [for (o = 0; o < n; o++) alm[p] = alm[p] + 1] *)
Definition add_gaps (n p : Z) (alm : Z → Z) : Z → Z :=
  for_range 0 n (λ _ a, upd a p (a p + 1)) alm.

Fixpoint repeats_walk (fuel : nat) (st : dp F) (i j : Z) (l : option Z)
    (sim : F) (almA almB : Z → Z) : outcome (F * (Z → Z) * (Z → Z)) :=
  if (0 <? i) || (0 <? j) then
    if (i <? 0) || (j <? 0) then Undefined
    else
      match fuel with
      | O => OutOfFuel
      | S fuel' =>
        if traceback st i j =? 3 then
          repeats_walk fuel' st (i - 1) j l sim (upd almA j (almA j + 1)) almB
        else if traceback st i j =? 1 then
          repeats_walk fuel' st (i - 1) (j - 1) l sim almA almB
        else if traceback st i j =? 2 then
          repeats_walk fuel' st i (j - 1) l sim almA (upd almB i (almB i + 1))
        else
          match repeats_scan (traceback st) i j l with
          | (k, Some l') =>
            let skip := (j - k) + (i - l') in
            let skipA := j - k in
            let skipB := i - l' in
            if (k <? 0) || (l' <? 0) then Undefined
            else
              let almA := add_gaps (skip - skipA) (j - skipA) almA in
              let almB := add_gaps (skip - skipB) i almB in
              repeats_walk fuel' st l' k (Some l') (fadd sim (matrix st l' k))
                almA almB
          | (_, None) => Undefined
          end
      end
  else Ok (sim, almA, almB).

Definition _repeats (almA almB : Z → Z) : outcome (F * (Z → Z) * (Z → Z)) :=
  if bad_dims then Undefined
  else
    let st := repeats_fill in
    repeats_walk walk_fuel st lB lA None (matrix st lB lA) almA almB.

(** *** _dialign *)

Definition dialign_init : dp F :=
  let st := set_cell dp_fresh 0 0 (f_of_Z 0) 1 in
  let st := for_range 1 lA (λ i st, set_cell st 0 i (f_of_Z 0) 2) st in
  for_range 1 lB (λ i st, set_cell st i 0 (f_of_Z 0) 3) st.

(** [new_score] of the diagonal of length [k+1] that ends in [(i,j)]:
    [matrix[i-k-1][j-k-1]] plus the scorer cells, added for [l = k] down to 0. *)
Definition diagonal_score (m : Z → Z → F) (i j k : Z) : F :=
  foldl (λ s l, fadd s (scorer (i - l) (j - l)))
    (m (i - k - 1) (j - k - 1)) (reverse (seqZ 0 (k + 1))).

(** The loop over [k] that keeps the best diagonal in
    [(old_score, old_length)]. *)
Definition best_diagonal (m : Z → Z → F) (i j : Z) : F * Z :=
  let minimum := if i <? j then i else j in
  for_range 0 minimum (λ k '(old_score, old_length),
    let new_score := diagonal_score m i j k in
    let new_length := k + 1 in
    if fgt new_score old_score then (new_score, new_length)
    else (old_score, old_length)) (f_of_Z 0, 1).

(** [for (k = 0; k < old_length; k++) traceback[i-k][j-k] = 1] *)
Definition mark_diagonal (tb : Z → Z → Z) (i j old_length : Z) : Z → Z → Z :=
  for_range 0 old_length (λ k t, upd2 t (i - k) (j - k) 1) tb.

Definition dialign_cell (i j : Z) (st : dp F) : dp F :=
  let '(old_score, old_length) := best_diagonal (matrix st) i j in
  let scoreA :=
    if R_A i j then fsub (matrix st (i - 1) j) (f_of_Z 1000000)
    else matrix st (i - 1) j in
  let scoreB :=
    if R_B i j then fsub (matrix st i (j - 1)) (f_of_Z 1000000)
    else matrix st i (j - 1) in
  let '(max_score, tb) :=
    if fge scoreA old_score && fgt scoreA scoreB
    then (scoreA, upd2 (traceback st) i j 3)
    else if fgt old_score scoreB
    then (old_score, mark_diagonal (traceback st) i j old_length)
    else (scoreB, upd2 (traceback st) i j 2) in
  Dp (upd2 (matrix st) i j max_score) tb.

Definition dialign_fill : dp F := fill_cells lA lB dialign_cell dialign_init.

(** The parameter [scale] is part of the signature and is never used. *)
Definition _dialign (almA almB : Z → Z) : outcome (F * (Z → Z) * (Z → Z)) :=
  let _ := scale in
  if bad_dims then Undefined
  else
    let st := dialign_fill in
    let sim := matrix st lB lA in
    '(almA, almB) ← traceback_walk walk_fuel (traceback st) lB lA almA almB;
    Ok (sim, almA, almB).
End Kernels.

(** ** The drivers *)

Section Drivers.
Context {F : Type} `{FloatOps F}.

(** The type of the function pointer [align]. *)
Definition kernel : Type :=
  (Z → Z) → Z → (Z → Z) → Z → (Z → Z → F) → F → (Z → Z) → (Z → Z) →
  outcome (F * (Z → Z) * (Z → Z)).

(** The chain of [if (mode == ...)] that assigns [align]; there is no final
    [else], so the pointer stays unassigned ([None]) for any other string. *)
Definition select_kernel (mode : string) : option kernel :=
  if String.eqb mode "global" then Some _global
  else if String.eqb mode "local" then Some _local
  else if String.eqb mode "repeats" then Some _repeats
  else if String.eqb mode "overlap" then Some _overlap
  else if String.eqb mode "dialign" then Some _dialign
  else None.

(** [l[k]] on a Python list, for [k >= 0]. *)
Definition py_get {T : Type} (l : list T) (k : Z) : outcome T :=
  match l !! Z.to_nat k with
  | Some x => Ok x
  | None => Raised IndexError
  end.

(** [s[k]] on a [std::string], for [k >= 0]: the terminator at
    [k == s.size()], undefined beyond. *)
Definition str_get (s : string) (k : Z) : outcome Ascii.ascii :=
  match String.get (Z.to_nat k) s with
  | Some c => Ok c
  | None => if Z.to_nat k =? String.length s then Ok Ascii.zero else Undefined
  end%nat.

(** [score_dict[key]] *)
Definition dict_get (score_dict : gmap (string * string) F)
    (key : string * string) : outcome F :=
  match score_dict !! key with
  | Some s => Ok s
  | None => Raised KeyError
  end.

(** The body of the loop that fills the scorer with the scores for
    matchings, at row [k] and column [l].  [key a b] is the tuple looked up
    for the symbols [a = seqA[l-1]] and [b = seqB[k-1]]. *)
Definition score_cell (key : string → string → string * string)
    (seqA seqB : list string) (prsA prsB : string)
    (score_dict : gmap (string * string) F) (sonority_factor : F)
    (k l : Z) (scorer : Z → Z → F) : outcome (Z → Z → F) :=
  a ← py_get seqA (l - 1);
  b ← py_get seqB (k - 1);
  score ← dict_get score_dict (key a b);
  ca ← str_get prsA (l - 1);
  cb ← str_get prsB (k - 1);
  let score :=
    if Ascii.eqb ca cb then fmul score (fadd (f_of_Z 1) sonority_factor)
    else score in
  Ok (upd2 scorer k l score).

(** Construction of [scorer]: cell (0,0), the gap weights of B in column 0
    and of A in row 0, then the scores for matchings. *)
Definition build_scorer (key : string → string → string * string)
    (seqA seqB : list string) (wghA wghB : list F) (prsA prsB : string)
    (score_dict : gmap (string * string) F) (sonority_factor : F)
    : outcome (Z → Z → F) :=
  let lA := Z.of_nat (length seqA) in
  let lB := Z.of_nat (length seqB) in
  let scorer := upd2 (λ _ _, f_of_Z 0) 0 0 (f_of_Z 0) in
  scorer ← for_eachM (seqZ 1 lB) (λ k scorer,
    w ← py_get wghB (k - 1); Ok (upd2 scorer k 0 w)) scorer;
  scorer ← for_eachM (seqZ 1 lA) (λ k scorer,
    w ← py_get wghA (k - 1); Ok (upd2 scorer 0 k w)) scorer;
  for_eachM (seqZ 1 lB) (λ k scorer,
    for_eachM (seqZ 1 lA) (λ l scorer,
      score_cell key seqA seqB prsA prsB score_dict sonority_factor
        k l scorer) scorer) scorer.

(** [for (k = 0; k < n; k++) array[k] = extract<int>(res[k])] *)
Definition int_array (res : list Z) (n : Z) : outcome (Z → Z) :=
  for_eachM (seqZ 0 n) (λ k a, r ← py_get res k; Ok (upd a k r)) (λ _, 0).

(** [out.insert(k, "-")], for [k >= 0]. *)
Definition py_insert (k : nat) (x : string) (out : list string) : list string :=
  take k out ++ x :: drop k out.

(** One round of the retrieval loop, at position [k]. *)
Definition retrieve_step (alm : Z → Z) (k : nat) (out : list string)
    : outcome (list string) :=
  if 0 <? alm (Z.of_nat k) then
    Ok (for_range 0 (alm (Z.of_nat k)) (λ _ o, py_insert k "-" o) out)
  else if alm (Z.of_nat k) <? 0 then
    if (k <? length out)%nat then Ok (<[k := "*"]> out) else Raised IndexError
  else Ok out.

(** [for (k = l; k >= 0; k--)] over the gap counts. *)
Fixpoint retrieve (alm : Z → Z) (k : nat) (out : list string)
    : outcome (list string) :=
  out ← retrieve_step alm k out;
  match k with
  | O => Ok out
  | S k' => retrieve alm k' out
  end.

(** The block that the three drivers repeat for one pair of sequences:
    scorer, restriction arrays, gap-count arrays, the call through [align]
    and the retrieval of the alignment. *)
Definition align_pair (key : string → string → string * string)
    (align : option kernel)
    (seqA seqB : list string) (wghA wghB : list F) (resA resB : list Z)
    (prsA prsB : string) (score_dict : gmap (string * string) F)
    (scale sonority_factor : F)
    : outcome (list string * list string * F) :=
  let lA := length seqA in
  let lB := length seqB in
  let outA := seqA in
  let outB := seqB in
  scorer ← build_scorer key seqA seqB wghA wghB prsA prsB score_dict sonority_factor;
  arrayA ← int_array resA (Z.of_nat lA);
  arrayB ← int_array resB (Z.of_nat lB);
  let almA := λ _ : Z, 0 in
  let almB := λ _ : Z, 0 in
  '(sim, almA, almB) ←
    match align with
    | Some f => f arrayA (Z.of_nat lA) arrayB (Z.of_nat lB) scorer scale almA almB
    | None => Undefined
    end;
  outA ← retrieve almA lA outA;
  outB ← retrieve almB lB outB;
  Ok (outA, outB, sim).

(** [make_tuple(seqA[l-1], seqB[k-1])] *)
Definition key_AB (a b : string) : string * string := (a, b).

(** [make_tuple(seqB[k-1], seqA[l-1])] *)
Definition key_BA (a b : string) : string * string := (b, a).

Definition align_pairwise (seqA seqB : list string) (wghA wghB : list F)
    (resA resB : list Z) (prsA prsB : string)
    (score_dict : gmap (string * string) F) (scale sonority_factor : F)
    (mode : string) : outcome (list string * list string * F) :=
  align_pair key_AB (select_kernel mode) seqA seqB wghA wghB resA resB
    prsA prsB score_dict scale sonority_factor.

Definition align_sequences_pairwise (seqs : list (list string))
    (weights : list (list F)) (restrictions : list (list Z))
    (prosodics : list string) (score_dict : gmap (string * string) F)
    (scale sonority_factor : F) (mode : string)
    : outcome (list (list string * list string * F)) :=
  let lS := Z.of_nat (length seqs) in
  let align := select_kernel mode in
  for_eachM (seqZ 0 lS) (λ i alignments,
    for_eachM (seqZ 0 lS) (λ j alignments,
      if i <? j then
        seqA ← py_get seqs i;
        seqB ← py_get seqs j;
        wghA ← py_get weights i;
        wghB ← py_get weights j;
        resA ← py_get restrictions i;
        resB ← py_get restrictions j;
        prsA ← py_get prosodics i;
        prsB ← py_get prosodics j;
        t ← align_pair key_BA align seqA seqB wghA wghB resA resB
              prsA prsB score_dict scale sonority_factor;
        Ok (alignments ++ [t])
      else Ok alignments) alignments) [].

Definition align_sequence_pairs (seqs : list (list string * list string))
    (weights : list (list F * list F)) (restrictions : list (list Z * list Z))
    (prosodics : list (string * string)) (score_dict : gmap (string * string) F)
    (scale sonority_factor : F) (mode : string)
    : outcome (list (list string * list string * F)) :=
  let lS := Z.of_nat (length seqs) in
  let align := select_kernel mode in
  for_eachM (seqZ 0 lS) (λ i alignments,
    s ← py_get seqs i;
    w ← py_get weights i;
    r ← py_get restrictions i;
    p ← py_get prosodics i;
    t ← align_pair key_AB align s.1 s.2 w.1 w.2 r.1 r.2 p.1 p.2
          score_dict scale sonority_factor;
    Ok (alignments ++ [t])) [].
End Drivers.

(** ** random_align_sequence_pairs *)

(** [l[k]] on a Python list, for any [k]: a negative index counts from the
    end of the list. *)
Definition py_item {T : Type} (l : list T) (k : Z) : outcome T :=
  if k <? 0 then
    if 0 <=? Z.of_nat (length l) + k then py_get l (Z.of_nat (length l) + k)
    else Raised IndexError
  else py_get l k.

(** [v[i]] on a [std::vector<int>], for [i >= 0]: undefined past the end. *)
Definition vec_get (v : list Z) (i : Z) : outcome Z :=
  match v !! Z.to_nat i with
  | Some x => Ok x
  | None => Undefined
  end.

(** [corrs[tmp_pair] = 1.0 / runs] for a new key and
    [corrs[tmp_pair] += 1.0 / runs] for a key that is there.  The value of a
    key is the sum of as many terms [1.0 / runs] as the key was counted,
    added one at a time; the model keeps that number of terms. *)
Definition count_pair (corrs : gmap (string * string) nat)
    (p : string * string) : gmap (string * string) nat :=
  match corrs !! p with
  | None => <[p := 1%nat]> corrs
  | Some c => <[p := S c]> corrs
  end.

(** [for (n = 0; n < len(outA); n++)] over [make_tuple(outA[n], outB[n])]. *)
Definition count_columns (outA outB : list string)
    (corrs : gmap (string * string) nat)
    : outcome (gmap (string * string) nat) :=
  for_eachM (seqZ 0 (Z.of_nat (length outA))) (λ n corrs,
    a ← py_get outA n;
    b ← py_get outB n;
    Ok (count_pair corrs (a, b))) corrs.

(** [localA] and [localB]: the entries that are not ["*"], in order. *)
Definition drop_stars (out : list string) : list string :=
  filter (λ x, x ≠ "*") out.

Section RandomPairs.
Context {F : Type} `{FloatOps F}.

(** The state of the two dictionaries [alm_pairs] and [corrs]. *)
Definition random_state : Type :=
  gmap (Z * Z) (list string * list string) * gmap (string * string) nat.

(** The alignment of the A side of pair [vi] with the B side of pair [i]. *)
Definition cross_pair (align : option kernel)
    (seqs : list (list string * list string))
    (weights : list (list F * list F)) (restrictions : list (list Z * list Z))
    (prosodics : list (string * string))
    (score_dict : gmap (string * string) F) (scale sonority_factor : F)
    (vi i : Z) : outcome (list string * list string) :=
  sA ← py_item seqs vi;
  sB ← py_get seqs i;
  wA ← py_item weights vi;
  wB ← py_get weights i;
  rA ← py_item restrictions vi;
  rB ← py_get restrictions i;
  pA ← py_item prosodics vi;
  pB ← py_get prosodics i;
  '(outA, outB, _) ←
    align_pair key_AB align sA.1 sB.2 wA.1 wB.2 rA.1 rB.2 pA.1 pB.2
      score_dict scale sonority_factor;
  Ok (outA, outB).

(** The body of the loop over [i], for the shuffled indices [v]. *)
Definition random_round (align : option kernel)
    (seqs : list (list string * list string))
    (weights : list (list F * list F)) (restrictions : list (list Z * list Z))
    (prosodics : list (string * string))
    (score_dict : gmap (string * string) F) (scale sonority_factor : F)
    (mode : string) (v : list Z) (i : Z) (st : random_state)
    : outcome random_state :=
  let '(alm_pairs, corrs) := st in
  vi ← vec_get v i;
  '(alm_pairs, outA, outB) ←
    match alm_pairs !! (vi, i) with
    | None =>
      '(outA, outB) ←
        cross_pair align seqs weights restrictions prosodics score_dict
          scale sonority_factor vi i;
      Ok (<[(vi, i) := (outA, outB)]> alm_pairs, outA, outB)
    | Some (outA, outB) => Ok (alm_pairs, outA, outB)
    end;
  corrs ←
    (if negb (String.eqb mode "local") then count_columns outA outB corrs
     else count_columns (drop_stars outA) (drop_stars outB) corrs);
  Ok (alm_pairs, corrs).

(** [std::random_shuffle] draws from the generator of the C library, whose
    state is outside the program: [rng] is that state and [random_shuffle]
    the permutation that a call makes of [v] from it. *)
Definition random_align_sequence_pairs {G : Type}
    (random_shuffle : G → list Z → G * list Z)
    (seqs : list (list string * list string))
    (weights : list (list F * list F)) (restrictions : list (list Z * list Z))
    (prosodics : list (string * string))
    (score_dict : gmap (string * string) F) (scale sonority_factor : F)
    (mode : string) (runs : Z) (rng : G)
    : outcome (gmap (string * string) nat) :=
  let lS := Z.of_nat (length seqs) in
  let align := select_kernel mode in
  let v := seqZ 0 lS in
  '(_, _, (_, corrs)) ←
    for_eachM (seqZ 0 runs) (λ m '(rng, v, st),
      let '(rng, v) := random_shuffle rng v in
      st ← for_eachM (seqZ 0 lS) (λ i st,
             random_round align seqs weights restrictions prosodics
               score_dict scale sonority_factor mode v i st) st;
      Ok (rng, v, st)) (rng, v, (∅, ∅));
  Ok corrs.
End RandomPairs.

(** ** edit_dist *)

(** [seqA[j-1] == seqB[i-1]] for indices inside both lists. *)
Definition sym_eqb (seqA seqB : list string) (i j : Z) : bool :=
  bool_decide (seqA !! Z.to_nat (j - 1) = seqB !! Z.to_nat (i - 1)).

Definition edit_init (m n : Z) : Z → Z → Z :=
  let matrix := upd2 (λ _ _, 0) 0 0 0 in
  let matrix := for_range 1 m (λ j mx, upd2 mx 0 j j) matrix in
  for_range 1 n (λ i mx, upd2 mx i 0 i) matrix.

Definition edit_cell (seqA seqB : list string) (i j : Z) (matrix : Z → Z → Z)
    : Z → Z → Z :=
  let penalty := if sym_eqb seqA seqB i j then 0 else 1 in
  let gapA := matrix (i - 1) j + 1 in
  let match_ := matrix (i - 1) (j - 1) + penalty in
  let gapB := matrix i (j - 1) + 1 in
  let min :=
    if (gapA <=? match_) && (gapA <=? gapB) then gapA
    else if match_ <? gapB then match_
    else gapB in
  upd2 matrix i j min.

Definition edit_fill (seqA seqB : list string) : Z → Z → Z :=
  let m := Z.of_nat (length seqA) in
  let n := Z.of_nat (length seqB) in
  fill_cells m n (edit_cell seqA seqB) (edit_init m n).

(** [dist = (matrix[n][m] * 1.0) / (std::max(n,m) * 1.0)]: the quotient as a
    rational number; [None] is the NaN of 0.0 / 0.0. *)
Definition edit_dist (seqA seqB : list string) : option Q :=
  let m := Z.of_nat (length seqA) in
  let n := Z.of_nat (length seqB) in
  let matrix := edit_fill seqA seqB in
  if Z.max n m =? 0 then None
  else Some (matrix n m # Z.to_pos (Z.max n m)).

(** ** The recurrences as the specification states them

    Each definition reads the two filled arrays of a kernel and returns the
    value and the traceback that the specification prescribes for cell
    [(i,j)]. *)

Section Recurrences.
Context {F : Type} `{FloatOps F}.
Variables (arrayA : Z → Z) (lA : Z) (arrayB : Z → Z) (lB : Z).
Variables (scorer : Z → Z → F) (scale : F).

(** gapA of the recurrence skeleton: penalty under [R_A], else extension
    when the cell above has traceback 3, else the plain gap weight. *)
Definition spec_gapA (st : dp F) (i j : Z) : F :=
  if R_A arrayA lA arrayB i j then fsub (matrix st (i - 1) j) (f_of_Z 1000000)
  else if traceback st (i - 1) j =? 3
       then fadd (matrix st (i - 1) j) (fmul (scorer i 0) scale)
       else fadd (matrix st (i - 1) j) (scorer i 0).

(** gapB: symmetric, with [R_B], row 0 of the scorer and traceback 2 of the
    cell to the left. *)
Definition spec_gapB (st : dp F) (i j : Z) : F :=
  if R_B arrayA arrayB lB i j then fsub (matrix st i (j - 1)) (f_of_Z 1000000)
  else if traceback st i (j - 1) =? 2
       then fadd (matrix st i (j - 1)) (fmul (scorer 0 j) scale)
       else fadd (matrix st i (j - 1)) (scorer 0 j).

Definition spec_match (st : dp F) (i j : Z) : F :=
  fadd (matrix st (i - 1) (j - 1)) (scorer i j).

(** global / overlap: 3 iff gapA > match and gapA >= gapB, else 1 iff
    match >= gapB, else 2. *)
Definition spec_argmax (gapA match_ gapB : F) : F * Z :=
  if fgt gapA match_ && fge gapA gapB then (gapA, 3)
  else if fge match_ gapB then (match_, 1)
  else (gapB, 2).

Definition global_recurrence (st : dp F) (i j : Z) : F * Z :=
  spec_argmax (spec_gapA st i j) (spec_match st i j) (spec_gapB st i j).

(** The overlap exception: no cost in the last column (gapA) and in the
    last row (gapB). *)
Definition spec_overlap_gapA (st : dp F) (i j : Z) : F :=
  if j =? lA then matrix st (i - 1) j else spec_gapA st i j.

Definition spec_overlap_gapB (st : dp F) (i j : Z) : F :=
  if i =? lB then matrix st i (j - 1) else spec_gapB st i j.

Definition overlap_recurrence (st : dp F) (i j : Z) : F * Z :=
  spec_argmax (spec_overlap_gapA st i j) (spec_match st i j)
    (spec_overlap_gapB st i j).
End Recurrences.

(** * Definitions used to state the properties

    Predicates over the filled arrays and over the gap counts, the claims of
    the specification written out as propositions, and the concrete inputs
    on which the code is run. *)

(** ** Cells in the order of the fill *)

(** Cell [(i',j')] is filled before cell [(i,j)]: rows from the top, each
    row from the left. *)
Definition earlier (i' j' i j : Z) : Prop := i' < i ∨ (i' = i ∧ j' < j).

(** All cells up to and including [(i,j)] are done: [Inv] holds and [Q]
    holds of every cell of the matrix up to [(i,j)]. *)
Definition filled {St : Type} (lA lB : Z) (Inv : St → Prop)
    (Q : Z → Z → St → Prop) (i j : Z) (st : St) : Prop :=
  Inv st ∧
  ∀ i' j', 1 ≤ i' ≤ lB → 1 ≤ j' ≤ lA → earlier i' j' i (j + 1) → Q i' j' st.

(** Two pairs of arrays agree on every cell before [(i,j)]. *)
Definition same_before {F : Type} (i j : Z) (st st' : dp F) : Prop :=
  ∀ i' j', earlier i' j' i j →
    matrix st i' j' = matrix st' i' j' ∧ traceback st i' j' = traceback st' i' j'.

(** ** The running maximum of the local kernel *)

(** The running maximum of the local kernel points into the matrix. *)
Definition max_assigned {F : Type} (lA lB : Z) (ls : @local_state F) : Prop :=
  ∃ i j, imax ls = Some i ∧ jmax ls = Some j ∧ 1 ≤ i ≤ lB ∧ 1 ≤ j ≤ lA.

(** It is either untouched, with [max_score] still 0, or assigned. *)
Definition max_tracked {F : Type} `{FloatOps F} (lA lB : Z)
    (ls : @local_state F) : Prop :=
  (imax ls = None ∧ jmax ls = None ∧ max_score ls = f_of_Z 0) ∨
  max_assigned lA lB ls.

(** ** Gap counts *)

(** [alm[0] + ... + alm[n]] *)
Fixpoint gap_total (alm : Z → Z) (n : nat) : Z :=
  match n with
  | O => alm 0
  | S n' => gap_total alm n' + alm (Z.of_nat (S n'))
  end.

(** The first row of [traceback] sends the walk left and the first column
    sends it up. *)
Definition borders (lA lB : Z) (tb : Z → Z → Z) : Prop :=
  (∀ j, 1 ≤ j ≤ lA → tb 0 j = 2) ∧ (∀ i, 1 ≤ i ≤ lB → tb i 0 = 3).

(** What a walk from [(i,j)] to [(0,0)] does to the gap counts: it only adds
    gaps, and gaps added to A minus gaps added to B is [i - j]. *)
Definition balanced (lA lB i j : Z) (almA almB almA' almB' : Z → Z) : Prop :=
  (∀ k, almA k ≤ almA' k) ∧ (∀ k, almB k ≤ almB' k) ∧
  gap_total almA' (Z.to_nat lA) - gap_total almB' (Z.to_nat lB)
  = gap_total almA (Z.to_nat lA) - gap_total almB (Z.to_nat lB) + i - j.

(** A kernel that, for a non-empty B and any A, returns gap counts that only
    grow and that make up for the difference of the two lengths. *)
Definition gapped_kernel {F : Type} (k : (Z → Z) → Z → (Z → Z) → Z → (Z → Z → F) → F →
    (Z → Z) → (Z → Z) → outcome (F * (Z → Z) * (Z → Z))) : Prop :=
  ∀ arrayA lA arrayB lB scorer scale almA almB,
    0 ≤ lA → 1 ≤ lB →
    ∃ sim almA' almB',
      k arrayA lA arrayB lB scorer scale almA almB = Ok (sim, almA', almB') ∧
      balanced lA lB lB lA almA almB almA' almB'.

(** ** Drivers *)

(** Valid input of one pair: non-empty sequences, weight, restriction and
    prosodic vectors of the length of their sequence, and a similarity
    mapping defined on every key that is looked up. *)
Definition valid_input {F : Type} (key : string → string → string * string)
    (seqA seqB : list string) (wghA wghB : list F) (resA resB : list Z)
    (prsA prsB : string) (score_dict : gmap (string * string) F) : Prop :=
  (1 ≤ length seqA)%nat ∧ (1 ≤ length seqB)%nat ∧
  length wghA = length seqA ∧ length wghB = length seqB ∧
  length resA = length seqA ∧ length resB = length seqB ∧
  String.length prsA = length seqA ∧ String.length prsB = length seqB ∧
  Forall (λ a, Forall (λ b, is_Some (score_dict !! key a b)) seqB) seqA.

(** The claim C1 as it is stated, for one mode: on every valid input the two
    output sequences of [align_pairwise] have the same length. *)
Definition lengths_agree (mode : string) : Prop :=
  ∀ (seqA seqB : list string) (wghA wghB : list Z) (resA resB : list Z)
    (prsA prsB : string) (score_dict : gmap (string * string) Z)
    (scale sonority_factor : Z) outA outB sim,
    valid_input key_AB seqA seqB wghA wghB resA resB prsA prsB score_dict →
    align_pairwise seqA seqB wghA wghB resA resB prsA prsB score_dict
      scale sonority_factor mode = Ok (outA, outB, sim) →
    length outA = length outB.

(** Entry [(k,l)] of the scorer holds the similarity found under the key
    built from [seqA[l-1]] and [seqB[k-1]], with or without the prosodic
    bonus. *)
Definition scored {F : Type} `{FloatOps F}
    (key : string → string → string * string) (seqA seqB : list string)
    (score_dict : gmap (string * string) F) (sonority_factor : F)
    (scorer : Z → Z → F) (k l : Z) : Prop :=
  ∃ a b s,
    seqA !! Z.to_nat (l - 1) = Some a ∧ seqB !! Z.to_nat (k - 1) = Some b ∧
    score_dict !! key a b = Some s ∧
    (scorer k l = s ∨ scorer k l = fmul s (fadd (f_of_Z 1) sonority_factor)).

(** The similarity mapping with the two components of every key exchanged. *)
Definition transpose {F : Type} (score_dict : gmap (string * string) F)
    : gmap (string * string) F :=
  kmap (λ p : string * string, (p.2, p.1)) score_dict.

#[export] Instance swap_inj : Inj (=) (=) (λ p : string * string, (p.2, p.1)).
Proof. intros [a b] [c d] Heq. simpl in Heq. congruence. Qed.

(** ** Restrictions *)

(** What the restriction guarantees at cell [(i,j)] of filled arrays: a
    horizontal gap against [R_B], or a vertical gap against [R_A], is stored
    only together with the penalised score. *)
Definition penalised {F : Type} `{FloatOps F} (arrayA : Z → Z) (lA : Z)
    (arrayB : Z → Z) (lB : Z) (st : dp F) (i j : Z) : Prop :=
  (R_B arrayA arrayB lB i j = true → traceback st i j = 2 →
   matrix st i j = fsub (matrix st i (j - 1)) (f_of_Z 1000000)) ∧
  (R_A arrayA lA arrayB i j = true → traceback st i j = 3 →
   matrix st i j = fsub (matrix st (i - 1) j) (f_of_Z 1000000)).

(** The same about one round, which reads [st] and writes cell [(i,j)]. *)
Definition penalises {F : Type} `{FloatOps F} (arrayA : Z → Z) (lA : Z)
    (arrayB : Z → Z) (lB : Z) (st st' : dp F) (i j : Z) : Prop :=
  (R_B arrayA arrayB lB i j = true → traceback st' i j = 2 →
   matrix st' i j = fsub (matrix st i (j - 1)) (f_of_Z 1000000)) ∧
  (R_A arrayA lA arrayB i j = true → traceback st' i j = 3 →
   matrix st' i j = fsub (matrix st (i - 1) j) (f_of_Z 1000000)).

(** The arrays [matrix] and [traceback] that the kernel of [mode] has filled
    when its traceback starts. *)
Definition filled_arrays {F : Type} `{FloatOps F} (mode : string)
    (arrayA : Z → Z) (lA : Z) (arrayB : Z → Z) (lB : Z)
    (scorer : Z → Z → F) (scale : F) : option (dp F) :=
  if String.eqb mode "global" then Some (global_fill arrayA lA arrayB lB scorer scale)
  else if String.eqb mode "local"
       then Some (l_dp (local_fill arrayA lA arrayB lB scorer scale))
  else if String.eqb mode "repeats"
       then Some (repeats_fill arrayA lA arrayB lB scorer scale)
  else if String.eqb mode "overlap"
       then Some (overlap_fill arrayA lA arrayB lB scorer scale)
  else if String.eqb mode "dialign"
       then Some (dialign_fill arrayA lA arrayB lB scorer)
  else None.

(** The cells [(i,j)] with [0 <= i <= lB] and [0 <= j <= lA]. *)
Definition all_cells (lA lB : Z) : list (Z * Z) :=
  i ← seqZ 0 (lB + 1); j ← seqZ 0 (lA + 1); [(i, j)].

(** The index in [out] of the symbol that comes from position [j] of the
    input sequence: the [j]-th entry, from 0, that is not a gap. *)
Fixpoint position_of (out : list string) (j : nat) : option nat :=
  match out with
  | [] => None
  | x :: out' =>
    if String.eqb x "-" then S <$> position_of out' j
    else
      match j with
      | O => Some O
      | S j' => S <$> position_of out' j'
      end
  end.

(** The claim C2 as it is stated, for one mode: when [resA[j] < 0] and
    [resB[i] > 0] with [i != lB-1], no gap stands in [outB] opposite the
    symbol of A that comes from index [j]; and the same with A and B
    swapped. *)
Definition restriction_honored (mode : string) : Prop :=
  ∀ (seqA seqB : list string) (wghA wghB : list Z) (resA resB : list Z)
    (prsA prsB : string) (score_dict : gmap (string * string) Z)
    (scale sonority_factor : Z) outA outB sim (i j k : nat) (ra rb : Z),
    valid_input key_AB seqA seqB wghA wghB resA resB prsA prsB score_dict →
    align_pairwise seqA seqB wghA wghB resA resB prsA prsB score_dict
      scale sonority_factor mode = Ok (outA, outB, sim) →
    resA !! j = Some ra → resB !! i = Some rb →
    (ra < 0 → 0 < rb → i ≠ (length seqB - 1)%nat →
     position_of outA j = Some k → outB !! k ≠ Some "-") ∧
    (rb < 0 → 0 < ra → j ≠ (length seqA - 1)%nat →
     position_of outB i = Some k → outA !! k ≠ Some "-").

(** ** The scan of the repeats kernel *)

(** The scan as the specification describes it: the nearest cell with
    traceback 1, looking through the columns [k = j-1, ..., 0] and in each
    column through the rows [l = i-1, ..., 0].  Returns [(k, l)]. *)
Fixpoint nearest_match_in_column (tb : Z → Z → Z) (k : Z) (rows : nat) : option Z :=
  match rows with
  | O => None
  | S l =>
    if tb (Z.of_nat l) k =? 1 then Some (Z.of_nat l)
    else nearest_match_in_column tb k l
  end.

(** The columns [k = cols-1, ..., 0], each scanned over [rows] rows. *)
Fixpoint nearest_match (tb : Z → Z → Z) (rows cols : nat) : option (Z * Z) :=
  match cols with
  | O => None
  | S k =>
    match nearest_match_in_column tb (Z.of_nat k) rows with
    | Some l => Some (Z.of_nat k, l)
    | None => nearest_match tb rows k
    end
  end.

(** ** Edit distance *)

(** The unit-cost Levenshtein distance between the first [j] symbols of
    [seqA] and the first [i] symbols of [seqB] (the Wagner-Fischer
    recurrence on prefixes). *)
Fixpoint levenshtein (seqA seqB : list string) (i : nat) : nat → Z :=
  match i with
  | O => λ j, Z.of_nat j
  | S i' =>
    fix row (j : nat) : Z :=
      match j with
      | O => Z.of_nat (S i')
      | S j' =>
        let penalty :=
          if sym_eqb seqA seqB (Z.of_nat (S i')) (Z.of_nat (S j')) then 0 else 1 in
        Z.min (Z.min (levenshtein seqA seqB i' (S j') + 1)
                     (levenshtein seqA seqB i' j' + penalty))
              (row j' + 1)
      end
  end.

(** The first row and the first column of the matrix of [edit_dist] hold
    the prefix lengths. *)
Definition edit_borders (m n : Z) (matrix : Z → Z → Z) : Prop :=
  (∀ j, 0 ≤ j ≤ m → matrix 0 j = j) ∧ (∀ i, 0 ≤ i ≤ n → matrix i 0 = i).

(** ** Concrete inputs *)

(** Integer scores satisfy the order facts of [FloatOrder]. *)
#[export] Instance Z_float_order : FloatOrder Z.
Proof.
  split.
  - reflexivity.
  - intros x y. simpl. lia.
Qed.

(** A scorer with gap weight -1, 1 on the diagonal and -1 elsewhere. *)
Definition demo_scorer : Z → Z → Z :=
  λ i j, if (i =? 0) || (j =? 0) then -1 else if i =? j then 1 else -1.

(** Scores over a symbol inventory: [same] for a symbol with itself, [diff]
    for two different symbols. *)
Definition uniform_scores (syms : list string) (same diff : Z)
    : gmap (string * string) Z :=
  list_to_map (a ← syms; b ← syms; [((a, b), if String.eqb a b then same else diff)]).

(** A similarity mapping that is not symmetric. *)
Definition skewed_scores : gmap (string * string) Z :=
  <[("a", "b") := 1]> (<[("b", "a") := -5]> ∅).

(** A scorer in which every gap and every pairing costs 1. *)
Definition costly_scorer : Z → Z → Z :=
  λ i j, if (i =? 0) && (j =? 0) then 0 else -1.

(** An input on which the penalty is outweighed: the symbol [x] of A is
    restricted against the first symbol of B, and every alternative to the
    gap after that symbol costs more than 1000000.  Every score and every
    intermediate sum is an integer below 2^24 in magnitude, hence exact in
    binary32.  [resA = [0; -1]]. *)
Definition heavy_resA : Z → Z := λ k, if k =? 1 then -1 else 0.

(** [resB = [1; 0]] *)
Definition heavy_resB : Z → Z := λ k, if k =? 0 then 1 else 0.

(** The scorer that the driver builds from the weights [-1; -5000000] of
    A, [-5000000; -1] of B and [heavy_scores]. *)
Definition heavy_scorer : Z → Z → Z :=
  λ i j,
    if (i =? 0) && (j =? 0) then 0
    else if i =? 0 then (if j =? 2 then -5000000 else -1)
    else if j =? 0 then (if i =? 1 then -5000000 else -1)
    else if (i =? 1) && (j =? 1) then 1
    else -3000000.

(** Similarity 1 for [(a, a)] and -3000000 for every other pair. *)
Definition heavy_scores : gmap (string * string) Z :=
  <[("a", "a") := 1]> (uniform_scores ["a"; "b"; "x"] (-3000000) (-3000000)).

(** ** The assembled alignment *)

(** What the retrieval makes of the symbol [x] whose gap count is [a]: the
    symbol preceded by [a] gaps, or ["*"] in its place for a negative count. *)
Definition place (a : Z) (x : string) : list string :=
  if a <? 0 then ["*"] else replicate (Z.to_nat a) "-" ++ [x].

(** The sequence written out with its gap counts: [alm k] gaps before the
    symbol at index [k], and [alm (length seq)] gaps at the end. *)
Definition assemble (alm : Z → Z) (seq : list string) : list string :=
  concat (imap (λ k x, place (alm (Z.of_nat k)) x) seq)
  ++ replicate (Z.to_nat (alm (Z.of_nat (length seq)))) "-".

(** The sequence without its gap symbols. *)
Definition strip_gaps (out : list string) : list string :=
  filter (λ x, x ≠ "-") out.

(** A kernel whose every result, from any gap counts, was reached for a
    non-empty B by adding gaps only: the difference of the two lengths is
    made up for, and A receives at most [lB] gaps. *)
Definition counting_kernel {F : Type} (k : (Z → Z) → Z → (Z → Z) → Z →
    (Z → Z → F) → F → (Z → Z) → (Z → Z) → outcome (F * (Z → Z) * (Z → Z)))
    : Prop :=
  ∀ arrayA lA arrayB lB scorer scale almA almB sim almA' almB',
    k arrayA lA arrayB lB scorer scale almA almB = Ok (sim, almA', almB') →
    0 ≤ lA ∧ 1 ≤ lB ∧
    balanced lA lB lB lA almA almB almA' almB' ∧
    gap_total almA' (Z.to_nat lA) ≤ gap_total almA (Z.to_nat lA) + lB.

(** ** Arrays that hold the same values *)

(** Two pairs of stack arrays with the same content. *)
Definition dp_eq {F : Type} (st st' : dp F) : Prop :=
  (∀ i j, matrix st i j = matrix st' i j) ∧
  (∀ i j, traceback st i j = traceback st' i j).

(** The same for the state of the local kernel. *)
Definition local_eq {F : Type} (ls ls' : @local_state F) : Prop :=
  dp_eq (l_dp ls) (l_dp ls') ∧ max_score ls = max_score ls' ∧
  imax ls = imax ls' ∧ jmax ls = jmax ls'.

(** Two scorers with the same scores for matchings; row 0 and column 0,
    which hold the gap weights, may differ. *)
Definition same_matchings {F : Type} (scorer scorer' : Z → Z → F) : Prop :=
  ∀ i j, 1 ≤ i → 1 ≤ j → scorer i j = scorer' i j.

(** Two outcomes of the same kind whose results, if any, are related. *)
Definition outcome_rel {A B : Type} (R : A → B → Prop) (o : outcome A)
    (o' : outcome B) : Prop :=
  match o, o' with
  | Ok x, Ok y => R x y
  | Raised e, Raised e' => e = e'
  | Undefined, Undefined => True
  | OutOfFuel, OutOfFuel => True
  | _, _ => False
  end.

(** Two pairs of restriction arrays on which the two tests of the kernels
    come out the same in every cell. *)
Definition same_restrictions (arrayA arrayB arrayA' arrayB' : Z → Z)
    (lA lB : Z) : Prop :=
  ∀ i j, 1 ≤ i ≤ lB → 1 ≤ j ≤ lA →
    R_A arrayA lA arrayB i j = R_A arrayA' lA arrayB' i j ∧
    R_B arrayA arrayB lB i j = R_B arrayA' arrayB' lB i j.

(** ** Batches *)

(** The results of [f] on the elements of a list, in order, or the first
    outcome that is not a result. *)
Fixpoint outcome_mapM {A B : Type} (f : A → outcome B) (l : list A)
    : outcome (list B) :=
  match l with
  | [] => Ok []
  | x :: l' => y ← f x; ys ← outcome_mapM f l'; Ok (y :: ys)
  end.

(** The pairs [(i, j)] with [0 <= i < j < n], ordered by [i], then by [j]. *)
Definition index_pairs (n : Z) : list (Z * Z) :=
  i ← seqZ 0 n; (λ j, (i, j)) <$> seqZ (i + 1) (n - i - 1).

(** What the loops of [align_sequences_pairwise] do for the pair of indices
    [(i, j)] with [i < j]. *)
Definition pair_body {F : Type} `{FloatOps F} (seqs : list (list string))
    (weights : list (list F)) (restrictions : list (list Z))
    (prosodics : list string) (score_dict : gmap (string * string) F)
    (scale sonority_factor : F) (mode : string) (i j : Z)
    : outcome (list string * list string * F) :=
  seqA ← py_get seqs i;
  seqB ← py_get seqs j;
  wghA ← py_get weights i;
  wghB ← py_get weights j;
  resA ← py_get restrictions i;
  resB ← py_get restrictions j;
  prsA ← py_get prosodics i;
  prsB ← py_get prosodics j;
  align_pair key_BA (select_kernel mode) seqA seqB wghA wghB resA resB
    prsA prsB score_dict scale sonority_factor.

(** ** The scorer *)

(** Cell [(k, l)] of the scorer holds the similarity of the symbols
    [seqA[l-1]] and [seqB[k-1]], multiplied by [1 + sonority_factor] when
    the prosodic characters at the two positions are the same. *)
Definition matching_score {F : Type} `{FloatOps F}
    (key : string → string → string * string) (seqA seqB : list string)
    (prsA prsB : string) (score_dict : gmap (string * string) F)
    (sonority_factor : F) (scorer : Z → Z → F) (k l : Z) : Prop :=
  ∃ a b s ca cb,
    seqA !! Z.to_nat (l - 1) = Some a ∧ seqB !! Z.to_nat (k - 1) = Some b ∧
    score_dict !! key a b = Some s ∧
    str_get prsA (l - 1) = Ok ca ∧ str_get prsB (k - 1) = Ok cb ∧
    scorer k l = if Ascii.eqb ca cb
                 then fmul s (fadd (f_of_Z 1) sonority_factor) else s.

(** ** The permutation driver without its dictionary of aligned pairs *)

(** The body of the loop over [i] when every alignment is carried out,
    whether or not it was carried out before. *)
Definition random_round_uncached {F : Type} `{FloatOps F}
    (align : option kernel) (seqs : list (list string * list string))
    (weights : list (list F * list F)) (restrictions : list (list Z * list Z))
    (prosodics : list (string * string))
    (score_dict : gmap (string * string) F) (scale sonority_factor : F)
    (mode : string) (v : list Z) (i : Z) (corrs : gmap (string * string) nat)
    : outcome (gmap (string * string) nat) :=
  vi ← vec_get v i;
  '(outA, outB) ←
    cross_pair align seqs weights restrictions prosodics score_dict
      scale sonority_factor vi i;
  if negb (String.eqb mode "local") then count_columns outA outB corrs
  else count_columns (drop_stars outA) (drop_stars outB) corrs.

Definition random_align_uncached {F : Type} `{FloatOps F} {G : Type}
    (random_shuffle : G → list Z → G * list Z)
    (seqs : list (list string * list string))
    (weights : list (list F * list F)) (restrictions : list (list Z * list Z))
    (prosodics : list (string * string))
    (score_dict : gmap (string * string) F) (scale sonority_factor : F)
    (mode : string) (runs : Z) (rng : G)
    : outcome (gmap (string * string) nat) :=
  let lS := Z.of_nat (length seqs) in
  let align := select_kernel mode in
  let v := seqZ 0 lS in
  '(_, _, corrs) ←
    for_eachM (seqZ 0 runs) (λ m '(rng, v, corrs),
      let '(rng, v) := random_shuffle rng v in
      corrs ← for_eachM (seqZ 0 lS) (λ i corrs,
                random_round_uncached align seqs weights restrictions
                  prosodics score_dict scale sonority_factor mode v i corrs)
                corrs;
      Ok (rng, v, corrs)) (rng, v, ∅);
  Ok corrs.

(** Every entry of the dictionary of aligned pairs is the alignment of its
    key. *)
Definition cache_ok {F : Type} `{FloatOps F}
    (align : option kernel) (seqs : list (list string * list string))
    (weights : list (list F * list F)) (restrictions : list (list Z * list Z))
    (prosodics : list (string * string))
    (score_dict : gmap (string * string) F) (scale sonority_factor : F)
    (alm_pairs : gmap (Z * Z) (list string * list string)) : Prop :=
  ∀ vi i outA outB,
    alm_pairs !! (vi, i) = Some (outA, outB) →
    cross_pair align seqs weights restrictions prosodics score_dict
      scale sonority_factor vi i = Ok (outA, outB).

(** The number of times [p] was counted into [corrs]. *)
Definition tally (corrs : gmap (string * string) nat) (p : string * string)
    : nat :=
  default 0%nat (corrs !! p).

(** The number of columns of [outA] over [outB] that show the pair [p]. *)
Definition columns_with (p : string * string) (outA outB : list string) : nat :=
  length (filter (λ q, q = p) (zip outA outB)).

(** A batch of pairs in which every A side can be aligned with every B
    side: the four lists have one entry for each pair, and each A side with
    each B side is valid input. *)
Definition valid_batch {F : Type} (seqs : list (list string * list string))
    (weights : list (list F * list F)) (restrictions : list (list Z * list Z))
    (prosodics : list (string * string))
    (score_dict : gmap (string * string) F) : Prop :=
  length weights = length seqs ∧ length restrictions = length seqs ∧
  length prosodics = length seqs ∧
  ∀ a b sA sB wA wB rA rB pA pB,
    seqs !! a = Some sA → seqs !! b = Some sB →
    weights !! a = Some wA → weights !! b = Some wB →
    restrictions !! a = Some rA → restrictions !! b = Some rB →
    prosodics !! a = Some pA → prosodics !! b = Some pB →
    valid_input key_AB sA.1 sB.2 wA.1 wB.2 rA.1 rB.2 pA.1 pB.2 score_dict.

(** ** A sequence against itself *)

(** The first row and the first column of the matrix hold no positive
    value. *)
Definition borders_nonpos (n : Z) (st : dp Z) : Prop :=
  matrix st 0 0 = 0 ∧
  (∀ j, 0 ≤ j ≤ n → matrix st 0 j ≤ 0) ∧
  (∀ i, 0 ≤ i ≤ n → matrix st i 0 ≤ 0).

(** Cell [(i,j)] holds at most [min i j] times the score [s] of a symbol
    with itself, and on the diagonal exactly that, reached by a match. *)
Definition diagonal_cell (s : Z) (i j : Z) (st : dp Z) : Prop :=
  matrix st i j ≤ Z.min i j * s ∧
  (i = j → matrix st i j = i * s ∧ traceback st i j = 1).

(** ** Tactics *)

(** Case analysis on the condition of the first [if] of the goal. *)
Ltac case_branch :=
  match goal with
  | |- context [if ?c then _ else _] => destruct c eqn:?
  end.

(** Validity of a concrete input, by evaluation. *)
Ltac valid_input_tac :=
  repeat split; try (simpl; lia); try reflexivity;
  repeat constructor; vm_compute; eexists; reflexivity.

(** One round of a kernel penalises restricted gaps: under the restriction
    the candidate is the penalised one, and each branch of the round stores
    its own traceback value. *)
Ltac penalises_tac :=
  split; intros HR; rewrite ?HR; cbv beta iota zeta;
  repeat case_branch; simpl; unfold upd2; rewrite ?Z.eqb_refl; simpl;
  intros; (done || lia).

(** Rewrites the reads of the second state into reads of the first. *)
Ltac same_reads Heq :=
  let Hm := fresh "Hm" in
  let Ht := fresh "Ht" in
  pose proof Heq as [Hm Ht]; rewrite <- ?Hm, <- ?Ht.

(** * Properties *)

(** ** Arrays and loops *)

Lemma upd_eq {T : Type} (a : Z → T) (k : Z) (v : T) : upd a k v k = v.
Proof. unfold upd. by rewrite Z.eqb_refl. Qed.

Lemma upd_ne {T : Type} (a : Z → T) (k k' : Z) (v : T) :
  k' ≠ k → upd a k v k' = a k'.
Proof. intros Hne. unfold upd. by destruct (Z.eqb_spec k' k). Qed.

Lemma upd2_eq {T : Type} (m : Z → Z → T) (i j : Z) (v : T) : upd2 m i j v i j = v.
Proof. unfold upd2. by rewrite !Z.eqb_refl. Qed.

Lemma upd2_ne {T : Type} (m : Z → Z → T) (i j i' j' : Z) (v : T) :
  i' ≠ i ∨ j' ≠ j → upd2 m i j v i' j' = m i' j'.
Proof.
  intros Hne. unfold upd2.
  destruct (Z.eqb_spec i' i), (Z.eqb_spec j' j); simpl; try done.
  destruct Hne; contradiction.
Qed.

Lemma for_range_nonpos {St : Type} (lo n : Z) (body : Z → St → St) (st : St) :
  n ≤ 0 → for_range lo n body st = st.
Proof.
  intros Hn. unfold for_range, seqZ.
  by replace (Z.to_nat n) with O by lia.
Qed.

Lemma for_range_S {St : Type} (lo : Z) (n : nat) (body : Z → St → St) (st : St) :
  for_range lo (Z.of_nat (S n)) body st
  = body (lo + Z.of_nat n) (for_range lo (Z.of_nat n) body st).
Proof. unfold for_range. by rewrite seqZ_S, foldl_app. Qed.

(** A loop invariant indexed by the next value of the loop counter. *)
Lemma for_range_ind {St : Type} (P : Z → St → Prop) (lo n : Z)
    (body : Z → St → St) (st : St) :
  0 ≤ n →
  P lo st →
  (∀ k s, lo ≤ k < lo + n → P k s → P (k + 1) (body k s)) →
  P (lo + n) (for_range lo n body st).
Proof.
  intros Hn Hst Hstep.
  rewrite <- (Z2Nat.id n) in * by done.
  induction (Z.to_nat n) as [|m IH].
  - rewrite for_range_nonpos by done. by rewrite Z.add_0_r.
  - rewrite for_range_S.
    replace (lo + Z.of_nat (S m)) with (lo + Z.of_nat m + 1) by lia.
    apply Hstep; [lia|]. apply IH; [lia|].
    intros k s Hk. apply Hstep. lia.
Qed.

(** A property that every round of a loop keeps. *)
Lemma for_range_keep {St : Type} (P : St → Prop) (lo n : Z)
    (body : Z → St → St) (st : St) :
  P st →
  (∀ k s, lo ≤ k < lo + n → P s → P (body k s)) →
  P (for_range lo n body st).
Proof.
  intros Hst Hstep.
  destruct (Z_le_gt_dec n 0) as [Hn|Hn].
  - by rewrite for_range_nonpos.
  - apply (for_range_ind (λ _, P)); [lia|done|done].
Qed.

(** *** The row-major fill

    [Q i j] is a property of cell [(i,j)] that the round of [(i,j)]
    establishes and that no later round destroys; [Inv] is a property of the
    whole state that every round keeps. *)

Section FillCells.
Context {St : Type}.
Variables (lA lB : Z) (cell : Z → Z → St → St).
Variables (Inv : St → Prop) (Q : Z → Z → St → Prop).

Hypothesis Inv_cell : ∀ i j st,
  1 ≤ i ≤ lB → 1 ≤ j ≤ lA → Inv st → Inv (cell i j st).
Hypothesis Q_cell : ∀ i j st,
  1 ≤ i ≤ lB → 1 ≤ j ≤ lA → Inv st →
  (∀ i' j', 1 ≤ i' ≤ lB → 1 ≤ j' ≤ lA → earlier i' j' i j → Q i' j' st) →
  Q i j (cell i j st).
Hypothesis Q_later : ∀ i j i' j' st,
  1 ≤ i ≤ lB → 1 ≤ j ≤ lA → 1 ≤ i' ≤ lB → 1 ≤ j' ≤ lA →
  earlier i' j' i j → Inv st → Q i' j' st → Q i' j' (cell i j st).

Lemma fill_row (i : Z) (st : St) :
  1 ≤ i ≤ lB → filled lA lB Inv Q (i - 1) lA st →
  filled lA lB Inv Q i lA (for_range 1 lA (λ j, cell i j) st).
Proof.
  intros Hi Hst.
  destruct (Z_le_gt_dec lA 0) as [HlA|HlA].
  { rewrite for_range_nonpos by done. destruct Hst as [Hinv Hq].
    split; [done|]. intros i' j' Hi' Hj' _. lia. }
  assert (filled lA lB Inv Q i (1 + lA - 1) (for_range 1 lA (λ j, cell i j) st))
    as Hf; [|by replace (1 + lA - 1) with lA in Hf by lia].
  apply (for_range_ind (λ k s, filled lA lB Inv Q i (k - 1) s)); [lia| |].
  - destruct Hst as [Hinv Hq]. split; [done|].
    intros i' j' Hi' Hj' He. apply Hq; [done..|].
    unfold earlier in *. lia.
  - intros k s Hk [Hinv Hq]. split.
    + apply Inv_cell; [done|lia|done].
    + intros i' j' Hi' Hj' He.
      destruct (decide (i' = i ∧ j' = k)) as [[-> ->]|Hne].
      * apply Q_cell; [done|lia|done|].
        intros i2 j2 Hi2 Hj2 He2. apply Hq; [done..|].
        unfold earlier in *. lia.
      * apply Q_later; [done|lia|done..| |done|].
        -- unfold earlier in *. lia.
        -- apply Hq; [done..|]. unfold earlier in *. lia.
Qed.

Lemma fill_cells_filled (st : St) :
  0 ≤ lB → Inv st → filled lA lB Inv Q lB lA (fill_cells lA lB cell st).
Proof.
  intros HlB Hinv. unfold fill_cells.
  assert (filled lA lB Inv Q (1 + lB - 1) lA
            (for_range 1 lB (λ i, for_range 1 lA (λ j, cell i j)) st))
    as Hf; [|by replace (1 + lB - 1) with lB in Hf by lia].
  apply (for_range_ind (λ k s, filled lA lB Inv Q (k - 1) lA s)); [done| |].
  - split; [done|]. intros i' j' Hi' Hj' He. unfold earlier in He. lia.
  - intros k s Hk Hs.
    replace (k + 1 - 1) with k by lia. apply fill_row; [lia|done].
Qed.

Lemma fill_cells_Inv (st : St) : Inv st → Inv (fill_cells lA lB cell st).
Proof.
  intros Hinv. unfold fill_cells.
  apply for_range_keep; [done|]. intros i s Hi Hs.
  apply for_range_keep; [done|]. intros j s' Hj Hs'.
  apply Inv_cell; [lia..|done].
Qed.

Lemma fill_cells_Q (st : St) (i j : Z) :
  Inv st → 1 ≤ i ≤ lB → 1 ≤ j ≤ lA → Q i j (fill_cells lA lB cell st).
Proof.
  intros Hinv Hi Hj.
  destruct (fill_cells_filled st) as [_ Hq]; [lia|done|].
  apply Hq; [done..|]. unfold earlier. lia.
Qed.
End FillCells.

(** *** Kernels whose round writes cell [(i,j)] only

    [rule i j st] is what a round stores in cell [(i,j)], computed from the
    cells that precede it.  The filled arrays then satisfy [rule] at every
    cell, and keep their borders. *)

Section OneCellRounds.
Context {F St : Type}.
Variables (lA lB : Z) (get : St → dp F) (cell : Z → Z → St → St).
Variable rule : Z → Z → dp F → F * Z.

Hypothesis cell_frame : ∀ i j st i' j',
  i' ≠ i ∨ j' ≠ j →
  matrix (get (cell i j st)) i' j' = matrix (get st) i' j' ∧
  traceback (get (cell i j st)) i' j' = traceback (get st) i' j'.
Hypothesis cell_at : ∀ i j st,
  (matrix (get (cell i j st)) i j, traceback (get (cell i j st)) i j)
  = rule i j (get st).
Hypothesis rule_before : ∀ i j st st',
  same_before i j st st' → rule i j st = rule i j st'.

Lemma cell_same_before (i j i' j' : Z) (st : St) :
  ¬ earlier i j i' j' → same_before i' j' (get (cell i j st)) (get st).
Proof.
  intros Hne i2 j2 He. apply cell_frame. unfold earlier in *. lia.
Qed.

Lemma fill_rule (st0 : St) (i j : Z) :
  1 ≤ i ≤ lB → 1 ≤ j ≤ lA →
  let st := get (fill_cells lA lB cell st0) in
  (matrix st i j, traceback st i j) = rule i j st.
Proof.
  intros Hi Hj. cbv zeta.
  apply (fill_cells_Q lA lB cell (λ _, True)
           (λ i j s, (matrix (get s) i j, traceback (get s) i j) = rule i j (get s)));
    try done.
  - intros i1 j1 st _ _ _ _.
    rewrite cell_at. symmetry. apply rule_before.
    apply cell_same_before. unfold earlier. lia.
  - intros i1 j1 i2 j2 st _ _ _ _ He _ Hq.
    destruct (cell_frame i1 j1 st i2 j2) as [-> ->].
    { unfold earlier in He. lia. }
    rewrite Hq. symmetry. apply rule_before.
    apply cell_same_before. unfold earlier in *. lia.
Qed.

Lemma fill_border (st0 : St) (i j : Z) :
  i < 1 ∨ j < 1 →
  matrix (get (fill_cells lA lB cell st0)) i j = matrix (get st0) i j ∧
  traceback (get (fill_cells lA lB cell st0)) i j = traceback (get st0) i j.
Proof.
  intros Hij.
  apply (fill_cells_Inv lA lB cell
           (λ s, matrix (get s) i j = matrix (get st0) i j ∧
                 traceback (get s) i j = traceback (get st0) i j)); [|done].
  intros i1 j1 st Hi1 Hj1 [<- <-]. apply cell_frame. lia.
Qed.
End OneCellRounds.

(** ** The global kernel *)

Section GlobalKernel.
Context {F : Type} `{FloatOps F}.
Variables (arrayA : Z → Z) (lA : Z) (arrayB : Z → Z) (lB : Z).
Variables (scorer : Z → Z → F) (scale : F).

Lemma set_cell_frame (st : dp F) (i j i' j' : Z) (v : F) (t : Z) :
  i' ≠ i ∨ j' ≠ j →
  matrix (set_cell st i j v t) i' j' = matrix st i' j' ∧
  traceback (set_cell st i j v t) i' j' = traceback st i' j'.
Proof. intros Hne. simpl. by rewrite !upd2_ne. Qed.

Lemma set_cell_at (st : dp F) (i j : Z) (v : F) (t : Z) :
  (matrix (set_cell st i j v t) i j, traceback (set_cell st i j v t) i j) = (v, t).
Proof. simpl. by rewrite !upd2_eq. Qed.

Lemma global_cell_frame (i j : Z) (st : dp F) (i' j' : Z) :
  i' ≠ i ∨ j' ≠ j →
  matrix (global_cell arrayA lA arrayB lB scorer scale i j st) i' j' = matrix st i' j' ∧
  traceback (global_cell arrayA lA arrayB lB scorer scale i j st) i' j'
  = traceback st i' j'.
Proof.
  intros Hne. unfold global_cell. repeat case_branch; by apply set_cell_frame.
Qed.

Lemma global_cell_at (i j : Z) (st : dp F) :
  let st' := global_cell arrayA lA arrayB lB scorer scale i j st in
  (matrix st' i j, traceback st' i j)
  = global_recurrence arrayA lA arrayB lB scorer scale st i j.
Proof.
  cbv zeta. unfold global_cell, global_recurrence, spec_argmax.
  fold (spec_gapA arrayA lA arrayB scorer scale st i j).
  fold (spec_gapB arrayA arrayB lB scorer scale st i j).
  fold (spec_match scorer st i j).
  repeat case_branch; apply set_cell_at.
Qed.

Lemma spec_gapA_before (i j : Z) (st st' : dp F) :
  same_before i j st st' →
  spec_gapA arrayA lA arrayB scorer scale st i j
  = spec_gapA arrayA lA arrayB scorer scale st' i j.
Proof.
  intros Hb. unfold spec_gapA.
  destruct (Hb (i - 1) j) as [-> ->]; [unfold earlier; lia|done].
Qed.

Lemma spec_gapB_before (i j : Z) (st st' : dp F) :
  same_before i j st st' →
  spec_gapB arrayA arrayB lB scorer scale st i j
  = spec_gapB arrayA arrayB lB scorer scale st' i j.
Proof.
  intros Hb. unfold spec_gapB.
  destruct (Hb i (j - 1)) as [-> ->]; [unfold earlier; lia|done].
Qed.

Lemma spec_match_before (i j : Z) (st st' : dp F) :
  same_before i j st st' → spec_match scorer st i j = spec_match scorer st' i j.
Proof.
  intros Hb. unfold spec_match.
  destruct (Hb (i - 1) (j - 1)) as [-> _]; [unfold earlier; lia|done].
Qed.

Lemma global_recurrence_before (i j : Z) (st st' : dp F) :
  same_before i j st st' →
  global_recurrence arrayA lA arrayB lB scorer scale st i j
  = global_recurrence arrayA lA arrayB lB scorer scale st' i j.
Proof.
  intros Hb. unfold global_recurrence.
  by rewrite (spec_gapA_before i j st st'), (spec_gapB_before i j st st'),
    (spec_match_before i j st st').
Qed.

(** C5.  In the global kernel every cell [(i,j)] with [1 <= i <= lB] and
    [1 <= j <= lA] of the filled arrays holds the value and the traceback
    given by the recurrence: gapA is [matrix[i-1][j] - 1000000] under
    [R_A], else [matrix[i-1][j] + S[i][0]*scale] when
    [traceback[i-1][j] == 3], else [matrix[i-1][j] + S[i][0]]; gapB is
    symmetric; match is [matrix[i-1][j-1] + S[i][j]]; the cell is gapA with
    traceback 3 iff gapA > match and gapA >= gapB, else match with 1 iff
    match >= gapB, else gapB with 2. *)
Theorem global_fill_recurrence (i j : Z) :
  1 ≤ i ≤ lB → 1 ≤ j ≤ lA →
  let st := global_fill arrayA lA arrayB lB scorer scale in
  (matrix st i j, traceback st i j)
  = global_recurrence arrayA lA arrayB lB scorer scale st i j.
Proof.
  intros Hi Hj.
  apply (fill_rule lA lB (λ st, st)
           (global_cell arrayA lA arrayB lB scorer scale)
           (λ i j st, global_recurrence arrayA lA arrayB lB scorer scale st i j));
    try done.
  - intros. by apply global_cell_frame.
  - intros. apply global_cell_at.
  - intros. by apply global_recurrence_before.
Qed.
End GlobalKernel.

Lemma global_fill_recurrence_witness :
  (1 ≤ 2 ≤ 2 ∧ 1 ≤ 1 ≤ 2) ∧
  let st := global_fill (λ _, 0) 2 (λ _, 0) 2 demo_scorer 1 in
  (matrix st 2 1, traceback st 2 1)
  = global_recurrence (λ _, 0) 2 (λ _, 0) 2 demo_scorer 1 st 2 1.
Proof.
  split; [lia|].
  apply (global_fill_recurrence (λ _, 0) 2 (λ _, 0) 2 demo_scorer 1 2 1); lia.
Defined.

(** ** The overlap kernel *)

Section OverlapKernel.
Context {F : Type} `{FloatOps F}.
Variables (arrayA : Z → Z) (lA : Z) (arrayB : Z → Z) (lB : Z).
Variables (scorer : Z → Z → F) (scale : F).

Lemma overlap_gapA_spec (i j : Z) (st : dp F) :
  overlap_gapA arrayA lA arrayB scorer scale i j st
  = spec_overlap_gapA arrayA lA arrayB scorer scale st i j.
Proof.
  unfold overlap_gapA, spec_overlap_gapA, spec_gapA, R_A.
  destruct (Z.eqb_spec j lA); [|done].
  by rewrite andb_false_r.
Qed.

Lemma overlap_gapB_spec (i j : Z) (st : dp F) :
  overlap_gapB arrayA arrayB lB scorer scale i j st
  = spec_overlap_gapB arrayA arrayB lB scorer scale st i j.
Proof.
  unfold overlap_gapB, spec_overlap_gapB, spec_gapB, R_B.
  destruct (Z.eqb_spec i lB); [|done].
  by rewrite andb_false_r.
Qed.

Lemma overlap_cell_frame (i j : Z) (st : dp F) (i' j' : Z) :
  i' ≠ i ∨ j' ≠ j →
  matrix (overlap_cell arrayA lA arrayB lB scorer scale i j st) i' j' = matrix st i' j' ∧
  traceback (overlap_cell arrayA lA arrayB lB scorer scale i j st) i' j'
  = traceback st i' j'.
Proof.
  intros Hne. unfold overlap_cell. repeat case_branch; by apply set_cell_frame.
Qed.

Lemma overlap_cell_at (i j : Z) (st : dp F) :
  let st' := overlap_cell arrayA lA arrayB lB scorer scale i j st in
  (matrix st' i j, traceback st' i j)
  = overlap_recurrence arrayA lA arrayB lB scorer scale st i j.
Proof.
  cbv zeta. unfold overlap_cell, overlap_recurrence, spec_argmax.
  rewrite overlap_gapA_spec, overlap_gapB_spec.
  fold (spec_match scorer st i j).
  repeat case_branch; apply set_cell_at.
Qed.

Lemma overlap_recurrence_before (i j : Z) (st st' : dp F) :
  same_before i j st st' →
  overlap_recurrence arrayA lA arrayB lB scorer scale st i j
  = overlap_recurrence arrayA lA arrayB lB scorer scale st' i j.
Proof.
  intros Hb. unfold overlap_recurrence, spec_overlap_gapA, spec_overlap_gapB.
  rewrite (spec_gapA_before arrayA lA arrayB scorer scale i j st st') by done.
  rewrite (spec_gapB_before arrayA arrayB lB scorer scale i j st st') by done.
  rewrite (spec_match_before scorer i j st st') by done.
  destruct (Hb (i - 1) j) as [-> _]; [unfold earlier; lia|].
  destruct (Hb i (j - 1)) as [-> _]; [unfold earlier; lia|].
  done.
Qed.

Lemma overlap_fill_rule (i j : Z) :
  1 ≤ i ≤ lB → 1 ≤ j ≤ lA →
  let st := overlap_fill arrayA lA arrayB lB scorer scale in
  (matrix st i j, traceback st i j)
  = overlap_recurrence arrayA lA arrayB lB scorer scale st i j.
Proof.
  intros Hi Hj.
  apply (fill_rule lA lB (λ st, st)
           (overlap_cell arrayA lA arrayB lB scorer scale)
           (λ i j st, overlap_recurrence arrayA lA arrayB lB scorer scale st i j));
    try done.
  - intros. by apply overlap_cell_frame.
  - intros. apply overlap_cell_at.
  - intros. by apply overlap_recurrence_before.
Qed.

(** C6.  In the overlap kernel, for a cell of the last column ([j = lA])
    the gapA candidate is [matrix[i-1][j]] itself, and for a cell of the
    last row ([i = lB]) the gapB candidate is [matrix[i][j-1]] itself: no
    gap weight, no extension scaling and no restriction penalty; the cell
    stores the choice among these candidates and the match. *)
Theorem overlap_trailing_gaps_free (i j : Z) :
  1 ≤ i ≤ lB → 1 ≤ j ≤ lA →
  let st := overlap_fill arrayA lA arrayB lB scorer scale in
  let gapA := overlap_gapA arrayA lA arrayB scorer scale i j st in
  let gapB := overlap_gapB arrayA arrayB lB scorer scale i j st in
  (j = lA → gapA = matrix st (i - 1) j) ∧
  (i = lB → gapB = matrix st i (j - 1)) ∧
  (matrix st i j, traceback st i j)
  = spec_argmax gapA (fadd (matrix st (i - 1) (j - 1)) (scorer i j)) gapB.
Proof.
  intros Hi Hj. cbv zeta. split; [|split].
  - intros ->. unfold overlap_gapA, R_A.
    by rewrite Z.eqb_refl, andb_false_r.
  - intros ->. unfold overlap_gapB, R_B.
    by rewrite Z.eqb_refl, andb_false_r.
  - rewrite overlap_gapA_spec, overlap_gapB_spec.
    by apply overlap_fill_rule.
Qed.
End OverlapKernel.

Lemma overlap_trailing_gaps_free_witness :
  (1 ≤ 2 ≤ 2 ∧ 1 ≤ 2 ≤ 2) ∧
  let st := overlap_fill (λ _, -1) 2 (λ _, 1) 2 demo_scorer 1 in
  let gapA := overlap_gapA (λ _, -1) 2 (λ _, 1) demo_scorer 1 2 2 st in
  let gapB := overlap_gapB (λ _, -1) (λ _, 1) 2 demo_scorer 1 2 2 st in
  (2 = 2 → gapA = matrix st (2 - 1) 2) ∧
  (2 = 2 → gapB = matrix st 2 (2 - 1)) ∧
  (matrix st 2 2, traceback st 2 2)
  = spec_argmax gapA (fadd (matrix st (2 - 1) (2 - 1)) (demo_scorer 2 2)) gapB.
Proof.
  split; [lia|].
  apply (overlap_trailing_gaps_free (λ _, -1) 2 (λ _, 1) 2 demo_scorer 1 2 2); lia.
Defined.

(** ** The local kernel *)

Section LocalKernel.
Context {F : Type} `{FloatOrder F}.
Variables (arrayA : Z → Z) (lA : Z) (arrayB : Z → Z) (lB : Z).
Variables (scorer : Z → Z → F) (scale : F).

Lemma R_A_last_column (i : Z) : R_A arrayA lA arrayB i lA = false.
Proof. unfold R_A. by rewrite Z.eqb_refl, andb_false_r. Qed.

Lemma R_B_last_row (j : Z) : R_B arrayA arrayB lB lB j = false.
Proof. unfold R_B. by rewrite Z.eqb_refl, andb_false_r. Qed.

Lemma local_cell_tracked (i j : Z) (ls : local_state) :
  1 ≤ i ≤ lB → 1 ≤ j ≤ lA → max_tracked lA lB ls →
  max_tracked lA lB (local_cell arrayA lA arrayB lB scorer scale i j ls).
Proof.
  intros Hi Hj Hls. unfold local_cell.
  repeat case_branch; simpl; try (right; by exists i, j); exact Hls.
Qed.

Lemma local_choice_nonneg (st : dp F) (i j : Z) (gapA gapB match_ : F) :
  let null := f_of_Z 0 in
  let st' :=
    if fge gapA match_ && fge gapA gapB && fge gapA null then set_cell st i j gapA 3
    else if fge match_ gapB && fge match_ null then set_cell st i j match_ 1
    else if fgt gapB null then set_cell st i j gapB 2
    else set_cell st i j null 0 in
  fge (matrix st' i j) (f_of_Z 0) = true.
Proof.
  cbv zeta. repeat case_branch; simpl; rewrite upd2_eq.
  - by repeat (apply andb_prop in Heqb as [Heqb ?]).
  - by apply andb_prop in Heqb0 as [_ ?].
  - by apply fgt_fge.
  - apply fge_zero_refl.
Qed.

Lemma local_cell_last (ls : local_state) :
  1 ≤ lB → 1 ≤ lA → max_tracked lA lB ls →
  let ls' := local_cell arrayA lA arrayB lB scorer scale lB lA ls in
  fge (matrix (l_dp ls') lB lA) (f_of_Z 0) = true ∧ max_assigned lA lB ls'.
Proof.
  intros HlB HlA Hls. cbv zeta. unfold local_cell.
  rewrite R_A_last_column, R_B_last_row.
  destruct (traceback (l_dp ls) (lB - 1) lA =? 3),
    (traceback (l_dp ls) lB (lA - 1) =? 2); cbv beta iota zeta;
  match goal with
  | |- context [LocalState ?s _ (Some _) (Some _)] =>
    assert (fge (matrix s lB lA) (f_of_Z 0) = true) as Hge
      by apply local_choice_nonneg;
    generalize dependent s; intros st' Hge
  end;
  (case_branch; simpl;
   [ split; [done|]; by exists lB, lA
   | split; [done|];
     destruct Hls as [(_ & _ & Hmax)|Hls]; [|done];
     rewrite Hmax in *; congruence ]).
Qed.

(** The last round of the fill stores a value [>= 0] and leaves the running
    maximum assigned. *)
Lemma local_fill_last :
  1 ≤ lA → 1 ≤ lB →
  let ls := local_fill arrayA lA arrayB lB scorer scale in
  fge (matrix (l_dp ls) lB lA) (f_of_Z 0) = true ∧ max_assigned lA lB ls.
Proof.
  intros HlA HlB. cbv zeta. unfold local_fill.
  apply (fill_cells_Q lA lB (local_cell arrayA lA arrayB lB scorer scale)
           (max_tracked lA lB)
           (λ i j ls, i = lB ∧ j = lA →
              fge (matrix (l_dp ls) lB lA) (f_of_Z 0) = true ∧ max_assigned lA lB ls)
           ) with (i := lB) (j := lA); try done; try lia.
  - intros. by apply local_cell_tracked.
  - intros i j ls Hi Hj Hls _ [-> ->]. by apply local_cell_last.
  - intros i j i' j' ls Hi Hj Hi' Hj' He _ _ [-> ->].
    unfold earlier in He. lia.
  - left. done.
Qed.

(** C10.  In the local kernel, for [lA, lB >= 1], cell [(lB, lA)] is
    assigned a value [>= 0] (both restriction tests are false there and the
    null candidate stays 0), so the position [(imax, jmax)] of the running
    maximum has been assigned, inside the matrix, when the fill ends and the
    traceback starts. *)
Theorem local_maximum_assigned :
  1 ≤ lA → 1 ≤ lB →
  let ls := local_fill arrayA lA arrayB lB scorer scale in
  fge (matrix (l_dp ls) lB lA) (f_of_Z 0) = true ∧
  ∃ i j, imax ls = Some i ∧ jmax ls = Some j ∧ 1 ≤ i ≤ lB ∧ 1 ≤ j ≤ lA.
Proof.
  intros HlA HlB. cbv zeta.
  destruct (local_fill_last HlA HlB) as [Hge (i & j & Hi & Hj & Hri & Hrj)].
  split; [exact Hge|].
  exists i, j. repeat split; (done || lia).
Qed.
End LocalKernel.

(** ** Gap counts and the traceback walk *)

Lemma gap_total_upd_outside (alm : Z → Z) (n : nat) (k v : Z) :
  k < 0 ∨ Z.of_nat n < k → gap_total (upd alm k v) n = gap_total alm n.
Proof.
  induction n as [|n IH]; intros Hk; simpl.
  - rewrite upd_ne; [done|lia].
  - rewrite IH by lia. rewrite upd_ne; [done|lia].
Qed.

Lemma gap_total_upd (alm : Z → Z) (n : nat) (k v : Z) :
  0 ≤ k ≤ Z.of_nat n → gap_total (upd alm k v) n = gap_total alm n - alm k + v.
Proof.
  induction n as [|n IH]; intros Hk; simpl.
  - replace k with 0 by lia. rewrite upd_eq. lia.
  - destruct (decide (k = Z.of_nat (S n))) as [->|Hne].
    + rewrite gap_total_upd_outside by lia. rewrite upd_eq. lia.
    + rewrite IH by lia. rewrite upd_ne by lia. lia.
Qed.

Lemma gap_total_zero (n : nat) : gap_total (λ _, 0) n = 0.
Proof. induction n as [|n IH]; simpl; lia. Qed.

Lemma balanced_refl (lA lB : Z) (almA almB : Z → Z) :
  balanced lA lB 0 0 almA almB almA almB.
Proof. repeat split; intros; lia. Qed.

Lemma upd_incr_le (alm : Z → Z) (p k : Z) : alm k ≤ upd alm p (alm p + 1) k.
Proof.
  destruct (decide (k = p)) as [->|Hne].
  - rewrite upd_eq. lia.
  - by rewrite upd_ne.
Qed.

Lemma balanced_gapA (lA lB i j : Z) (almA almB almA' almB' : Z → Z) :
  0 ≤ j ≤ lA →
  balanced lA lB (i - 1) j (upd almA j (almA j + 1)) almB almA' almB' →
  balanced lA lB i j almA almB almA' almB'.
Proof.
  intros Hj (HA & HB & Hsum). repeat split; [|done|].
  - intros k. etrans; [apply (upd_incr_le almA j k)|apply HA].
  - rewrite Hsum, gap_total_upd by lia. lia.
Qed.

Lemma balanced_gapB (lA lB i j : Z) (almA almB almA' almB' : Z → Z) :
  0 ≤ i ≤ lB →
  balanced lA lB i (j - 1) almA (upd almB i (almB i + 1)) almA' almB' →
  balanced lA lB i j almA almB almA' almB'.
Proof.
  intros Hi (HA & HB & Hsum). repeat split; [done| |].
  - intros k. etrans; [apply (upd_incr_le almB i k)|apply HB].
  - rewrite Hsum, gap_total_upd by lia. lia.
Qed.

Lemma balanced_match (lA lB i j : Z) (almA almB almA' almB' : Z → Z) :
  balanced lA lB (i - 1) (j - 1) almA almB almA' almB' →
  balanced lA lB i j almA almB almA' almB'.
Proof. intros (HA & HB & Hsum). repeat split; [done..|]. lia. Qed.

Lemma traceback_walk_balanced (lA lB : Z) (tb : Z → Z → Z) (fuel : nat) :
  borders lA lB tb →
  ∀ i j almA almB,
    0 ≤ i ≤ lB → 0 ≤ j ≤ lA → (Z.to_nat (i + j) ≤ fuel)%nat →
    ∃ almA' almB',
      traceback_walk fuel tb i j almA almB = Ok (almA', almB') ∧
      balanced lA lB i j almA almB almA' almB'.
Proof.
  intros [Hrow Hcol].
  induction fuel as [|fuel IH]; intros i j almA almB Hi Hj Hfuel.
  - assert (i = 0 ∧ j = 0) as [-> ->] by lia. simpl.
    eexists _, _. split; [done|]. apply balanced_refl.
  - simpl. destruct ((0 <? i) || (0 <? j)) eqn:Hgo.
    2:{ assert (i = 0 ∧ j = 0) as [-> ->] by lia.
        eexists _, _. split; [done|]. apply balanced_refl. }
    replace ((i <? 0) || (j <? 0)) with false by lia.
    destruct (Z.eqb_spec (tb i j) 3) as [H3|H3].
    { assert (1 ≤ i).
      { destruct (decide (i = 0)) as [->|]; [|lia]. rewrite Hrow in H3; lia. }
      destruct (IH (i - 1) j (upd almA j (almA j + 1)) almB)
        as (almA' & almB' & -> & Hbal); [lia..|].
      eexists _, _. split; [done|]. by apply balanced_gapA. }
    destruct (Z.eqb_spec (tb i j) 1) as [H1|H1].
    { assert (1 ≤ i).
      { destruct (decide (i = 0)) as [->|]; [|lia]. rewrite Hrow in H1; lia. }
      assert (1 ≤ j).
      { destruct (decide (j = 0)) as [->|]; [|lia]. rewrite Hcol in H3; lia. }
      destruct (IH (i - 1) (j - 1) almA almB)
        as (almA' & almB' & -> & Hbal); [lia..|].
      eexists _, _. split; [done|]. by apply balanced_match. }
    assert (1 ≤ j).
    { destruct (decide (j = 0)) as [->|]; [|lia]. rewrite Hcol in H3; lia. }
    destruct (IH i (j - 1) almA (upd almB i (almB i + 1)))
      as (almA' & almB' & -> & Hbal); [lia..|].
    eexists _, _. split; [done|]. by apply balanced_gapB.
Qed.

(** *** The walk of the repeats kernel *)

(** The scan started at a cell off the borders stops at the first cell it
    visits, [(i-1, j-1)], whatever that cell's traceback is. *)
Lemma repeats_scan_first (tb : Z → Z → Z) (i j : Z) (l : option Z) :
  1 ≤ i → 1 ≤ j → repeats_scan tb i j l = (j - 1, Some (i - 1)).
Proof.
  intros Hi Hj. unfold repeats_scan.
  destruct (Z.to_nat j) as [|n] eqn:Hn; [lia|]. simpl.
  replace (0 <=? j - 1) with true by lia.
  unfold repeats_scan_inner.
  by replace (0 <=? i - 1) with true by lia.
Qed.

Lemma add_gaps_one (p : Z) (alm : Z → Z) :
  add_gaps 1 p alm = upd alm p (alm p + 1).
Proof. reflexivity. Qed.

Lemma balanced_skip (lA lB i j : Z) (almA almB almA' almB' : Z → Z) :
  1 ≤ j ≤ lA → 0 ≤ i ≤ lB →
  balanced lA lB (i - 1) (j - 1)
    (upd almA (j - 1) (almA (j - 1) + 1)) (upd almB i (almB i + 1)) almA' almB' →
  balanced lA lB i j almA almB almA' almB'.
Proof.
  intros Hj Hi (HA & HB & Hsum). repeat split.
  - intros k. etrans; [apply (upd_incr_le almA (j - 1) k)|apply HA].
  - intros k. etrans; [apply (upd_incr_le almB i k)|apply HB].
  - rewrite Hsum, !gap_total_upd by lia. lia.
Qed.

Lemma repeats_walk_balanced {F : Type} `{FloatOps F} (lA lB : Z) (st : dp F)
    (fuel : nat) :
  borders lA lB (traceback st) →
  ∀ i j l sim almA almB,
    0 ≤ i ≤ lB → 0 ≤ j ≤ lA → (Z.to_nat (i + j) ≤ fuel)%nat →
    ∃ sim' almA' almB',
      repeats_walk fuel st i j l sim almA almB = Ok (sim', almA', almB') ∧
      balanced lA lB i j almA almB almA' almB'.
Proof.
  intros [Hrow Hcol].
  induction fuel as [|fuel IH]; intros i j l sim almA almB Hi Hj Hfuel.
  - assert (i = 0 ∧ j = 0) as [-> ->] by lia. simpl.
    eexists _, _, _. split; [done|]. apply balanced_refl.
  - simpl. destruct ((0 <? i) || (0 <? j)) eqn:Hgo.
    2:{ assert (i = 0 ∧ j = 0) as [-> ->] by lia.
        eexists _, _, _. split; [done|]. apply balanced_refl. }
    replace ((i <? 0) || (j <? 0)) with false by lia.
    destruct (Z.eqb_spec (traceback st i j) 3) as [H3|H3].
    { assert (1 ≤ i).
      { destruct (decide (i = 0)) as [->|]; [|lia]. rewrite Hrow in H3; lia. }
      destruct (IH (i - 1) j l sim (upd almA j (almA j + 1)) almB)
        as (sim' & almA' & almB' & -> & Hbal); [lia..|].
      eexists _, _, _. split; [done|]. by apply balanced_gapA. }
    assert (j = 0 → False) as Hj0.
    { intros ->. rewrite Hcol in H3; lia. }
    destruct (Z.eqb_spec (traceback st i j) 1) as [H1|H1].
    { assert (1 ≤ i).
      { destruct (decide (i = 0)) as [->|]; [|lia]. rewrite Hrow in H1; lia. }
      destruct (IH (i - 1) (j - 1) l sim almA almB)
        as (sim' & almA' & almB' & -> & Hbal); [lia..|].
      eexists _, _, _. split; [done|]. by apply balanced_match. }
    destruct (Z.eqb_spec (traceback st i j) 2) as [H2|H2].
    { destruct (IH i (j - 1) l sim almA (upd almB i (almB i + 1)))
        as (sim' & almA' & almB' & -> & Hbal); [lia..|].
      eexists _, _, _. split; [done|]. by apply balanced_gapB. }
    assert (1 ≤ i).
    { destruct (decide (i = 0)) as [->|]; [|lia]. rewrite Hrow in H2; lia. }
    rewrite repeats_scan_first by lia.
    replace ((j - 1 <? 0) || (i - 1 <? 0)) with false by lia.
    replace (j - (j - 1) + (i - (i - 1)) - (j - (j - 1))) with 1 by lia.
    replace (j - (j - 1) + (i - (i - 1)) - (i - (i - 1))) with 1 by lia.
    replace (j - (j - (j - 1))) with (j - 1) by lia.
    rewrite !add_gaps_one.
    destruct (IH (i - 1) (j - 1) (Some (i - 1))
                (fadd sim (matrix st (i - 1) (j - 1)))
                (upd almA (j - 1) (almA (j - 1) + 1)) (upd almB i (almB i + 1)))
      as (sim' & almA' & almB' & -> & Hbal); [lia..|].
    eexists _, _, _. split; [done|]. apply balanced_skip; [lia..|done].
Qed.

(** ** Borders of the filled traceback *)

Section Borders.
Context {F : Type} `{FloatOps F}.
Variables (arrayA : Z → Z) (lA : Z) (arrayB : Z → Z) (lB : Z).
Variables (scorer : Z → Z → F) (scale : F).

Lemma row_loop_traceback (v : Z → dp F → F) (t : Z) (st : dp F) (j : Z) :
  1 ≤ j ≤ lA →
  traceback (for_range 1 lA (λ i st, set_cell st 0 i (v i st) t) st) 0 j = t.
Proof.
  intros Hj.
  pose (P := λ (k : Z) (s : dp F), ∀ j, 1 ≤ j < k → traceback s 0 j = t).
  assert (P (1 + lA) (for_range 1 lA (λ i st, set_cell st 0 i (v i st) t) st)) as HP.
  { apply for_range_ind; [lia| |].
    - intros j' Hj'. lia.
    - intros k s Hk Hs j' Hj'. simpl.
      destruct (decide (j' = k)) as [->|Hne].
      + by rewrite upd2_eq.
      + rewrite upd2_ne by lia. apply Hs. lia. }
  apply HP. lia.
Qed.

Lemma column_loop_traceback (v : Z → dp F → F) (t : Z) (st : dp F) (i : Z) :
  1 ≤ i ≤ lB →
  traceback (for_range 1 lB (λ i st, set_cell st i 0 (v i st) t) st) i 0 = t.
Proof.
  intros Hi.
  pose (P := λ (k : Z) (s : dp F), ∀ i, 1 ≤ i < k → traceback s i 0 = t).
  assert (P (1 + lB) (for_range 1 lB (λ i st, set_cell st i 0 (v i st) t) st)) as HP.
  { apply for_range_ind; [lia| |].
    - intros i' Hi'. lia.
    - intros k s Hk Hs i' Hi'. simpl.
      destruct (decide (i' = k)) as [->|Hne].
      + by rewrite upd2_eq.
      + rewrite upd2_ne by lia. apply Hs. lia. }
  apply HP. lia.
Qed.

Lemma column_loop_frame (v : Z → dp F → F) (t : Z) (st : dp F) (i j : Z) :
  j ≠ 0 →
  traceback (for_range 1 lB (λ i st, set_cell st i 0 (v i st) t) st) i j
  = traceback st i j.
Proof.
  intros Hj.
  apply (for_range_keep (λ s, traceback s i j = traceback st i j)); [done|].
  intros k s Hk Hs. simpl. rewrite upd2_ne by lia. done.
Qed.

(** The three initialisation loops of a kernel leave 2 in the first row
    and 3 in the first column of [traceback]. *)
Lemma init_borders (v0 : F) (va vb : Z → dp F → F) :
  borders lA lB
    (traceback
       (for_range 1 lB (λ i st, set_cell st i 0 (vb i st) 3)
          (for_range 1 lA (λ i st, set_cell st 0 i (va i st) 2)
             (set_cell dp_fresh 0 0 v0 1)))).
Proof.
  split.
  - intros j Hj. rewrite column_loop_frame by lia.
    by apply row_loop_traceback.
  - intros i Hi. by apply column_loop_traceback.
Qed.

Lemma global_init_borders :
  borders lA lB (traceback (global_init lA lB scorer scale)).
Proof. apply init_borders. Qed.

Lemma overlap_init_borders : borders lA lB (traceback (overlap_init lA lB)).
Proof. apply (init_borders (f_of_Z 0) (λ _ _, f_of_Z 0) (λ _ _, f_of_Z 0)). Qed.

Lemma repeats_init_borders : borders lA lB (traceback (repeats_init lA lB)).
Proof. apply (init_borders (f_of_Z 0) (λ _ _, f_of_Z 0) (λ _ _, f_of_Z 0)). Qed.

Lemma dialign_init_borders : borders lA lB (traceback (dialign_init lA lB)).
Proof. apply (init_borders (f_of_Z 0) (λ _ _, f_of_Z 0) (λ _ _, f_of_Z 0)). Qed.

(** A fill whose rounds never write the first row or column keeps the
    borders. *)
Lemma fill_keeps_borders (cell : Z → Z → dp F → dp F) (st0 : dp F) :
  (∀ i j st i' j', 1 ≤ i → 1 ≤ j → i' < 1 ∨ j' < 1 →
     traceback (cell i j st) i' j' = traceback st i' j') →
  borders lA lB (traceback st0) →
  borders lA lB (traceback (fill_cells lA lB cell st0)).
Proof.
  intros Hcell.
  apply (fill_cells_Inv lA lB cell (λ s, borders lA lB (traceback s))).
  intros i j st Hi Hj [Hrow Hcol]. split.
  - intros j' Hj'. rewrite Hcell by lia. by apply Hrow.
  - intros i' Hi'. rewrite Hcell by lia. by apply Hcol.
Qed.

Lemma global_fill_borders :
  borders lA lB (traceback (global_fill arrayA lA arrayB lB scorer scale)).
Proof.
  apply fill_keeps_borders; [|apply global_init_borders].
  intros. apply global_cell_frame. lia.
Qed.

Lemma overlap_fill_borders :
  borders lA lB (traceback (overlap_fill arrayA lA arrayB lB scorer scale)).
Proof.
  apply fill_keeps_borders; [|apply overlap_init_borders].
  intros. apply overlap_cell_frame. lia.
Qed.

Lemma repeats_cell_frame (i j : Z) (st : dp F) (i' j' : Z) :
  i' ≠ i ∨ j' ≠ j →
  matrix (repeats_cell arrayA lA arrayB lB scorer scale i j st) i' j' = matrix st i' j' ∧
  traceback (repeats_cell arrayA lA arrayB lB scorer scale i j st) i' j'
  = traceback st i' j'.
Proof.
  intros Hne. unfold repeats_cell.
  repeat case_branch; by apply set_cell_frame.
Qed.

Lemma repeats_fill_borders :
  borders lA lB (traceback (repeats_fill arrayA lA arrayB lB scorer scale)).
Proof.
  apply fill_keeps_borders; [|apply repeats_init_borders].
  intros. apply repeats_cell_frame. lia.
Qed.

(** The best diagonal that ends in [(i,j)] is no longer than [min i j]. *)
Lemma best_diagonal_length (m : Z → Z → F) (i j : Z) :
  1 ≤ i → 1 ≤ j →
  1 ≤ (best_diagonal scorer m i j).2 ≤ Z.min i j.
Proof.
  intros Hi Hj. unfold best_diagonal.
  apply (for_range_keep (λ p : F * Z, 1 ≤ p.2 ≤ Z.min i j)); [simpl; lia|].
  intros k [old_score old_length] Hk Hp.
  case_branch; simpl in *; [|done].
  destruct (Z.ltb_spec i j); lia.
Qed.

Lemma mark_diagonal_frame (tb : Z → Z → Z) (i j len i' j' : Z) :
  (∀ k, 0 ≤ k < len → i' ≠ i - k ∨ j' ≠ j - k) →
  mark_diagonal tb i j len i' j' = tb i' j'.
Proof.
  intros Hne. unfold mark_diagonal.
  apply (for_range_keep (λ t : Z → Z → Z, t i' j' = tb i' j')); [done|].
  intros k t Hk Ht. rewrite upd2_ne; [done|]. apply Hne. lia.
Qed.

Lemma dialign_cell_border (i j : Z) (st : dp F) (i' j' : Z) :
  1 ≤ i → 1 ≤ j → i' < 1 ∨ j' < 1 →
  traceback (dialign_cell arrayA lA arrayB lB scorer i j st) i' j'
  = traceback st i' j'.
Proof.
  intros Hi Hj Hout. unfold dialign_cell.
  pose proof (best_diagonal_length (matrix st) i j Hi Hj) as Hlen.
  destruct (best_diagonal scorer (matrix st) i j) as [old_score old_length].
  simpl in Hlen.
  repeat case_branch; simpl;
    first [ rewrite upd2_ne; [done|lia]
          | apply mark_diagonal_frame; intros k Hk; lia ].
Qed.

Lemma dialign_fill_borders :
  borders lA lB (traceback (dialign_fill arrayA lA arrayB lB scorer)).
Proof.
  apply fill_keeps_borders; [|apply dialign_init_borders].
  intros. by apply dialign_cell_border.
Qed.
End Borders.

(** ** Kernels that only insert gaps *)

Section GappedKernels.
Context {F : Type} `{FloatOps F}.

Lemma bad_dims_false (lA lB : Z) : 0 ≤ lA → 1 ≤ lB → bad_dims lA lB = false.
Proof. intros. unfold bad_dims. lia. Qed.

Lemma global_gapped : gapped_kernel (F := F) _global.
Proof.
  intros arrayA lA arrayB lB scorer scale almA almB HlA HlB.
  unfold _global. rewrite bad_dims_false by done.
  destruct (traceback_walk_balanced lA lB
              (traceback (global_fill arrayA lA arrayB lB scorer scale))
              (walk_fuel lA lB) (global_fill_borders _ _ _ _ _ _)
              lB lA almA almB) as (almA' & almB' & Hw & Hbal);
    [lia|lia|unfold walk_fuel; lia|].
  cbv zeta. rewrite Hw. simpl. by eexists _, _, _.
Qed.

Lemma overlap_gapped : gapped_kernel (F := F) _overlap.
Proof.
  intros arrayA lA arrayB lB scorer scale almA almB HlA HlB.
  unfold _overlap. rewrite bad_dims_false by done.
  destruct (traceback_walk_balanced lA lB
              (traceback (overlap_fill arrayA lA arrayB lB scorer scale))
              (walk_fuel lA lB) (overlap_fill_borders _ _ _ _ _ _)
              lB lA almA almB) as (almA' & almB' & Hw & Hbal);
    [lia|lia|unfold walk_fuel; lia|].
  cbv zeta. rewrite Hw. simpl. by eexists _, _, _.
Qed.

Lemma dialign_gapped : gapped_kernel (F := F) _dialign.
Proof.
  intros arrayA lA arrayB lB scorer scale almA almB HlA HlB.
  unfold _dialign. rewrite bad_dims_false by done.
  destruct (traceback_walk_balanced lA lB
              (traceback (dialign_fill arrayA lA arrayB lB scorer))
              (walk_fuel lA lB) (dialign_fill_borders _ _ _ _ _)
              lB lA almA almB) as (almA' & almB' & Hw & Hbal);
    [lia|lia|unfold walk_fuel; lia|].
  cbv zeta. rewrite Hw. simpl. by eexists _, _, _.
Qed.

Lemma repeats_gapped : gapped_kernel (F := F) _repeats.
Proof.
  intros arrayA lA arrayB lB scorer scale almA almB HlA HlB.
  unfold _repeats. rewrite bad_dims_false by done. cbv zeta.
  apply repeats_walk_balanced;
    [apply repeats_fill_borders|lia|lia|unfold walk_fuel; lia].
Qed.
End GappedKernels.

(** ** Retrieval of the alignment *)

Lemma py_insert_length (k : nat) (x : string) (out : list string) :
  length (py_insert k x out) = S (length out).
Proof.
  unfold py_insert. rewrite length_app, length_take. simpl. rewrite length_drop. lia.
Qed.

Lemma insert_gaps_length (k : nat) (n : Z) (out : list string) :
  0 ≤ n →
  Z.of_nat (length (for_range 0 n (λ _ o, py_insert k "-" o) out))
  = Z.of_nat (length out) + n.
Proof.
  intros Hn.
  apply (for_range_ind
           (λ m o, Z.of_nat (length o) = Z.of_nat (length out) + m) 0 n);
    [done|lia|].
  intros m o Hm Ho. rewrite py_insert_length. lia.
Qed.

Lemma retrieve_length (alm : Z → Z) (n : nat) :
  (∀ k, 0 ≤ k ≤ Z.of_nat n → 0 ≤ alm k) →
  ∀ out, ∃ out',
    retrieve alm n out = Ok out' ∧
    Z.of_nat (length out') = Z.of_nat (length out) + gap_total alm n.
Proof.
  induction n as [|n IH]; intros Hpos out.
  - cbn [retrieve]. unfold retrieve_step. change (Z.of_nat 0) with 0 in *.
    destruct (Z.ltb_spec 0 (alm 0)) as [Hgt|Hle].
    + eexists. split; [done|]. rewrite insert_gaps_length by lia. simpl. lia.
    + replace (alm 0 <? 0) with false by (specialize (Hpos 0); lia).
      eexists. split; [done|]. simpl in *. specialize (Hpos 0). lia.
  - cbn [retrieve]. unfold retrieve_step.
    destruct (Z.ltb_spec 0 (alm (Z.of_nat (S n)))) as [Hgt|Hle].
    + cbn [mbind outcome_bind].
      destruct (IH (λ k Hk, Hpos k ltac:(lia))
                  (for_range 0 (alm (Z.of_nat (S n)))
                     (λ _ o, py_insert (S n) "-" o) out))
        as (out' & -> & Hlen).
      eexists. split; [done|]. rewrite Hlen, insert_gaps_length by lia.
      cbn [gap_total]. lia.
    + replace (alm (Z.of_nat (S n)) <? 0) with false
        by (specialize (Hpos (Z.of_nat (S n))); lia).
      cbn [mbind outcome_bind].
      destruct (IH (λ k Hk, Hpos k ltac:(lia)) out) as (out' & -> & Hlen).
      eexists. split; [done|]. rewrite Hlen. cbn [gap_total].
      specialize (Hpos (Z.of_nat (S n))). lia.
Qed.

(** ** The single-pair driver on valid input *)

Lemma for_eachM_ok {St : Type} (P : St → Prop) (ks : list Z)
    (body : Z → St → outcome St) (st : St) :
  P st →
  (∀ k s, k ∈ ks → P s → ∃ s', body k s = Ok s' ∧ P s') →
  ∃ s', for_eachM ks body st = Ok s' ∧ P s'.
Proof.
  revert st. induction ks as [|k ks IH]; intros st Hst Hbody; simpl.
  - by exists st.
  - destruct (Hbody k st) as (s' & -> & Hs'); [left|done|]. simpl.
    apply IH; [done|]. intros k' s Hk'. apply Hbody. by right.
Qed.

Lemma py_get_ok {T : Type} (l : list T) (k : Z) :
  0 ≤ k < Z.of_nat (length l) →
  ∃ x, py_get l k = Ok x ∧ l !! Z.to_nat k = Some x.
Proof.
  intros Hk. unfold py_get.
  destruct (lookup_lt_is_Some_2 l (Z.to_nat k)) as [x Hx]; [lia|].
  exists x. by rewrite Hx.
Qed.

Lemma string_get_lt (s : string) (n : nat) :
  (n < String.length s)%nat → is_Some (String.get n s).
Proof.
  revert n. induction s as [|c s IH]; intros n Hn; simpl in *; [lia|].
  destruct n as [|n]; [done|]. apply IH. lia.
Qed.

Lemma str_get_ok (s : string) (k : Z) :
  0 ≤ k < Z.of_nat (String.length s) → ∃ c, str_get s k = Ok c.
Proof.
  intros Hk. unfold str_get.
  destruct (string_get_lt s (Z.to_nat k)) as [c ->]; [lia|]. by exists c.
Qed.

Section ValidInput.
Context {F : Type} `{FloatOps F}.
Variable key : string → string → string * string.
Variables (seqA seqB : list string) (wghA wghB : list F) (resA resB : list Z).
Variables (prsA prsB : string) (score_dict : gmap (string * string) F).
Hypothesis valid :
  valid_input key seqA seqB wghA wghB resA resB prsA prsB score_dict.

Lemma build_scorer_ok (sonority_factor : F) :
  ∃ scorer,
    build_scorer key seqA seqB wghA wghB prsA prsB score_dict sonority_factor
    = Ok scorer.
Proof.
  destruct valid as (HlA & HlB & HwA & HwB & _ & _ & HpA & HpB & Hdict).
  unfold build_scorer.
  edestruct (for_eachM_ok (λ _ : Z → Z → F, True) (seqZ 1 (Z.of_nat (length seqB))))
    as (s1 & -> & _); [done| |].
  { intros k s Hk _. apply elem_of_seqZ in Hk.
    destruct (py_get_ok wghB (k - 1)) as (w & -> & _); [lia|]. by eexists. }
  simpl.
  edestruct (for_eachM_ok (λ _ : Z → Z → F, True) (seqZ 1 (Z.of_nat (length seqA))))
    as (s2 & -> & _); [done| |].
  { intros k s Hk _. apply elem_of_seqZ in Hk.
    destruct (py_get_ok wghA (k - 1)) as (w & -> & _); [lia|]. by eexists. }
  simpl.
  edestruct (for_eachM_ok (λ _ : Z → Z → F, True) (seqZ 1 (Z.of_nat (length seqB))))
    as (s3 & -> & _); [done| |by eexists].
  intros k s Hk _. apply elem_of_seqZ in Hk.
  apply (for_eachM_ok (λ _ : Z → Z → F, True)); [done|].
  intros l s' Hl _. apply elem_of_seqZ in Hl. unfold score_cell.
  destruct (py_get_ok seqA (l - 1)) as (a & -> & Ha); [lia|].
  destruct (py_get_ok seqB (k - 1)) as (b & -> & Hb); [lia|].
  simpl. unfold dict_get.
  apply list_elem_of_lookup_2 in Ha, Hb.
  rewrite Forall_forall in Hdict. specialize (Hdict a Ha).
  rewrite Forall_forall in Hdict. destruct (Hdict b Hb) as [sc ->].
  simpl.
  destruct (str_get_ok prsA (l - 1)) as (ca & ->); [lia|].
  destruct (str_get_ok prsB (k - 1)) as (cb & ->); [lia|].
  simpl. by eexists.
Qed.

Lemma int_array_ok (res : list Z) (n : nat) :
  length res = n → ∃ a, int_array res (Z.of_nat n) = Ok a.
Proof.
  intros Hlen. unfold int_array.
  edestruct (for_eachM_ok (λ _ : Z → Z, True) (seqZ 0 (Z.of_nat n)))
    as (a & -> & _); [done| |by eexists].
  intros k s Hk _. apply elem_of_seqZ in Hk.
  destruct (py_get_ok res k) as (r & -> & _); [lia|]. by eexists.
Qed.

(** With a kernel that only inserts gaps, the two retrieved sequences have
    the same length. *)
Lemma align_pair_gapped (k : kernel) (scale sonority_factor : F) :
  gapped_kernel k →
  ∃ outA outB sim,
    align_pair key (Some k) seqA seqB wghA wghB resA resB prsA prsB
      score_dict scale sonority_factor = Ok (outA, outB, sim) ∧
    length outA = length outB.
Proof.
  intros Hk.
  pose proof valid as (HlA & HlB & _ & _ & HrA & HrB & _).
  unfold align_pair.
  destruct (build_scorer_ok sonority_factor) as (scorer & ->).
  destruct (int_array_ok resA (length seqA) HrA) as (arrayA & ->).
  destruct (int_array_ok resB (length seqB) HrB) as (arrayB & ->).
  cbn [mbind outcome_bind].
  destruct (Hk arrayA (Z.of_nat (length seqA)) arrayB (Z.of_nat (length seqB))
              scorer scale (λ _, 0) (λ _, 0))
    as (sim & almA & almB & -> & HA & HB & Hsum); [lia..|].
  cbn [mbind outcome_bind].
  rewrite !Nat2Z.id, !gap_total_zero in Hsum.
  destruct (retrieve_length almA (length seqA) (λ k _, HA k) seqA)
    as (outA & -> & HoutA).
  destruct (retrieve_length almB (length seqB) (λ k _, HB k) seqB)
    as (outB & -> & HoutB).
  cbn [mbind outcome_bind].
  exists outA, outB, sim. split; [done|]. lia.
Qed.
End ValidInput.

(** C1, amended.  For the modes global, overlap, repeats and dialign and every
    valid input, [align_pairwise] returns, and the two output sequences have
    the same length. *)
Theorem align_pairwise_lengths_agree {F : Type} `{FloatOps F}
    (seqA seqB : list string) (wghA wghB : list F) (resA resB : list Z)
    (prsA prsB : string) (score_dict : gmap (string * string) F)
    (scale sonority_factor : F) (mode : string) :
  mode ∈ ["global"; "overlap"; "repeats"; "dialign"] →
  valid_input key_AB seqA seqB wghA wghB resA resB prsA prsB score_dict →
  ∃ outA outB sim,
    align_pairwise seqA seqB wghA wghB resA resB prsA prsB score_dict
      scale sonority_factor mode = Ok (outA, outB, sim) ∧
    length outA = length outB.
Proof.
  intros Hmode Hvalid. unfold align_pairwise.
  repeat (apply elem_of_cons in Hmode as [->|Hmode]);
    [..|by apply elem_of_nil in Hmode].
  - apply align_pair_gapped; [done|apply global_gapped].
  - apply align_pair_gapped; [done|apply overlap_gapped].
  - apply align_pair_gapped; [done|apply repeats_gapped].
  - apply align_pair_gapped; [done|apply dialign_gapped].
Qed.

Lemma align_pairwise_lengths_agree_witness :
  ∃ outA outB sim,
    align_pairwise ["a"; "b"] ["a"; "x"; "b"] [-2; -2] [-2; -2; -2]
      [0; 0] [0; 0; 0] "VC" "VCC" (uniform_scores ["a"; "b"; "x"] 1 (-1))
      1 0 "global" = Ok (outA, outB, sim) ∧
    length outA = length outB.
Proof.
  apply (align_pairwise_lengths_agree ["a"; "b"] ["a"; "x"; "b"] [-2; -2]
           [-2; -2; -2] [0; 0] [0; 0; 0] "VC" "VCC"
           (uniform_scores ["a"; "b"; "x"] 1 (-1)) 1 0 "global").
  - apply list_elem_of_here.
  - valid_input_tac.
Defined.

(** In local mode the positions outside the local alignment are overwritten
    with ["*"], not padded: A = [a; b] against B = [a] returns [a; *] and [a]. *)
Lemma local_lengths_disagree :
  ¬ (∀ mode, mode ∈ ["global"; "local"; "overlap"; "repeats"; "dialign"] →
       lengths_agree mode).
Proof.
  intros Hclaim.
  assert (lengths_agree "local") as Hlocal.
  { apply Hclaim. apply list_elem_of_further, list_elem_of_here. }
  specialize (Hlocal ["a"; "b"] ["a"] [-5; -5] [-5] [0; 0] [0] "VC" "V"
                (uniform_scores ["a"; "b"] 1 (-1)) 1 0 ["a"; "*"] ["a"] 1).
  assert (length ["a"; "*"] = length ["a"]) as Hlen; [|discriminate Hlen].
  apply Hlocal.
  - valid_input_tac.
  - vm_compute. reflexivity.
Qed.

(** ** edit_dist *)

Lemma levenshtein_0_l (seqA seqB : list string) (j : nat) :
  levenshtein seqA seqB 0 j = Z.of_nat j.
Proof. done. Qed.

Lemma levenshtein_0_r (seqA seqB : list string) (i : nat) :
  levenshtein seqA seqB i 0 = Z.of_nat i.
Proof. by destruct i. Qed.

Lemma levenshtein_S (seqA seqB : list string) (i j : nat) :
  levenshtein seqA seqB (S i) (S j)
  = Z.min (Z.min (levenshtein seqA seqB i (S j) + 1)
                 (levenshtein seqA seqB i j
                  + if sym_eqb seqA seqB (Z.of_nat (S i)) (Z.of_nat (S j))
                    then 0 else 1))
          (levenshtein seqA seqB (S i) j + 1).
Proof. done. Qed.

Lemma sym_eqb_swap (seqA seqB : list string) (i j : Z) :
  sym_eqb seqA seqB i j = sym_eqb seqB seqA j i.
Proof. unfold sym_eqb. apply bool_decide_ext. split; by intros ->. Qed.

Lemma sym_eqb_diag (seqA : list string) (i : Z) : sym_eqb seqA seqA i i = true.
Proof. unfold sym_eqb. by apply bool_decide_eq_true. Qed.

Lemma levenshtein_swap (seqA seqB : list string) (i j : nat) :
  levenshtein seqA seqB i j = levenshtein seqB seqA j i.
Proof.
  revert j. induction i as [|i IHi]; intros j.
  - by rewrite levenshtein_0_l, levenshtein_0_r.
  - induction j as [|j IHj].
    + by rewrite levenshtein_0_l, levenshtein_0_r.
    + rewrite !levenshtein_S, IHj, !IHi.
      rewrite (sym_eqb_swap seqA seqB). lia.
Qed.

Lemma levenshtein_bounds (seqA seqB : list string) (i j : nat) :
  0 ≤ levenshtein seqA seqB i j ≤ Z.max (Z.of_nat i) (Z.of_nat j).
Proof.
  revert j. induction i as [|i IHi]; intros j.
  - rewrite levenshtein_0_l. lia.
  - induction j as [|j IHj].
    + rewrite levenshtein_0_r. lia.
    + rewrite levenshtein_S.
      pose proof (IHi (S j)). pose proof (IHi j).
      destruct (sym_eqb seqA seqB _ _); lia.
Qed.

Lemma levenshtein_diag (seqA : list string) (i : nat) :
  levenshtein seqA seqA i i = 0.
Proof.
  induction i as [|i IH]; [done|].
  pose proof (levenshtein_bounds seqA seqA (S i) (S i)) as Hb.
  pose proof (levenshtein_bounds seqA seqA i (S i)).
  pose proof (levenshtein_bounds seqA seqA (S i) i).
  rewrite levenshtein_S, sym_eqb_diag, IH in *. lia.
Qed.

Lemma edit_min_spec (a b c : Z) :
  (if (a <=? b) && (a <=? c) then a else if b <? c then b else c)
  = Z.min (Z.min a b) c.
Proof.
  destruct (Z.leb_spec a b), (Z.leb_spec a c), (Z.ltb_spec b c); simpl; lia.
Qed.

Section EditDist.
Variables (seqA seqB : list string) (m n : Z).
Hypothesis Hm : m = Z.of_nat (length seqA).
Hypothesis Hn : n = Z.of_nat (length seqB).

Lemma edit_init_borders : edit_borders m n (edit_init m n).
Proof.
  unfold edit_init.
  pose (P := λ (k : Z) (mx : Z → Z → Z), ∀ j, 0 ≤ j < k → mx 0 j = j).
  assert (P (1 + m) (for_range 1 m (λ j mx, upd2 mx 0 j j)
                       (upd2 (λ _ _, 0) 0 0 0))) as Hrow.
  { apply for_range_ind; [lia| |].
    - intros j Hj. replace j with 0 by lia. by rewrite upd2_eq.
    - intros k mx Hk Hmx j Hj. destruct (decide (j = k)) as [->|Hne].
      + by rewrite upd2_eq.
      + rewrite upd2_ne by lia. apply Hmx. lia. }
  split.
  - intros j Hj.
    apply (for_range_keep (λ mx : Z → Z → Z, mx 0 j = j)); [apply Hrow; lia|].
    intros k mx Hk Hmx. destruct (decide (j = 0)) as [->|Hne].
    + rewrite upd2_ne by lia. done.
    + rewrite upd2_ne by lia. done.
  - intros i Hi.
    pose (R := λ (k : Z) (mx : Z → Z → Z), ∀ i, 0 ≤ i < k → mx i 0 = i).
    assert (R (1 + n) (for_range 1 n (λ i mx, upd2 mx i 0 i)
                         (for_range 1 m (λ j mx, upd2 mx 0 j j)
                            (upd2 (λ _ _, 0) 0 0 0)))) as Hcol.
    { apply for_range_ind; [lia| |].
      - intros i' Hi'. replace i' with 0 by lia. apply Hrow. lia.
      - intros k mx Hk Hmx i' Hi'. destruct (decide (i' = k)) as [->|Hne].
        + by rewrite upd2_eq.
        + rewrite upd2_ne by lia. apply Hmx. lia. }
    apply Hcol. lia.
Qed.

Lemma edit_cell_keeps_borders (i j : Z) (matrix : Z → Z → Z) :
  1 ≤ i → 1 ≤ j → edit_borders m n matrix →
  edit_borders m n (edit_cell seqA seqB i j matrix).
Proof.
  intros Hi Hj [Hrow Hcol]. unfold edit_cell. split.
  - intros j' Hj'. rewrite upd2_ne by lia. by apply Hrow.
  - intros i' Hi'. rewrite upd2_ne by lia. by apply Hcol.
Qed.

(** The filled matrix holds the Levenshtein distance of the prefixes. *)
Lemma edit_fill_levenshtein (i j : Z) :
  0 ≤ i ≤ n → 0 ≤ j ≤ m →
  edit_fill seqA seqB i j = levenshtein seqA seqB (Z.to_nat i) (Z.to_nat j).
Proof.
  intros Hi Hj. unfold edit_fill. rewrite <- Hm, <- Hn.
  pose (Q := λ (i j : Z) (mx : Z → Z → Z),
          mx i j = levenshtein seqA seqB (Z.to_nat i) (Z.to_nat j)).
  assert (∀ mx i j, edit_borders m n mx → 0 ≤ i ≤ n → 0 ≤ j ≤ m →
            i = 0 ∨ j = 0 → Q i j mx) as Hborder.
  { intros mx i' j' [Hrow Hcol] Hi' Hj' [-> | ->]; unfold Q.
    - rewrite Hrow by done. rewrite levenshtein_0_l. lia.
    - rewrite Hcol by done. rewrite levenshtein_0_r. lia. }
  destruct (decide (i = 0 ∨ j = 0)) as [H0|Hpos].
  { apply Hborder; [|done..].
    apply (fill_cells_Inv m n (edit_cell seqA seqB) (edit_borders m n));
      [|apply edit_init_borders].
    intros. apply edit_cell_keeps_borders; [lia..|done]. }
  apply (fill_cells_Q m n (edit_cell seqA seqB) (edit_borders m n) Q);
    [| | |apply edit_init_borders|lia|lia].
  - intros. apply edit_cell_keeps_borders; [lia..|done].
  - intros i1 j1 mx Hi1 Hj1 Hmx Hprev.
    assert (∀ i' j', 0 ≤ i' ≤ n → 0 ≤ j' ≤ m → earlier i' j' i1 j1 →
              Q i' j' mx) as Hread.
    { intros i' j' Hi' Hj' He.
      destruct (decide (i' = 0 ∨ j' = 0)) as [H0|Hn0].
      - by apply Hborder.
      - apply Hprev; [lia..|done]. }
    unfold Q, edit_cell. cbv zeta. rewrite upd2_eq, edit_min_spec.
    rewrite (Hread (i1 - 1) j1), (Hread (i1 - 1) (j1 - 1)), (Hread i1 (j1 - 1));
      [|lia|lia|unfold earlier; lia|lia|lia|unfold earlier; lia
       |lia|lia|unfold earlier; lia].
    replace (Z.to_nat i1) with (S (Z.to_nat (i1 - 1))) by lia.
    replace (Z.to_nat j1) with (S (Z.to_nat (j1 - 1))) by lia.
    rewrite levenshtein_S.
    replace (Z.of_nat (S (Z.to_nat (i1 - 1)))) with i1 by lia.
    replace (Z.of_nat (S (Z.to_nat (j1 - 1)))) with j1 by lia.
    done.
  - intros i1 j1 i2 j2 mx Hi1 Hj1 Hi2 Hj2 He _ Hq.
    unfold Q, edit_cell in *. rewrite upd2_ne; [done|].
    unfold earlier in He. lia.
Qed.

Lemma edit_dist_levenshtein :
  seqA ≠ [] ∨ seqB ≠ [] →
  edit_dist seqA seqB
  = Some (levenshtein seqA seqB (length seqB) (length seqA)
          # Z.to_pos (Z.max n m)).
Proof.
  intros Hne. unfold edit_dist. rewrite <- Hm, <- Hn.
  assert (0 < Z.max n m) as Hmax.
  { rewrite Hm, Hn. destruct Hne as [Hne|Hne].
    - destruct seqA; [done|]. simpl length. lia.
    - destruct seqB; [done|]. simpl length. lia. }
  replace (Z.max n m =? 0) with false by lia.
  rewrite edit_fill_levenshtein by lia.
  replace (Z.to_nat n) with (length seqB) by lia.
  by replace (Z.to_nat m) with (length seqA) by lia.
Qed.
End EditDist.

(** C7.  For non-empty sequences A and B: [edit_dist] is the unit-cost
    Levenshtein distance divided by [max(lA, lB)]; [edit_dist(A, A) == 0];
    [edit_dist(A, B) == edit_dist(B, A)]; and [0 <= edit_dist(A, B) <= 1]. *)
Theorem edit_dist_laws (seqA seqB : list string) :
  seqA ≠ [] → seqB ≠ [] →
  ∃ dAA dAB dBA : Q,
    edit_dist seqA seqA = Some dAA ∧
    edit_dist seqA seqB = Some dAB ∧
    edit_dist seqB seqA = Some dBA ∧
    dAB = (levenshtein seqA seqB (length seqB) (length seqA)
           # Z.to_pos (Z.max (Z.of_nat (length seqB)) (Z.of_nat (length seqA)))) ∧
    (dAA == 0)%Q ∧ (dAB == dBA)%Q ∧ (0 <= dAB)%Q ∧ (dAB <= 1)%Q.
Proof.
  intros HA HB.
  rewrite !(edit_dist_levenshtein _ _ _ _ eq_refl eq_refl) by auto.
  eexists _, _, _. repeat split.
  - rewrite levenshtein_diag. reflexivity.
  - rewrite (levenshtein_swap seqB seqA), (Z.max_comm (Z.of_nat (length seqA))).
    reflexivity.
  - pose proof (levenshtein_bounds seqA seqB (length seqB) (length seqA)).
    unfold Qle. simpl. lia.
  - pose proof (levenshtein_bounds seqA seqB (length seqB) (length seqA)).
    destruct seqA as [|a seqA]; [done|].
    simpl length in *.
    unfold Qle. simpl Qnum. simpl Qden. rewrite Z2Pos.id by lia.
    lia.
Qed.

Lemma edit_dist_laws_witness :
  ∃ dAA dAB dBA : Q,
    edit_dist ["a"; "b"; "c"] ["a"; "b"; "c"] = Some dAA ∧
    edit_dist ["a"; "b"; "c"] ["a"; "x"] = Some dAB ∧
    edit_dist ["a"; "x"] ["a"; "b"; "c"] = Some dBA ∧
    dAB = (levenshtein ["a"; "b"; "c"] ["a"; "x"] 2 3 # Z.to_pos (Z.max 2 3)) ∧
    (dAA == 0)%Q ∧ (dAB == dBA)%Q ∧ (0 <= dAB)%Q ∧ (dAB <= 1)%Q.
Proof.
  apply (edit_dist_laws ["a"; "b"; "c"] ["a"; "x"]); discriminate.
Defined.

(** ** Restrictions are penalties *)

Section RestrictedGaps.
Context {F St : Type} `{FloatOps F}.
Variables (arrayA : Z → Z) (lA : Z) (arrayB : Z → Z) (lB : Z).
Variables (get : St → dp F) (cell : Z → Z → St → St).

Hypothesis cell_frame : ∀ i j st i' j',
  i' ≠ i ∨ j' ≠ j →
  matrix (get (cell i j st)) i' j' = matrix (get st) i' j' ∧
  traceback (get (cell i j st)) i' j' = traceback (get st) i' j'.
Hypothesis cell_penalises : ∀ i j st,
  penalises arrayA lA arrayB lB (get st) (get (cell i j st)) i j.

Lemma fill_penalised (st0 : St) (i j : Z) :
  1 ≤ i ≤ lB → 1 ≤ j ≤ lA →
  penalised arrayA lA arrayB lB (get (fill_cells lA lB cell st0)) i j.
Proof.
  intros Hi Hj.
  apply (fill_cells_Q lA lB cell (λ _, True)
           (λ i j s, penalised arrayA lA arrayB lB (get s) i j)); try done.
  - intros i1 j1 st _ _ _ _.
    destruct (cell_penalises i1 j1 st) as [HB HA]. split.
    + intros HR Htb.
      destruct (cell_frame i1 j1 st i1 (j1 - 1)) as [-> _]; [lia|]. by apply HB.
    + intros HR Htb.
      destruct (cell_frame i1 j1 st (i1 - 1) j1) as [-> _]; [lia|]. by apply HA.
  - intros i1 j1 i2 j2 st _ _ _ _ He _ [HB HA].
    unfold earlier in He. unfold penalised.
    destruct (cell_frame i1 j1 st i2 j2) as [-> ->]; [lia|].
    destruct (cell_frame i1 j1 st i2 (j2 - 1)) as [-> _]; [lia|].
    destruct (cell_frame i1 j1 st (i2 - 1) j2) as [-> _]; [lia|].
    done.
Qed.
End RestrictedGaps.

Section RestrictedKernels.
Context {F : Type} `{FloatOps F}.
Variables (arrayA : Z → Z) (lA : Z) (arrayB : Z → Z) (lB : Z).
Variables (scorer : Z → Z → F) (scale : F).

Lemma global_cell_penalises (i j : Z) (st : dp F) :
  penalises arrayA lA arrayB lB st
    (global_cell arrayA lA arrayB lB scorer scale i j st) i j.
Proof. unfold global_cell. penalises_tac. Qed.

Lemma overlap_cell_penalises (i j : Z) (st : dp F) :
  penalises arrayA lA arrayB lB st
    (overlap_cell arrayA lA arrayB lB scorer scale i j st) i j.
Proof. unfold overlap_cell, overlap_gapA, overlap_gapB. penalises_tac. Qed.

Lemma repeats_cell_penalises (i j : Z) (st : dp F) :
  penalises arrayA lA arrayB lB st
    (repeats_cell arrayA lA arrayB lB scorer scale i j st) i j.
Proof. unfold repeats_cell. penalises_tac. Qed.

Lemma local_cell_penalises (i j : Z) (ls : local_state) :
  penalises arrayA lA arrayB lB (l_dp ls)
    (l_dp (local_cell arrayA lA arrayB lB scorer scale i j ls)) i j.
Proof. unfold local_cell. penalises_tac. Qed.

Lemma local_cell_frame (i j : Z) (ls : local_state) (i' j' : Z) :
  i' ≠ i ∨ j' ≠ j →
  matrix (l_dp (local_cell arrayA lA arrayB lB scorer scale i j ls)) i' j'
  = matrix (l_dp ls) i' j' ∧
  traceback (l_dp (local_cell arrayA lA arrayB lB scorer scale i j ls)) i' j'
  = traceback (l_dp ls) i' j'.
Proof.
  intros Hne. unfold local_cell.
  repeat case_branch; by apply set_cell_frame.
Qed.
End RestrictedKernels.

(** *** The local kernel returns *)

Section LocalReturns.
Context {F : Type} `{FloatOrder F}.
Variables (arrayA : Z → Z) (lA : Z) (arrayB : Z → Z) (lB : Z).
Variables (scorer : Z → Z → F) (scale : F).

Lemma local_init_traceback (i j : Z) : traceback (local_init (F := F) lA lB) i j = 0.
Proof.
  unfold local_init.
  apply (for_range_keep (λ s : dp F, traceback s i j = 0)).
  - apply (for_range_keep (λ s : dp F, traceback s i j = 0)).
    + simpl. unfold upd2. by case_branch.
    + intros k s _ Hs. simpl. unfold upd2. by case_branch.
  - intros k s _ Hs. simpl. unfold upd2. by case_branch.
Qed.

(** The first row and the first column of the filled traceback hold 0. *)
Lemma local_fill_border (i j : Z) :
  i < 1 ∨ j < 1 →
  traceback (l_dp (local_fill arrayA lA arrayB lB scorer scale)) i j = 0.
Proof.
  intros Hij. unfold local_fill.
  destruct (fill_border lA lB l_dp (local_cell arrayA lA arrayB lB scorer scale)
              (local_cell_frame arrayA lA arrayB lB scorer scale)
              (LocalState (local_init lA lB) (f_of_Z 0) None None) i j Hij)
    as [_ ->].
  apply local_init_traceback.
Qed.

Lemma local_walk_returns (tb : Z → Z → Z) (fuel : nat) :
  (∀ i j, i < 1 ∨ j < 1 → tb i j = 0) →
  ∀ i j almA almB,
    0 ≤ i → 0 ≤ j → (Z.to_nat (i + j) ≤ fuel)%nat →
    ∃ i' j' almA' almB',
      local_walk fuel tb i j almA almB = Ok (i', j', almA', almB') ∧
      0 ≤ i' ≤ i ∧ 0 ≤ j' ≤ j.
Proof.
  intros Hborder.
  induction fuel as [|fuel IH]; intros i j almA almB Hi Hj Hfuel.
  - assert (i = 0 ∧ j = 0) as [-> ->] by lia. simpl.
    rewrite Hborder by lia. simpl. eexists _, _, _, _. split; [done|lia].
  - simpl. replace ((i <? 0) || (j <? 0)) with false by lia.
    destruct (Z.eqb_spec (tb i j) 0) as [Hz|Hnz].
    { eexists _, _, _, _. split; [done|lia]. }
    assert (1 ≤ i ∧ 1 ≤ j) as [Hi1 Hj1].
    { destruct (Z_lt_le_dec i 1); [rewrite Hborder in Hnz; lia|].
      destruct (Z_lt_le_dec j 1); [rewrite Hborder in Hnz; lia|]. lia. }
    repeat case_branch.
    + destruct (IH (i - 1) j (upd almA j (almA j + 1)) almB)
        as (i' & j' & almA' & almB' & -> & Hr); [lia..|].
      eexists _, _, _, _. split; [done|lia].
    + destruct (IH (i - 1) (j - 1) almA almB)
        as (i' & j' & almA' & almB' & -> & Hr); [lia..|].
      eexists _, _, _, _. split; [done|lia].
    + destruct (IH i (j - 1) almA (upd almB i (almB i + 1)))
        as (i' & j' & almA' & almB' & -> & Hr); [lia..|].
      eexists _, _, _, _. split; [done|lia].
    + eexists _, _, _, _. split; [done|lia].
Qed.

(** X1.  For [lA, lB >= 1] the local kernel returns: the maximum is
    assigned, the walk from it stays inside the arrays and ends within its
    budget. *)
Theorem local_returns (almA almB : Z → Z) :
  1 ≤ lA → 1 ≤ lB →
  ∃ sim almA' almB',
    _local arrayA lA arrayB lB scorer scale almA almB = Ok (sim, almA', almB').
Proof.
  intros HlA HlB. unfold _local.
  replace ((lB <? 0) || (lA <? 0)) with false by lia.
  destruct (local_fill_last arrayA lA arrayB lB scorer scale HlA HlB)
    as [_ (i & j & -> & -> & Hi & Hj)].
  cbv zeta.
  destruct (local_walk_returns
              (traceback (l_dp (local_fill arrayA lA arrayB lB scorer scale)))
              (S (walk_fuel lA lB)) (local_fill_border) i j
              (mark_outside j lA almA) (mark_outside i lB almB))
    as (i' & j' & almA' & almB' & -> & _); [lia|lia|unfold walk_fuel; lia|].
  simpl. by eexists _, _, _.
Qed.
End LocalReturns.

Lemma local_returns_witness :
  (1 ≤ 2 ∧ 1 ≤ 2) ∧
  ∃ sim almA' almB',
    _local (λ _, 0) 2 (λ _, 0) 2 demo_scorer 1 (λ _, 0) (λ _, 0)
    = Ok (sim, almA', almB').
Proof.
  split; [lia|].
  apply (local_returns (λ _, 0) 2 (λ _, 0) 2 demo_scorer 1 (λ _, 0) (λ _, 0)); lia.
Defined.

Section RestrictedDialign.
Context {F : Type} `{FloatOps F}.
Variables (arrayA : Z → Z) (lA : Z) (arrayB : Z → Z) (lB : Z).
Variables (scorer : Z → Z → F).

Lemma best_diagonal_length_pos (m : Z → Z → F) (i j : Z) :
  1 ≤ (best_diagonal scorer m i j).2.
Proof.
  unfold best_diagonal.
  apply (for_range_keep (λ p : F * Z, 1 ≤ p.2)); [simpl; lia|].
  intros k [old_score old_length] Hk Hp.
  case_branch; simpl in *; lia.
Qed.

Lemma mark_diagonal_on (tb : Z → Z → Z) (i j len k : Z) :
  0 ≤ k < len → mark_diagonal tb i j len (i - k) (j - k) = 1.
Proof.
  intros Hk. unfold mark_diagonal.
  pose (P := λ (n : Z) (t : Z → Z → Z), ∀ k, 0 ≤ k < n → t (i - k) (j - k) = 1).
  assert (P (0 + len) (for_range 0 len (λ k t, upd2 t (i - k) (j - k) 1) tb)) as HP.
  { apply for_range_ind; [lia| |].
    - intros k' Hk'. lia.
    - intros n t Hn Ht k' Hk'. destruct (decide (k' = n)) as [->|Hne].
      + by rewrite upd2_eq.
      + rewrite upd2_ne by lia. apply Ht. lia. }
  apply HP. lia.
Qed.

Lemma mark_diagonal_cases (tb : Z → Z → Z) (i j len i' j' : Z) :
  mark_diagonal tb i j len i' j' = tb i' j' ∨ mark_diagonal tb i j len i' j' = 1.
Proof.
  unfold mark_diagonal.
  apply (for_range_keep (λ t : Z → Z → Z, t i' j' = tb i' j' ∨ t i' j' = 1));
    [by left|].
  intros k t Hk Ht.
  destruct (decide (i' = i - k ∧ j' = j - k)) as [[-> ->]|Hne].
  - right. by rewrite upd2_eq.
  - rewrite upd2_ne by lia. done.
Qed.

Lemma dialign_cell_matrix_frame (i j : Z) (st : dp F) (i' j' : Z) :
  i' ≠ i ∨ j' ≠ j →
  matrix (dialign_cell arrayA lA arrayB lB scorer i j st) i' j' = matrix st i' j'.
Proof.
  intros Hne. unfold dialign_cell.
  destruct (best_diagonal scorer (matrix st) i j) as [old_score old_length].
  repeat case_branch; simpl; by rewrite upd2_ne.
Qed.

Lemma dialign_cell_traceback_cases (i j : Z) (st : dp F) (i' j' : Z) :
  i' ≠ i ∨ j' ≠ j →
  traceback (dialign_cell arrayA lA arrayB lB scorer i j st) i' j' = traceback st i' j' ∨
  traceback (dialign_cell arrayA lA arrayB lB scorer i j st) i' j' = 1.
Proof.
  intros Hne. unfold dialign_cell.
  destruct (best_diagonal scorer (matrix st) i j) as [old_score old_length].
  repeat case_branch; simpl;
    first [ left; by rewrite upd2_ne | apply mark_diagonal_cases ].
Qed.

Lemma dialign_cell_penalises (i j : Z) (st : dp F) :
  penalises arrayA lA arrayB lB st
    (dialign_cell arrayA lA arrayB lB scorer i j st) i j.
Proof.
  unfold dialign_cell.
  pose proof (best_diagonal_length_pos (matrix st) i j) as Hlen.
  destruct (best_diagonal scorer (matrix st) i j) as [old_score old_length].
  simpl in Hlen.
  pose proof (mark_diagonal_on (traceback st) i j old_length 0) as Hon.
  rewrite !Z.sub_0_r in Hon. specialize (Hon ltac:(lia)).
  split; intros HR; rewrite ?HR; cbv beta iota zeta;
    repeat case_branch; simpl; rewrite ?upd2_eq, ?Hon; intros; (done || lia).
Qed.

Lemma dialign_fill_penalised (i j : Z) :
  1 ≤ i ≤ lB → 1 ≤ j ≤ lA →
  penalised arrayA lA arrayB lB (dialign_fill arrayA lA arrayB lB scorer) i j.
Proof.
  intros Hi Hj. unfold dialign_fill.
  apply (fill_cells_Q lA lB (dialign_cell arrayA lA arrayB lB scorer) (λ _, True)
           (λ i j s, penalised arrayA lA arrayB lB s i j)); try done.
  - intros i1 j1 st _ _ _ _.
    destruct (dialign_cell_penalises i1 j1 st) as [HB HA]. split.
    + intros HR Htb. rewrite (dialign_cell_matrix_frame i1 j1 st i1 (j1 - 1)) by lia.
      by apply HB.
    + intros HR Htb. rewrite (dialign_cell_matrix_frame i1 j1 st (i1 - 1) j1) by lia.
      by apply HA.
  - intros i1 j1 i2 j2 st _ _ _ _ He _ [HB HA].
    unfold earlier in He. unfold penalised.
    rewrite !(dialign_cell_matrix_frame i1 j1 st) by lia.
    destruct (dialign_cell_traceback_cases i1 j1 st i2 j2) as [-> | ->]; [lia|done|].
    split; intros _ Htb; discriminate Htb.
Qed.
End RestrictedDialign.


(** [heavy_scorer], [heavy_resA] and [heavy_resB] are the arrays that
    [align_pairwise] passes to the kernel for A = [a; x], B = [a; b] with
    the weights and restrictions below. *)
Lemma heavy_arrays_built :
  ∃ scorer arrayA arrayB,
    build_scorer key_AB ["a"; "x"] ["a"; "b"] [-1; -5000000] [-5000000; -1]
      "VC" "CV" heavy_scores 0 = Ok scorer ∧
    int_array [0; -1] 2 = Ok arrayA ∧
    int_array [1; 0] 2 = Ok arrayB ∧
    Forall (λ c, scorer c.1 c.2 = heavy_scorer c.1 c.2) (all_cells 2 2) ∧
    Forall (λ k, arrayA k = heavy_resA k ∧ arrayB k = heavy_resB k) (seqZ 0 2).
Proof.
  vm_compute. eexists _, _, _.
  split; [reflexivity|]. split; [reflexivity|]. split; [reflexivity|].
  split; repeat constructor.
Qed.



(** With everyday weights the gap opposite a restricted symbol is placed
    from the first row of the traceback, which no restriction guards:
    A = [x; a; b] against B = [a; b]. *)
Lemma restriction_unguarded_border :
  align_pairwise ["x"; "a"; "b"] ["a"; "b"] [-1; -1; -1] [-1; -1]
    [-1; 0; 0] [1; 0] "VCC" "CV" (uniform_scores ["a"; "b"; "x"] 1 (-1))
    1 0 "global" = Ok (["x"; "a"; "b"], ["-"; "a"; "b"], 1).
Proof. vm_compute. reflexivity. Qed.

Lemma local_maximum_assigned_witness :
  (1 ≤ 2 ∧ 1 ≤ 2) ∧
  let ls := local_fill (λ _, 0) 2 (λ _, 0) 2 demo_scorer 1 in
  fge (matrix (l_dp ls) 2 2) (f_of_Z 0) = true ∧
  ∃ i j, imax ls = Some i ∧ jmax ls = Some j ∧ 1 ≤ i ≤ 2 ∧ 1 ≤ j ≤ 2.
Proof.
  split; [lia|].
  apply (local_maximum_assigned (λ _, 0) 2 (λ _, 0) 2 demo_scorer 1); lia.
Defined.

(** ** The scorer and the key order of the lookup *)

Lemma foldl_bind_fail {St : Type} (body : Z → St → outcome St) (ks : list Z)
    (o : outcome St) :
  (∀ s, o ≠ Ok s) → foldl (λ o k, o ≫= body k) o ks = o.
Proof.
  revert o. induction ks as [|k ks IH]; intros o Ho; [done|]. simpl.
  destruct o as [s| | |]; [by destruct (Ho s)|..]; by apply IH.
Qed.

Lemma foldl_pointwise {A B : Type} (f g : A → B → A) (a : A) (l : list B) :
  (∀ a b, f a b = g a b) → foldl f a l = foldl g a l.
Proof.
  intros Hfg. revert a. induction l as [|b l IH]; intros a; [done|].
  simpl. by rewrite Hfg, IH.
Qed.

(** A failing loop is a fold that carries the outcome along. *)
Lemma for_eachM_foldl {St : Type} (ks : list Z) (body : Z → St → outcome St)
    (o : outcome St) :
  o ≫= for_eachM ks body = foldl (λ o k, o ≫= body k) o ks.
Proof.
  revert o. induction ks as [|k ks IH]; intros o; simpl.
  - by destruct o.
  - rewrite <- IH. by destruct o.
Qed.

Lemma for_eachM_fill {St : Type} (lA lB : Z) (cell : Z → Z → St → outcome St)
    (st : St) :
  for_eachM (seqZ 1 lB) (λ k s, for_eachM (seqZ 1 lA) (λ l s, cell k l s) s) st
  = fill_cells lA lB (λ k l o, o ≫= cell k l) (Ok st).
Proof.
  unfold fill_cells, for_range.
  change (for_eachM (seqZ 1 lB)
            (λ k s, for_eachM (seqZ 1 lA) (λ l s, cell k l s) s) st)
    with (Ok st ≫= for_eachM (seqZ 1 lB)
            (λ k s, for_eachM (seqZ 1 lA) (λ l s, cell k l s) s)).
  rewrite for_eachM_foldl.
  apply foldl_pointwise. intros o k. apply for_eachM_foldl.
Qed.

Section Scorer.
Context {F : Type} `{FloatOps F}.
Variable key : string → string → string * string.
Variables (seqA seqB : list string) (wghA wghB : list F).
Variables (prsA prsB : string) (score_dict : gmap (string * string) F).
Variable sonority_factor : F.

Lemma score_cell_Ok (k l : Z) (scorer scorer' : Z → Z → F) :
  score_cell key seqA seqB prsA prsB score_dict sonority_factor k l scorer = Ok scorer' →
  scored key seqA seqB score_dict sonority_factor scorer' k l ∧
  ∀ k' l', k' ≠ k ∨ l' ≠ l → scorer' k' l' = scorer k' l'.
Proof.
  unfold score_cell, py_get, dict_get. intros Hc.
  destruct (seqA !! Z.to_nat (l - 1)) as [a|] eqn:Ha; [|done].
  destruct (seqB !! Z.to_nat (k - 1)) as [b|] eqn:Hb; [|done].
  simpl in Hc.
  destruct (score_dict !! key a b) as [s|] eqn:Hs; [|done].
  simpl in Hc.
  destruct (str_get prsA (l - 1)) as [ca| | |]; try done.
  destruct (str_get prsB (k - 1)) as [cb| | |]; try done.
  simpl in Hc. injection Hc as <-. split.
  - exists a, b, s. repeat split; try done.
    rewrite upd2_eq. destruct (Ascii.eqb ca cb); auto.
  - intros k' l' Hne. by rewrite upd2_ne.
Qed.

Lemma build_scorer_scored (scorer : Z → Z → F) (k l : Z) :
  build_scorer key seqA seqB wghA wghB prsA prsB score_dict sonority_factor
  = Ok scorer →
  1 ≤ k ≤ Z.of_nat (length seqB) → 1 ≤ l ≤ Z.of_nat (length seqA) →
  scored key seqA seqB score_dict sonority_factor scorer k l.
Proof.
  unfold build_scorer. intros Hb Hk Hl.
  destruct (for_eachM (seqZ 1 (Z.of_nat (length seqB))) _ _) as [s1| | |];
    try done.
  simpl in Hb.
  destruct (for_eachM (seqZ 1 (Z.of_nat (length seqA))) _ _) as [s2| | |];
    try done.
  simpl in Hb.
  rewrite (for_eachM_fill _ _
             (score_cell key seqA seqB prsA prsB score_dict sonority_factor)) in Hb.
  revert scorer Hb.
  apply (fill_cells_Q (Z.of_nat (length seqA)) (Z.of_nat (length seqB))
           (λ k l o, o ≫= score_cell key seqA seqB prsA prsB score_dict
                             sonority_factor k l) (λ _, True)
           (λ k l o, ∀ s, o = Ok s → scored key seqA seqB score_dict sonority_factor s k l)); try done.
  - intros k1 l1 o _ _ _ _ s Hs.
    destruct o as [s0| | |]; try done. simpl in Hs.
    by apply score_cell_Ok in Hs as [Hs _].
  - intros k1 l1 k2 l2 o _ _ _ _ He _ Hq s Hs.
    destruct o as [s0| | |]; try done. simpl in Hs.
    apply score_cell_Ok in Hs as [_ Hframe].
    destruct (Hq s0 eq_refl) as (a & b & sc & Ha & Hb' & Hd & Hv).
    exists a, b, sc. repeat split; try done.
    rewrite Hframe; [done|]. unfold earlier in He. lia.
Qed.
End Scorer.

Lemma transpose_lookup {F : Type} (score_dict : gmap (string * string) F)
    (a b : string) :
  transpose score_dict !! (a, b) = score_dict !! (b, a).
Proof.
  unfold transpose.
  change (a, b) with ((λ p : string * string, (p.2, p.1)) (b, a)).
  apply (lookup_kmap (λ p : string * string, (p.2, p.1))).
Qed.

Lemma for_eachM_pointwise {St : Type} (ks : list Z)
    (body body' : Z → St → outcome St) (st : St) :
  (∀ k s, body k s = body' k s) → for_eachM ks body st = for_eachM ks body' st.
Proof.
  intros Hb. revert st. induction ks as [|k ks IH]; intros st; [done|].
  simpl. rewrite Hb. destruct (body' k st); simpl; auto.
Qed.

Lemma build_scorer_transpose {F : Type} `{FloatOps F}
    (seqA seqB : list string) (wghA wghB : list F) (prsA prsB : string)
    (score_dict : gmap (string * string) F) (sonority_factor : F) :
  build_scorer key_BA seqA seqB wghA wghB prsA prsB score_dict sonority_factor
  = build_scorer key_AB seqA seqB wghA wghB prsA prsB (transpose score_dict)
      sonority_factor.
Proof.
  unfold build_scorer.
  destruct (for_eachM (seqZ 1 (Z.of_nat (length seqB))) _ _) as [s1| | |];
    try done.
  simpl.
  destruct (for_eachM (seqZ 1 (Z.of_nat (length seqA))) _ _) as [s2| | |];
    try done.
  simpl.
  apply for_eachM_pointwise. intros k s.
  apply for_eachM_pointwise. intros l s'. unfold score_cell.
  destruct (py_get seqA (l - 1)) as [a| | |]; try done.
  destruct (py_get seqB (k - 1)) as [b| | |]; try done.
  simpl. unfold dict_get, key_AB, key_BA. by rewrite transpose_lookup.
Qed.

Lemma align_pair_transpose {F : Type} `{FloatOps F} (align : option kernel)
    (seqA seqB : list string) (wghA wghB : list F) (resA resB : list Z)
    (prsA prsB : string) (score_dict : gmap (string * string) F)
    (scale sonority_factor : F) :
  align_pair key_BA align seqA seqB wghA wghB resA resB prsA prsB score_dict
    scale sonority_factor
  = align_pair key_AB align seqA seqB wghA wghB resA resB prsA prsB
      (transpose score_dict) scale sonority_factor.
Proof. unfold align_pair. by rewrite build_scorer_transpose. Qed.

(** C4.  [align_pairwise] looks the similarity up under the key
    [(A[l-1], B[k-1])]; [align_sequence_pairs] does the same, returning for
    one pair what [align_pairwise] returns; [align_sequences_pairwise] looks
    it up under the reversed key [(B[k-1], A[l-1])], returning for the pair
    of two sequences what [align_pairwise] returns on the transposed mapping;
    so on a mapping that is not symmetric the two drivers can differ. *)
Theorem similarity_key_order :
  (∀ (F : Type) (ops : FloatOps F) seqA seqB wghA wghB prsA prsB
     (score_dict : gmap (string * string) F) sonority_factor scorer k l,
     build_scorer key_AB seqA seqB wghA wghB prsA prsB score_dict
       sonority_factor = Ok scorer →
     1 ≤ k ≤ Z.of_nat (length seqB) → 1 ≤ l ≤ Z.of_nat (length seqA) →
     ∃ a b s,
       seqA !! Z.to_nat (l - 1) = Some a ∧ seqB !! Z.to_nat (k - 1) = Some b ∧
       score_dict !! (a, b) = Some s ∧
       (scorer k l = s ∨ scorer k l = fmul s (fadd (f_of_Z 1) sonority_factor))) ∧
  (∀ (F : Type) (ops : FloatOps F) seqA seqB wghA wghB resA resB prsA prsB
     (score_dict : gmap (string * string) F) scale sonority_factor mode,
     align_sequence_pairs [(seqA, seqB)] [(wghA, wghB)] [(resA, resB)]
       [(prsA, prsB)] score_dict scale sonority_factor mode
     = t ← align_pairwise seqA seqB wghA wghB resA resB prsA prsB score_dict
             scale sonority_factor mode;
       Ok [t]) ∧
  (∀ (F : Type) (ops : FloatOps F) seqA seqB wghA wghB resA resB prsA prsB
     (score_dict : gmap (string * string) F) scale sonority_factor mode,
     align_sequences_pairwise [seqA; seqB] [wghA; wghB] [resA; resB]
       [prsA; prsB] score_dict scale sonority_factor mode
     = t ← align_pairwise seqA seqB wghA wghB resA resB prsA prsB
             (transpose score_dict) scale sonority_factor mode;
       Ok [t]) ∧
  align_pairwise ["a"] ["b"] [-1] [-1] [0] [0] "V" "C" skewed_scores 1 0 "global"
  = Ok (["a"], ["b"], 1) ∧
  align_sequences_pairwise [["a"]; ["b"]] [[-1]; [-1]] [[0]; [0]] ["V"; "C"]
    skewed_scores 1 0 "global"
  = Ok [(["a"; "-"], ["-"; "b"], -2)].
Proof.
  split; [|split; [|split; [|split]]].
  - intros F ops seqA seqB wghA wghB prsA prsB score_dict sf scorer k l Hb Hk Hl.
    apply (build_scorer_scored key_AB seqA seqB wghA wghB prsA prsB score_dict
             sf scorer k l Hb Hk Hl).
  - intros. unfold align_sequence_pairs, align_pairwise.
    change (seqZ 0 (Z.of_nat (length [(seqA, seqB)]))) with [0].
    cbn [for_eachM].
    change (py_get [(seqA, seqB)] 0) with (Ok (seqA, seqB)).
    change (py_get [(wghA, wghB)] 0) with (Ok (wghA, wghB)).
    change (py_get [(resA, resB)] 0) with (Ok (resA, resB)).
    change (py_get [(prsA, prsB)] 0) with (Ok (prsA, prsB)).
    cbv beta iota delta [mbind outcome_bind fst snd].
    by destruct (align_pair key_AB _ _ _ _ _ _ _ _ _ _ _ _) as [[[? ?] ?]| | |].
  - intros. unfold align_sequences_pairwise, align_pairwise.
    rewrite <- align_pair_transpose.
    change (seqZ 0 (Z.of_nat (length [seqA; seqB]))) with [0; 1].
    cbn [for_eachM].
    change (0 <? 0) with false. change (0 <? 1) with true.
    change (1 <? 0) with false. change (1 <? 1) with false.
    change (py_get [seqA; seqB] 0) with (Ok seqA).
    change (py_get [seqA; seqB] 1) with (Ok seqB).
    change (py_get [wghA; wghB] 0) with (Ok wghA).
    change (py_get [wghA; wghB] 1) with (Ok wghB).
    change (py_get [resA; resB] 0) with (Ok resA).
    change (py_get [resA; resB] 1) with (Ok resB).
    change (py_get [prsA; prsB] 0) with (Ok prsA).
    change (py_get [prsA; prsB] 1) with (Ok prsB).
    cbv beta iota delta [mbind outcome_bind].
    by destruct (align_pair key_BA _ _ _ _ _ _ _ _ _ _ _ _) as [[[? ?] ?]| | |].
  - vm_compute. reflexivity.
  - vm_compute. reflexivity.
Qed.

(** ** The backward scan of the repeats kernel *)

(** C3, at the failing input A = [a; b], B = [c] with every score -1.  The
    walk starts in cell (1,2), whose traceback is 0; the scan of the code
    stops at the first cell it visits, (0,1), whose traceback is 2, where the
    scan for the nearest traceback 1 ends in (0,0); the code jumps to (0,1),
    inserts one gap on each side and returns the alignment below. *)
Theorem repeats_scan_stops_at_first_cell :
  let st := repeats_fill (λ _, 0) 2 (λ _, 0) 1 costly_scorer 1 in
  traceback st 1 2 = 0 ∧
  repeats_scan (traceback st) 1 2 None = (1, Some 0) ∧
  traceback st 0 1 = 2 ∧
  nearest_match (traceback st) 1 2 = Some (0, 0) ∧
  align_pairwise ["a"; "b"] ["c"] [-1; -1] [-1] [0; 0] [0] "VC" "X"
    (uniform_scores ["a"; "b"; "c"] (-1) (-1)) 1 0 "repeats"
  = Ok (["a"; "-"; "b"], ["-"; "c"; "-"], 0).
Proof. vm_compute. repeat split; reflexivity. Qed.

(** ** Unknown modes *)

Lemma select_kernel_unknown {F : Type} `{FloatOps F} (mode : string) :
  mode ∉ ["global"; "local"; "repeats"; "overlap"; "dialign"] →
  select_kernel (F := F) mode = None.
Proof.
  intros Hmode. unfold select_kernel.
  destruct (String.eqb_spec mode "global") as [->|_]; [set_solver|].
  destruct (String.eqb_spec mode "local") as [->|_]; [set_solver|].
  destruct (String.eqb_spec mode "repeats") as [->|_]; [set_solver|].
  destruct (String.eqb_spec mode "overlap") as [->|_]; [set_solver|].
  destruct (String.eqb_spec mode "dialign") as [->|_]; [set_solver|].
  done.
Qed.

(** With the pointer [align] unassigned the call never yields an alignment
    and never raises a Python exception at the call: scorer and restriction
    arrays are built first, then the call is undefined. *)
Lemma align_pair_unassigned {F : Type} `{FloatOps F}
    (key : string → string → string * string)
    (seqA seqB : list string) (wghA wghB : list F) (resA resB : list Z)
    (prsA prsB : string) (score_dict : gmap (string * string) F)
    (scale sonority_factor : F) :
  valid_input key seqA seqB wghA wghB resA resB prsA prsB score_dict →
  align_pair key None seqA seqB wghA wghB resA resB prsA prsB score_dict
    scale sonority_factor = Undefined.
Proof.
  intros Hvalid.
  pose proof Hvalid as (_ & _ & _ & _ & HrA & HrB & _).
  unfold align_pair.
  destruct (build_scorer_ok key seqA seqB wghA wghB resA resB prsA prsB
              score_dict Hvalid sonority_factor) as (scorer & ->).
  destruct (int_array_ok resA (length seqA) HrA) as (arrayA & ->).
  destruct (int_array_ok resB (length seqB) HrB) as (arrayB & ->).
  done.
Qed.

(** C8, at the failing input mode = "semiglobal": the three drivers leave
    [align] unassigned and call through it; no error is reported. *)
Theorem unknown_mode_is_undefined :
  select_kernel (F := Z) "semiglobal" = None ∧
  align_pairwise ["a"] ["a"] [-1] [-1] [0] [0] "V" "V"
    (uniform_scores ["a"] 1 (-1)) 1 0 "semiglobal" = Undefined ∧
  align_sequences_pairwise [["a"]; ["a"]] [[-1]; [-1]] [[0]; [0]] ["V"; "V"]
    (uniform_scores ["a"] 1 (-1)) 1 0 "semiglobal" = Undefined ∧
  align_sequence_pairs [(["a"], ["a"])] [([-1], [-1])] [([0], [0])] [("V", "V")]
    (uniform_scores ["a"] 1 (-1)) 1 0 "semiglobal" = Undefined.
Proof. vm_compute. repeat split; reflexivity. Qed.

(** X2.  For every string outside the five modes and every valid input,
    [align_pairwise] builds the scorer and the restriction arrays and then
    calls through the unassigned pointer. *)
Theorem unknown_mode_never_reported {F : Type} `{FloatOps F}
    (seqA seqB : list string) (wghA wghB : list F) (resA resB : list Z)
    (prsA prsB : string) (score_dict : gmap (string * string) F)
    (scale sonority_factor : F) (mode : string) :
  mode ∉ ["global"; "local"; "repeats"; "overlap"; "dialign"] →
  valid_input key_AB seqA seqB wghA wghB resA resB prsA prsB score_dict →
  align_pairwise seqA seqB wghA wghB resA resB prsA prsB score_dict
    scale sonority_factor mode = Undefined.
Proof.
  intros Hmode Hvalid. unfold align_pairwise.
  rewrite select_kernel_unknown by done.
  by apply align_pair_unassigned.
Qed.

Lemma unknown_mode_never_reported_witness :
  align_pairwise ["a"; "b"] ["a"] [-1; -1] [-1] [0; 0] [0] "VC" "V"
    (uniform_scores ["a"; "b"] 1 (-1)) 1 0 "Global" = Undefined.
Proof.
  apply (unknown_mode_never_reported ["a"; "b"] ["a"] [-1; -1] [-1] [0; 0] [0]
           "VC" "V" (uniform_scores ["a"; "b"] 1 (-1)) 1 0 "Global").
  - vm_compute. intros Hin.
    repeat (apply elem_of_cons in Hin as [Heq|Hin]; [discriminate Heq|]).
    by apply elem_of_nil in Hin.
  - valid_input_tac.
Defined.

(** X3.  Off the borders the scan of the repeats kernel returns the cell
    [(i-1, j-1)] for every traceback: its result does not depend on the
    array it is meant to search. *)
Theorem repeats_scan_blind (tb tb' : Z → Z → Z) (i j : Z) (l : option Z) :
  1 ≤ i → 1 ≤ j →
  repeats_scan tb i j l = (j - 1, Some (i - 1)) ∧
  repeats_scan tb i j l = repeats_scan tb' i j l.
Proof.
  intros Hi Hj. split.
  - by apply repeats_scan_first.
  - by rewrite !repeats_scan_first.
Qed.

Lemma repeats_scan_blind_witness :
  repeats_scan (λ _ _, 0) 3 2 None = (2 - 1, Some (3 - 1)) ∧
  repeats_scan (λ _ _, 0) 3 2 None = repeats_scan (λ _ _, 1) 3 2 None.
Proof. apply (repeats_scan_blind (λ _ _, 0) (λ _ _, 1) 3 2 None); lia. Defined.

(** ** The scenarios of the specification *)

Example scenario_global_singleton :
  align_pairwise ["a"] ["a"] [-1] [-1] [0] [0] "V" "V"
    (uniform_scores ["a"] 1 (-1)) 1 0 "global"
  = Ok (["a"], ["a"], 1).
Proof. vm_compute. reflexivity. Qed.

Example scenario_global_insertion :
  align_pairwise ["a"; "b"] ["a"; "x"; "b"] [-2; -2] [-2; -2; -2]
    [0; 0] [0; 0; 0] "VC" "VCC" (uniform_scores ["a"; "b"; "x"] 1 (-1))
    1 0 "global"
  = Ok (["a"; "-"; "b"], ["a"; "x"; "b"], 0).
Proof. vm_compute. reflexivity. Qed.

Example scenario_local_embedded :
  align_pairwise ["x"; "a"; "b"; "c"; "y"] ["a"; "b"; "c"]
    [-5; -5; -5; -5; -5] [-5; -5; -5] [0; 0; 0; 0; 0] [0; 0; 0]
    "CVCVC" "VCV" (uniform_scores ["a"; "b"; "c"; "x"; "y"] 1 (-1))
    1 0 "local"
  = Ok (["*"; "a"; "b"; "c"; "*"], ["a"; "b"; "c"], 3).
Proof. vm_compute. reflexivity. Qed.

Example scenario_overlap_suffix_prefix :
  align_pairwise ["p"; "q"; "r"; "s"] ["r"; "s"; "t"; "u"]
    [-1; -1; -1; -1] [-1; -1; -1; -1] [0; 0; 0; 0] [0; 0; 0; 0]
    "CVCV" "CVCV" (uniform_scores ["p"; "q"; "r"; "s"; "t"; "u"] 2 (-1))
    1 0 "overlap"
  = Ok (["p"; "q"; "r"; "s"; "-"; "-"], ["-"; "-"; "r"; "s"; "t"; "u"], 4).
Proof. vm_compute. reflexivity. Qed.

Example scenario_dialign_diagonal :
  align_pairwise ["k"; "a"] ["k"; "a"] [0; 0] [0; 0] [0; 0] [0; 0]
    "CV" "CV" (uniform_scores ["k"; "a"] 3 0) 1 0 "dialign"
  = Ok (["k"; "a"], ["k"; "a"], 6).
Proof. vm_compute. reflexivity. Qed.

Example scenario_edit_distance :
  edit_dist ["a"; "b"; "c"] ["a"; "x"; "c"] = Some (1 # 3)%Q.
Proof. vm_compute. reflexivity. Qed.

(** ** The loops end within their budget *)

Lemma traceback_walk_budget (tb : Z → Z → Z) (fuel : nat) :
  ∀ i j almA almB,
    i < 0 ∨ j < 0 ∨ (Z.to_nat (i + j) ≤ fuel)%nat →
    traceback_walk fuel tb i j almA almB ≠ OutOfFuel.
Proof.
  induction fuel as [|fuel IH]; intros i j almA almB Hij.
  - simpl. repeat case_branch; try done. lia.
  - simpl. repeat case_branch; try done; apply IH; lia.
Qed.

Lemma local_walk_budget (tb : Z → Z → Z) (fuel : nat) :
  ∀ i j almA almB,
    i < 0 ∨ j < 0 ∨ (Z.to_nat (i + j) < fuel)%nat →
    local_walk fuel tb i j almA almB ≠ OutOfFuel.
Proof.
  induction fuel as [|fuel IH]; intros i j almA almB Hij.
  - simpl. repeat case_branch; try done. lia.
  - simpl. repeat case_branch; try done; apply IH; lia.
Qed.

(** With no row above the cell the scan runs through every column and ends
    with [k = -1]. *)
Lemma repeats_scan_outer_top (tb : Z → Z → Z) (fuel : nat) :
  ∀ i k l,
    i ≤ 0 → -1 ≤ k → (Z.to_nat (k + 1) ≤ fuel)%nat →
    (repeats_scan_outer fuel tb i k l).1 = -1.
Proof.
  induction fuel as [|fuel IH]; intros i k l Hi Hk Hfuel.
  - simpl. assert (k = -1) as -> by lia. done.
  - simpl. destruct (Z.leb_spec 0 k) as [Hk0|Hk0]; [|simpl; lia].
    unfold repeats_scan_inner.
    replace (0 <=? i - 1) with false by lia.
    apply IH; lia.
Qed.

(** The scan either ends outside the arrays, on column -1, or in the cell
    [(i-1, j-1)]. *)
Lemma repeats_scan_cases (tb : Z → Z → Z) (i j : Z) (l : option Z) :
  0 ≤ i → 0 ≤ j →
  (repeats_scan tb i j l).1 < 0 ∨
  (1 ≤ i ∧ 1 ≤ j ∧ repeats_scan tb i j l = (j - 1, Some (i - 1))).
Proof.
  intros Hi Hj.
  destruct (Z_lt_le_dec i 1) as [Hi0|Hi1].
  { left. unfold repeats_scan. rewrite repeats_scan_outer_top; lia. }
  destruct (Z_lt_le_dec j 1) as [Hj0|Hj1].
  { left. assert (j = 0) as -> by lia. done. }
  right. by rewrite repeats_scan_first.
Qed.

Lemma repeats_walk_budget {F : Type} `{FloatOps F} (st : dp F) (fuel : nat) :
  ∀ i j l sim almA almB,
    i < 0 ∨ j < 0 ∨ (Z.to_nat (i + j) ≤ fuel)%nat →
    repeats_walk fuel st i j l sim almA almB ≠ OutOfFuel.
Proof.
  induction fuel as [|fuel IH]; intros i j l sim almA almB Hij.
  - simpl. repeat case_branch; try done. lia.
  - simpl.
    destruct ((0 <? i) || (0 <? j)) eqn:Hgo; [|done].
    destruct ((i <? 0) || (j <? 0)) eqn:Hout; [done|].
    destruct (traceback st i j =? 3); [apply IH; lia|].
    destruct (traceback st i j =? 1); [apply IH; lia|].
    destruct (traceback st i j =? 2); [apply IH; lia|].
    destruct (repeats_scan_cases (traceback st) i j l) as [Hk|(Hi & Hj & ->)];
      [lia|lia| |].
    + destruct (repeats_scan (traceback st) i j l) as [k [l'|]]; [|done].
      simpl in Hk. by replace ((k <? 0) || (l' <? 0)) with true by lia.
    + case_branch; [done|]. apply IH. lia.
Qed.

Lemma local_fill_tracked {F : Type} `{FloatOps F} (arrayA : Z → Z) (lA : Z)
    (arrayB : Z → Z) (lB : Z) (scorer : Z → Z → F) (scale : F) :
  max_tracked lA lB (local_fill arrayA lA arrayB lB scorer scale).
Proof.
  unfold local_fill.
  apply (fill_cells_Inv lA lB (local_cell arrayA lA arrayB lB scorer scale)
           (max_tracked lA lB)).
  - intros i j ls Hi Hj Hls. unfold local_cell.
    repeat case_branch; simpl; try (right; by exists i, j); exact Hls.
  - by left.
Qed.

Lemma bind_within_budget {A B : Type} (m : outcome A) (f : A → outcome B) :
  m ≠ OutOfFuel → (∀ x, f x ≠ OutOfFuel) → m ≫= f ≠ OutOfFuel.
Proof. intros Hm Hf. destruct m; [apply Hf|done|done|done]. Qed.

(** X4.  No kernel exhausts the budget of [lA + lB] rounds of its traceback
    loop (one more for the local kernel), whatever the arrays hold: a call
    returns or is undefined. *)
Theorem kernels_within_budget {F : Type} `{FloatOps F} (mode : string)
    (k : kernel) (arrayA : Z → Z) (lA : Z) (arrayB : Z → Z) (lB : Z)
    (scorer : Z → Z → F) (scale : F) (almA almB : Z → Z) :
  select_kernel mode = Some k →
  k arrayA lA arrayB lB scorer scale almA almB ≠ OutOfFuel.
Proof.
  unfold select_kernel. intros Hk.
  repeat case_match; simplify_eq.
  - unfold _global. destruct (bad_dims lA lB) eqn:Hdims; [done|].
    cbv zeta. apply bind_within_budget; [|by intros [a b]].
    apply traceback_walk_budget. unfold bad_dims, walk_fuel in *. lia.
  - unfold _local. case_branch; [done|].
    pose proof (local_fill_tracked arrayA lA arrayB lB scorer scale) as Htr.
    cbv zeta.
    destruct Htr as [(-> & _)|(i & j & -> & -> & Hi & Hj)]; [done|].
    apply bind_within_budget; [|by intros [[[i' j'] a] b]].
    apply local_walk_budget. unfold walk_fuel. lia.
  - unfold _repeats. destruct (bad_dims lA lB) eqn:Hdims; [done|].
    cbv zeta. apply repeats_walk_budget.
    unfold bad_dims, walk_fuel in *. lia.
  - unfold _overlap. destruct (bad_dims lA lB) eqn:Hdims; [done|].
    cbv zeta. apply bind_within_budget; [|by intros [a b]].
    apply traceback_walk_budget. unfold bad_dims, walk_fuel in *. lia.
  - unfold _dialign. destruct (bad_dims lA lB) eqn:Hdims; [done|].
    cbv zeta. apply bind_within_budget; [|by intros [a b]].
    apply traceback_walk_budget. unfold bad_dims, walk_fuel in *. lia.
Qed.

Lemma kernels_within_budget_witness :
  select_kernel "repeats" = Some (@_repeats Z Z_float) ∧
  _repeats (λ _, 0) 2 (λ _, 0) 1 demo_scorer 1 (λ _, 0) (λ _, 0) ≠ OutOfFuel.
Proof.
  split; [reflexivity|].
  apply (kernels_within_budget "repeats" _repeats
           (λ _, 0) 2 (λ _, 0) 1 demo_scorer 1 (λ _, 0) (λ _, 0)).
  reflexivity.
Defined.

(** ** edit_dist at the edges *)

Lemma levenshtein_lower (seqA seqB : list string) (i j : nat) :
  Z.abs (Z.of_nat i - Z.of_nat j) ≤ levenshtein seqA seqB i j.
Proof.
  revert j. induction i as [|i IHi]; intros j.
  - rewrite levenshtein_0_l. lia.
  - induction j as [|j IHj].
    + rewrite levenshtein_0_r. lia.
    + rewrite levenshtein_S.
      pose proof (IHi (S j)). pose proof (IHi j).
      destruct (sym_eqb seqA seqB _ _); lia.
Qed.

Lemma levenshtein_zero (seqA seqB : list string) (i j : nat) :
  levenshtein seqA seqB i j = 0 →
  i = j ∧ ∀ k, (k < i)%nat → seqA !! k = seqB !! k.
Proof.
  revert j. induction i as [|i IHi]; intros j Hz.
  - rewrite levenshtein_0_l in Hz. split; [lia|]. intros k Hk. lia.
  - destruct j as [|j].
    { rewrite levenshtein_0_r in Hz. lia. }
    rewrite levenshtein_S in Hz.
    pose proof (levenshtein_bounds seqA seqB i (S j)).
    pose proof (levenshtein_bounds seqA seqB (S i) j).
    pose proof (levenshtein_bounds seqA seqB i j).
    unfold sym_eqb in Hz.
    destruct (bool_decide_reflect
                (seqA !! Z.to_nat (Z.of_nat (S j) - 1)
                 = seqB !! Z.to_nat (Z.of_nat (S i) - 1))) as [Heq|Hne];
      [|lia].
    destruct (IHi j) as [-> Hpre]; [lia|].
    split; [done|]. intros k Hk.
    destruct (decide (k = j)) as [->|Hkj].
    + replace (Z.to_nat (Z.of_nat (S j) - 1)) with j in Heq by lia. done.
    + apply Hpre. lia.
Qed.

Lemma levenshtein_disjoint (seqA seqB : list string) (i j : nat) :
  (∀ a, a ∈ seqA → a ∉ seqB) →
  (i ≤ length seqB)%nat → (j ≤ length seqA)%nat →
  levenshtein seqA seqB i j = Z.max (Z.of_nat i) (Z.of_nat j).
Proof.
  intros Hdis. revert j. induction i as [|i IHi]; intros j Hi Hj.
  - rewrite levenshtein_0_l. lia.
  - induction j as [|j IHj].
    + rewrite levenshtein_0_r. lia.
    + rewrite levenshtein_S, IHj, !IHi by lia.
      replace (sym_eqb seqA seqB (Z.of_nat (S i)) (Z.of_nat (S j))) with false; [lia|].
      symmetry. apply bool_decide_eq_false.
      replace (Z.to_nat (Z.of_nat (S j) - 1)) with j by lia.
      replace (Z.to_nat (Z.of_nat (S i) - 1)) with i by lia.
      destruct (lookup_lt_is_Some_2 seqA j) as [a Ha]; [lia|].
      destruct (lookup_lt_is_Some_2 seqB i) as [b Hb]; [lia|].
      rewrite Ha, Hb. intros [= ->].
      apply (Hdis b); by eapply list_elem_of_lookup_2.
Qed.

(** X5.  Without a symbol on either side the quotient is 0.0 / 0.0; against the
    empty sequence every non-empty sequence is at distance 1. *)
Theorem edit_dist_empty (seqA seqB : list string) (a : string) (seq : list string) :
  (edit_dist seqA seqB = None ↔ seqA = [] ∧ seqB = []) ∧
  ∃ d d' : Q,
    edit_dist (a :: seq) [] = Some d ∧ edit_dist [] (a :: seq) = Some d' ∧
    (d == 1)%Q ∧ (d' == 1)%Q.
Proof.
  split.
  - split.
    + intros Hnone.
      destruct (decide (seqA = [] ∧ seqB = [])) as [|Hne]; [done|].
      rewrite (edit_dist_levenshtein seqA seqB _ _ eq_refl eq_refl) in Hnone;
        [done|].
      destruct seqA, seqB; [by destruct Hne|by right|by left|by left].
    + by intros [-> ->].
  - rewrite !(edit_dist_levenshtein _ _ _ _ eq_refl eq_refl) by auto.
    eexists _, _. repeat split.
    + rewrite levenshtein_0_l. unfold Qeq. simpl Qnum. simpl Qden.
      simpl length. lia.
    + rewrite levenshtein_0_r. unfold Qeq. simpl Qnum. simpl Qden.
      simpl length. lia.
Qed.

(** X6.  Distance 0 means equal sequences. *)
Theorem edit_dist_zero_iff_equal (seqA seqB : list string) (d : Q) :
  edit_dist seqA seqB = Some d → ((d == 0)%Q ↔ seqA = seqB).
Proof.
  intros Hd.
  assert (seqA ≠ [] ∨ seqB ≠ []) as Hne.
  { destruct seqA, seqB; first [done|by left|by right]. }
  rewrite (edit_dist_levenshtein seqA seqB _ _ eq_refl eq_refl) in Hd by done.
  injection Hd as <-. unfold Qeq. simpl Qnum. simpl Qden. split.
  - intros Hz.
    assert (levenshtein seqA seqB (length seqB) (length seqA) = 0) as Hlev by lia.
    apply levenshtein_zero in Hlev as [Hlen Hpre].
    apply list_eq. intros k.
    destruct (decide (k < length seqB)%nat) as [Hk|Hk]; [by apply Hpre|].
    rewrite !lookup_ge_None_2; [done|lia..].
  - intros ->. rewrite levenshtein_diag. lia.
Qed.

Lemma edit_dist_zero_iff_equal_witness :
  edit_dist ["a"; "b"] ["a"; "b"] = Some (0 # 2)%Q ∧
  ((0 # 2 == 0)%Q ↔ ["a"; "b"] = ["a"; "b"]).
Proof.
  split; [vm_compute; reflexivity|].
  apply (edit_dist_zero_iff_equal ["a"; "b"] ["a"; "b"] (0 # 2)%Q).
  vm_compute. reflexivity.
Defined.



(** X8.  Two sequences without a common symbol are at distance 1. *)
Theorem edit_dist_disjoint (seqA seqB : list string) (d : Q) :
  edit_dist seqA seqB = Some d →
  (∀ a, a ∈ seqA → a ∉ seqB) →
  (d == 1)%Q.
Proof.
  intros Hd Hdis.
  assert (seqA ≠ [] ∨ seqB ≠ []) as Hne.
  { destruct seqA, seqB; first [done|by left|by right]. }
  assert (0 < Z.max (Z.of_nat (length seqB)) (Z.of_nat (length seqA))) as Hmax.
  { destruct Hne as [Hne|Hne].
    - destruct seqA; [done|]. simpl length. lia.
    - destruct seqB; [done|]. simpl length. lia. }
  rewrite (edit_dist_levenshtein seqA seqB _ _ eq_refl eq_refl) in Hd by done.
  injection Hd as <-. rewrite levenshtein_disjoint by (done || lia).
  unfold Qeq. simpl Qnum. simpl Qden. rewrite Z2Pos.id by lia. lia.
Qed.

Lemma edit_dist_disjoint_witness : (3 # 3 == 1)%Q.
Proof.
  apply (edit_dist_disjoint ["a"; "b"; "c"] ["x"; "y"] (3 # 3)%Q).
  - vm_compute. reflexivity.
  - intros a Ha Hx.
    repeat (apply elem_of_cons in Ha as [->|Ha]);
      try (by apply elem_of_nil in Ha);
      repeat (apply elem_of_cons in Hx as [Hx|Hx]; [discriminate Hx|]);
      by apply elem_of_nil in Hx.
Defined.

(** ** The retrieval writes the gap counts out *)

Lemma insert_gaps_at (k : nat) (n : Z) (out : list string) :
  0 ≤ n → (k ≤ length out)%nat →
  for_range 0 n (λ _ o, py_insert k "-" o) out
  = take k out ++ replicate (Z.to_nat n) "-" ++ drop k out.
Proof.
  intros Hn Hk.
  apply (for_range_ind
           (λ m o, o = take k out ++ replicate (Z.to_nat m) "-" ++ drop k out)
           0 n); [done| |].
  - simpl. by rewrite take_drop.
  - intros m o Hm ->. unfold py_insert.
    rewrite take_app_length', drop_app_length' by (rewrite length_take; lia).
    replace (Z.to_nat (m + 1)) with (S (Z.to_nat m)) by lia. done.
Qed.

(** One round, on the symbol that stands at index [k]. *)
Lemma retrieve_step_place (alm : Z → Z) (k : nat) (pre : list string)
    (x : string) (rest : list string) :
  length pre = k →
  retrieve_step alm k (pre ++ x :: rest)
  = Ok (pre ++ place (alm (Z.of_nat k)) x ++ rest).
Proof.
  intros <-. unfold retrieve_step, place.
  destruct (Z.ltb_spec 0 (alm (Z.of_nat (length pre)))) as [Hpos|Hle].
  - rewrite insert_gaps_at by (rewrite ?length_app; simpl; lia).
    rewrite take_app_length, drop_app_length.
    replace (alm (Z.of_nat (length pre)) <? 0) with false by lia.
    by rewrite <- !app_assoc.
  - destruct (Z.ltb_spec (alm (Z.of_nat (length pre))) 0) as [Hneg|Hz].
    + replace (length pre <? length (pre ++ x :: rest))%nat with true.
      2:{ symmetry. apply Nat.ltb_lt. rewrite length_app. simpl. lia. }
      rewrite insert_app_r_alt by lia. by rewrite Nat.sub_diag.
    + by replace (alm (Z.of_nat (length pre))) with 0 by lia.
Qed.

(** The rounds [k = length pre, ..., 0] place the symbols of [pre ++ [x]]
    and leave [rest] alone. *)
Lemma retrieve_prefix (alm : Z → Z) (k : nat) :
  ∀ (pre : list string) (x : string) (rest : list string),
    length pre = k →
    retrieve alm k (pre ++ x :: rest)
    = Ok (concat (imap (λ k y, place (alm (Z.of_nat k)) y) (pre ++ [x])) ++ rest).
Proof.
  induction k as [|k IH]; intros pre x rest Hlen.
  - destruct pre; [|done]. cbn [retrieve].
    rewrite (retrieve_step_place alm 0 [] x rest) by done.
    simpl. by rewrite app_nil_r.
  - destruct pre as [|y pre _] using rev_ind; [done|].
    rewrite length_app in Hlen. simpl in Hlen.
    cbn [retrieve].
    rewrite retrieve_step_place by (rewrite length_app; simpl; lia).
    cbn [mbind outcome_bind].
    rewrite <- (app_assoc pre [y]). simpl app at 1.
    rewrite IH by lia.
    rewrite (imap_app _ (pre ++ [y]) [x]), concat_app. simpl.
    rewrite app_nil_r, Nat.add_0_r, length_app. simpl length.
    replace (length pre + 1)%nat with (S k) by lia.
    by rewrite <- !app_assoc.
Qed.

Lemma retrieve_assemble (alm : Z → Z) (seq : list string) :
  retrieve alm (length seq) seq
  = if alm (Z.of_nat (length seq)) <? 0 then Raised IndexError
    else Ok (assemble alm seq).
Proof.
  unfold assemble.
  destruct seq as [|x seq _] using rev_ind.
  - simpl. unfold retrieve_step. change (Z.of_nat 0) with 0.
    destruct (Z.ltb_spec 0 (alm 0)) as [Hpos|Hle].
    + rewrite insert_gaps_at by (simpl; lia). simpl.
      replace (alm 0 <? 0) with false by lia. by rewrite app_nil_r.
    + destruct (Z.ltb_spec (alm 0) 0) as [Hneg|Hz]; [done|].
      by replace (alm 0) with 0 by lia.
  - assert (length (seq ++ [x]) = S (length seq)) as Hlen
      by (rewrite length_app; simpl; lia).
    rewrite Hlen. cbn [retrieve]. unfold retrieve_step at 1.
    destruct (Z.ltb_spec 0 (alm (Z.of_nat (S (length seq))))) as [Hpos|Hle].
    + rewrite insert_gaps_at by lia.
      rewrite take_ge, drop_ge by lia. rewrite app_nil_r.
      replace (alm (Z.of_nat (S (length seq))) <? 0) with false by lia.
      cbn [mbind outcome_bind].
      rewrite <- app_assoc. simpl app at 1.
      by rewrite retrieve_prefix.
    + destruct (Z.ltb_spec (alm (Z.of_nat (S (length seq)))) 0) as [Hneg|Hz].
      * rewrite Hlen.
        by replace (S (length seq) <? S (length seq))%nat with false
          by (symmetry; apply Nat.ltb_ge; lia).
      * cbn [mbind outcome_bind].
        rewrite <- (app_nil_r (seq ++ [x])) at 1.
        rewrite <- app_assoc. simpl app at 1.
        rewrite retrieve_prefix by done.
        by replace (alm (Z.of_nat (S (length seq)))) with 0 by lia.
Qed.

(** X9.  The retrieval loop of the drivers returns the sequence with [alm k] gaps
    before the symbol at index [k] and [alm (length seq)] gaps at the end,
    with ["*"] for every symbol whose count is negative; a negative count at
    index [length seq] is an assignment past the end of the list. *)
Theorem retrieve_assembles (alm : Z → Z) (seq : list string) :
  retrieve alm (length seq) seq
  = if alm (Z.of_nat (length seq)) <? 0 then Raised IndexError
    else Ok (assemble alm seq).
Proof. apply retrieve_assemble. Qed.

Lemma strip_gaps_replicate (n : nat) : strip_gaps (replicate n "-") = [].
Proof.
  unfold strip_gaps. induction n as [|n IH]; [done|].
  simpl. by rewrite filter_cons_False by (intros Hne; by apply Hne).
Qed.

Lemma strip_gaps_place (a : Z) (x : string) :
  0 ≤ a → strip_gaps (place a x) = strip_gaps [x].
Proof.
  intros Ha. unfold place. replace (a <? 0) with false by lia.
  unfold strip_gaps. rewrite filter_app.
  pose proof (strip_gaps_replicate (Z.to_nat a)) as Hr.
  unfold strip_gaps in Hr. by rewrite Hr.
Qed.

Lemma strip_gaps_concat (g : nat → string → list string) (seq : list string) :
  (∀ k x, strip_gaps (g k x) = strip_gaps [x]) →
  strip_gaps (concat (imap g seq)) = strip_gaps seq.
Proof.
  revert g. induction seq as [|x seq IH]; intros g Hg; [done|].
  rewrite imap_cons. cbn [concat]. unfold strip_gaps in *.
  rewrite filter_app, (IH (g ∘ S)) by (intros k y; apply Hg).
  rewrite Hg. by rewrite <- filter_app.
Qed.

Lemma strip_gaps_assemble (alm : Z → Z) (seq : list string) :
  (∀ k, 0 ≤ alm k) → strip_gaps (assemble alm seq) = strip_gaps seq.
Proof.
  intros Hpos. unfold assemble.
  unfold strip_gaps at 1. rewrite filter_app.
  fold (strip_gaps (replicate (Z.to_nat (alm (Z.of_nat (length seq)))) "-")).
  rewrite strip_gaps_replicate, app_nil_r.
  apply (strip_gaps_concat (λ k x, place (alm (Z.of_nat k)) x)).
  intros k x. by apply strip_gaps_place.
Qed.

Lemma length_concat_ge (g : nat → string → list string) (seq : list string) :
  (∀ k x, 1 ≤ length (g k x))%nat →
  (length seq ≤ length (concat (imap g seq)))%nat.
Proof.
  revert g. induction seq as [|x seq IH]; intros g Hg; [done|].
  rewrite imap_cons. cbn [concat]. rewrite length_app.
  specialize (IH (g ∘ S) (λ k y, Hg _ _)). specialize (Hg 0%nat x).
  simpl length at 1. lia.
Qed.

Lemma length_assemble_ge (alm : Z → Z) (seq : list string) :
  (length seq ≤ length (assemble alm seq))%nat.
Proof.
  unfold assemble. rewrite length_app.
  pose proof (length_concat_ge (λ k x, place (alm (Z.of_nat k)) x) seq) as Hl.
  etrans; [apply Hl|lia].
  intros k x. unfold place. case_branch; [done|]. rewrite length_app. simpl. lia.
Qed.

(** ** What a returned walk has added *)

Lemma traceback_walk_outside (tb : Z → Z → Z) (fuel : nat) (i j : Z)
    (almA almB : Z → Z) :
  (i < 0 ∧ 0 < j) ∨ (j < 0 ∧ 0 < i) →
  traceback_walk fuel tb i j almA almB = Undefined.
Proof.
  intros Hout. destruct fuel; simpl.
  - replace ((0 <? i) || (0 <? j)) with true by lia.
    by replace ((i <? 0) || (j <? 0)) with true by lia.
  - replace ((0 <? i) || (0 <? j)) with true by lia.
    by replace ((i <? 0) || (j <? 0)) with true by lia.
Qed.

Lemma traceback_walk_gapsA (lA : Z) (tb : Z → Z → Z) (fuel : nat) :
  ∀ i j almA almB almA' almB',
    j ≤ lA →
    traceback_walk fuel tb i j almA almB = Ok (almA', almB') →
    gap_total almA' (Z.to_nat lA) ≤ gap_total almA (Z.to_nat lA) + Z.max i 0.
Proof.
  induction fuel as [|fuel IH]; intros i j almA almB almA' almB' Hj Hw.
  - simpl in Hw.
    destruct ((0 <? i) || (0 <? j)) eqn:Hgo; [|simplify_eq; lia].
    by destruct ((i <? 0) || (j <? 0)).
  - simpl in Hw.
    destruct ((0 <? i) || (0 <? j)) eqn:Hgo; [|simplify_eq; lia].
    destruct ((i <? 0) || (j <? 0)) eqn:Hin; [done|].
    destruct (tb i j =? 3).
    { destruct (decide (i = 0)) as [->|Hi].
      { rewrite traceback_walk_outside in Hw by lia. done. }
      apply IH in Hw; [|done]. rewrite gap_total_upd in Hw by lia. lia. }
    destruct (tb i j =? 1).
    { apply IH in Hw; lia. }
    apply IH in Hw; lia.
Qed.

Lemma repeats_walk_outside {F : Type} `{FloatOps F} (st : dp F) (fuel : nat)
    (i j : Z) (l : option Z) (sim : F) (almA almB : Z → Z) :
  (i < 0 ∧ 0 < j) ∨ (j < 0 ∧ 0 < i) →
  repeats_walk fuel st i j l sim almA almB = Undefined.
Proof.
  intros Hout. destruct fuel; simpl.
  - replace ((0 <? i) || (0 <? j)) with true by lia.
    by replace ((i <? 0) || (j <? 0)) with true by lia.
  - replace ((0 <? i) || (0 <? j)) with true by lia.
    by replace ((i <? 0) || (j <? 0)) with true by lia.
Qed.

Lemma repeats_walk_gapsA {F : Type} `{FloatOps F} (lA : Z) (st : dp F)
    (fuel : nat) :
  ∀ i j l sim almA almB sim' almA' almB',
    j ≤ lA →
    repeats_walk fuel st i j l sim almA almB = Ok (sim', almA', almB') →
    gap_total almA' (Z.to_nat lA) ≤ gap_total almA (Z.to_nat lA) + Z.max i 0.
Proof.
  induction fuel as [|fuel IH]; intros i j l sim almA almB sim' almA' almB' Hj Hw.
  - simpl in Hw.
    destruct ((0 <? i) || (0 <? j)) eqn:Hgo; [|simplify_eq; lia].
    by destruct ((i <? 0) || (j <? 0)).
  - simpl in Hw.
    destruct ((0 <? i) || (0 <? j)) eqn:Hgo; [|simplify_eq; lia].
    destruct ((i <? 0) || (j <? 0)) eqn:Hin; [done|].
    destruct (traceback st i j =? 3).
    { destruct (decide (i = 0)) as [->|Hi].
      { rewrite repeats_walk_outside in Hw by lia. done. }
      apply IH in Hw; [|done]. rewrite gap_total_upd in Hw by lia. lia. }
    destruct (traceback st i j =? 1).
    { apply IH in Hw; lia. }
    destruct (traceback st i j =? 2).
    { apply IH in Hw; lia. }
    destruct (repeats_scan_cases (traceback st) i j l) as [Hk|(Hi & Hj1 & Hs)];
      [lia|lia| |].
    + destruct (repeats_scan (traceback st) i j l) as [k [l'|]]; [|done].
      simpl in Hk. by replace ((k <? 0) || (l' <? 0)) with true in Hw by lia.
    + rewrite Hs in Hw.
      replace ((j - 1 <? 0) || (i - 1 <? 0)) with false in Hw by lia.
      replace (j - (j - 1) + (i - (i - 1)) - (j - (j - 1))) with 1 in Hw by lia.
      replace (j - (j - 1) + (i - (i - 1)) - (i - (i - 1))) with 1 in Hw by lia.
      replace (j - (j - (j - 1))) with (j - 1) in Hw by lia.
      rewrite !add_gaps_one in Hw.
      apply IH in Hw; [|lia]. rewrite gap_total_upd in Hw by lia. lia.
Qed.

(** ** Kernels that count gaps *)

Section CountingKernels.
Context {F : Type} `{FloatOps F}.

Lemma bad_dims_true_inv (lA lB : Z) : bad_dims lA lB = false → 0 ≤ lA ∧ 1 ≤ lB.
Proof. unfold bad_dims. lia. Qed.

Lemma gapped_counting (k : (Z → Z) → Z → (Z → Z) → Z → (Z → Z → F) → F →
    (Z → Z) → (Z → Z) → outcome (F * (Z → Z) * (Z → Z))) :
  gapped_kernel k →
  (∀ arrayA lA arrayB lB scorer scale almA almB sim almA' almB',
     k arrayA lA arrayB lB scorer scale almA almB = Ok (sim, almA', almB') →
     0 ≤ lA ∧ 1 ≤ lB ∧
     gap_total almA' (Z.to_nat lA) ≤ gap_total almA (Z.to_nat lA) + lB) →
  counting_kernel k.
Proof.
  intros Hg Hb arrayA lA arrayB lB scorer scale almA almB sim almA' almB' Hk.
  destruct (Hb _ _ _ _ _ _ _ _ _ _ _ Hk) as (HlA & HlB & Hbound).
  repeat split; try done;
    destruct (Hg arrayA lA arrayB lB scorer scale almA almB HlA HlB)
      as (sim2 & almA2 & almB2 & Hk2 & Hbal);
    rewrite Hk in Hk2; injection Hk2 as <- <- <-; apply Hbal.
Qed.

Lemma global_counting : counting_kernel (F := F) _global.
Proof.
  apply gapped_counting; [apply global_gapped|].
  intros arrayA lA arrayB lB scorer scale almA almB sim almA' almB' Hk.
  unfold _global in Hk. destruct (bad_dims lA lB) eqn:Hdims; [done|].
  apply bad_dims_true_inv in Hdims as [HlA HlB]. cbv zeta in Hk.
  destruct (traceback_walk _ _ _ _ _ _) as [[a b]| | |] eqn:Hw; try done.
  simpl in Hk. injection Hk as <- <- <-.
  apply (traceback_walk_gapsA lA) in Hw; lia.
Qed.

Lemma overlap_counting : counting_kernel (F := F) _overlap.
Proof.
  apply gapped_counting; [apply overlap_gapped|].
  intros arrayA lA arrayB lB scorer scale almA almB sim almA' almB' Hk.
  unfold _overlap in Hk. destruct (bad_dims lA lB) eqn:Hdims; [done|].
  apply bad_dims_true_inv in Hdims as [HlA HlB]. cbv zeta in Hk.
  destruct (traceback_walk _ _ _ _ _ _) as [[a b]| | |] eqn:Hw; try done.
  simpl in Hk. injection Hk as <- <- <-.
  apply (traceback_walk_gapsA lA) in Hw; lia.
Qed.

Lemma dialign_counting : counting_kernel (F := F) _dialign.
Proof.
  apply gapped_counting; [apply dialign_gapped|].
  intros arrayA lA arrayB lB scorer scale almA almB sim almA' almB' Hk.
  unfold _dialign in Hk. destruct (bad_dims lA lB) eqn:Hdims; [done|].
  apply bad_dims_true_inv in Hdims as [HlA HlB]. cbv zeta in Hk.
  destruct (traceback_walk _ _ _ _ _ _) as [[a b]| | |] eqn:Hw; try done.
  simpl in Hk. injection Hk as <- <- <-.
  apply (traceback_walk_gapsA lA) in Hw; lia.
Qed.

Lemma repeats_counting : counting_kernel (F := F) _repeats.
Proof.
  apply gapped_counting; [apply repeats_gapped|].
  intros arrayA lA arrayB lB scorer scale almA almB sim almA' almB' Hk.
  unfold _repeats in Hk. destruct (bad_dims lA lB) eqn:Hdims; [done|].
  apply bad_dims_true_inv in Hdims as [HlA HlB]. cbv zeta in Hk.
  apply (repeats_walk_gapsA lA) in Hk; lia.
Qed.

Lemma select_counting (mode : string) :
  mode ∈ ["global"; "overlap"; "repeats"; "dialign"] →
  ∃ k, select_kernel mode = Some k ∧ counting_kernel k.
Proof.
  intros Hmode.
  repeat (apply elem_of_cons in Hmode as [->|Hmode]);
    [..|by apply elem_of_nil in Hmode]; eexists; (split; [reflexivity|]).
  - apply global_counting.
  - apply overlap_counting.
  - apply repeats_counting.
  - apply dialign_counting.
Qed.

(** What a returned call of the block for one pair went through. *)
Lemma align_pair_Ok (key : string → string → string * string)
    (align : option kernel)
    (seqA seqB : list string) (wghA wghB : list F) (resA resB : list Z)
    (prsA prsB : string) (score_dict : gmap (string * string) F)
    (scale sonority_factor : F) (outA outB : list string) (sim : F) :
  align_pair key align seqA seqB wghA wghB resA resB prsA prsB score_dict
    scale sonority_factor = Ok (outA, outB, sim) →
  ∃ k scorer arrayA arrayB almA almB,
    align = Some k ∧
    build_scorer key seqA seqB wghA wghB prsA prsB score_dict sonority_factor
    = Ok scorer ∧
    int_array resA (Z.of_nat (length seqA)) = Ok arrayA ∧
    int_array resB (Z.of_nat (length seqB)) = Ok arrayB ∧
    k arrayA (Z.of_nat (length seqA)) arrayB (Z.of_nat (length seqB))
      scorer scale (λ _, 0) (λ _, 0) = Ok (sim, almA, almB) ∧
    retrieve almA (length seqA) seqA = Ok outA ∧
    retrieve almB (length seqB) seqB = Ok outB.
Proof.
  unfold align_pair. intros Hp.
  destruct (build_scorer _ _ _ _ _ _ _ _ _) as [scorer| | |]; try done.
  destruct (int_array resA _) as [arrayA| | |]; try done.
  destruct (int_array resB _) as [arrayB| | |]; try done.
  cbn [mbind outcome_bind] in Hp.
  destruct align as [k|]; [|done].
  destruct (k _ _ _ _ _ _ _ _) as [[[sim' almA] almB]| | |] eqn:Hk; try done.
  cbn [mbind outcome_bind] in Hp.
  destruct (retrieve almA _ _) as [oA| | |] eqn:HoA; try done.
  destruct (retrieve almB _ _) as [oB| | |] eqn:HoB; try done.
  cbn [mbind outcome_bind] in Hp. injection Hp as <- <- <-.
  by exists k, scorer, arrayA, arrayB, almA, almB.
Qed.

(** With a counting kernel the two outputs are the inputs with gaps put in. *)
Lemma align_pair_counting (key : string → string → string * string)
    (k : kernel)
    (seqA seqB : list string) (wghA wghB : list F) (resA resB : list Z)
    (prsA prsB : string) (score_dict : gmap (string * string) F)
    (scale sonority_factor : F) (outA outB : list string) (sim : F) :
  counting_kernel k →
  align_pair key (Some k) seqA seqB wghA wghB resA resB prsA prsB score_dict
    scale sonority_factor = Ok (outA, outB, sim) →
  ∃ almA almB,
    (∀ x, 0 ≤ almA x) ∧ (∀ x, 0 ≤ almB x) ∧
    gap_total almA (length seqA) - gap_total almB (length seqB)
    = Z.of_nat (length seqB) - Z.of_nat (length seqA) ∧
    gap_total almA (length seqA) ≤ Z.of_nat (length seqB) ∧
    outA = assemble almA seqA ∧ outB = assemble almB seqB.
Proof.
  intros Hcount Hp.
  apply align_pair_Ok in Hp
    as (k' & scorer & arrayA & arrayB & almA & almB & [= <-] & _ & _ & _ & Hk
        & HoA & HoB).
  apply Hcount in Hk as (_ & _ & (HA & HB & Hsum) & Hbound).
  rewrite !Nat2Z.id, !gap_total_zero in *.
  exists almA, almB.
  rewrite retrieve_assemble in HoA, HoB.
  replace (almA (Z.of_nat (length seqA)) <? 0) with false in HoA
    by (specialize (HA (Z.of_nat (length seqA))); lia).
  replace (almB (Z.of_nat (length seqB)) <? 0) with false in HoB
    by (specialize (HB (Z.of_nat (length seqB))); lia).
  injection HoA as <-. injection HoB as <-.
  repeat split; (done || lia).
Qed.
End CountingKernels.

Lemma length_assemble (alm : Z → Z) (seq : list string) :
  (∀ k, 0 ≤ alm k) →
  Z.of_nat (length (assemble alm seq))
  = Z.of_nat (length seq) + gap_total alm (length seq).
Proof.
  intros Hpos.
  destruct (retrieve_length alm (length seq) (λ k _, Hpos k) seq)
    as (out & Hr & Hlen).
  rewrite retrieve_assemble in Hr.
  replace (alm (Z.of_nat (length seq)) <? 0) with false in Hr
    by (specialize (Hpos (Z.of_nat (length seq))); lia).
  by injection Hr as <-.
Qed.

(** X10.  In the modes global, overlap, repeats and dialign, whenever
    [align_pairwise] returns, each output is its input with gap symbols put
    in: no symbol is lost, changed or moved. *)
Theorem gaps_stripped_give_input {F : Type} `{FloatOps F}
    (seqA seqB : list string) (wghA wghB : list F) (resA resB : list Z)
    (prsA prsB : string) (score_dict : gmap (string * string) F)
    (scale sonority_factor : F) (mode : string)
    (outA outB : list string) (sim : F) :
  mode ∈ ["global"; "overlap"; "repeats"; "dialign"] →
  align_pairwise seqA seqB wghA wghB resA resB prsA prsB score_dict
    scale sonority_factor mode = Ok (outA, outB, sim) →
  strip_gaps outA = strip_gaps seqA ∧ strip_gaps outB = strip_gaps seqB.
Proof.
  intros Hmode Hp. unfold align_pairwise in Hp.
  destruct (select_counting mode Hmode) as (k & Hsel & Hcount).
  rewrite Hsel in Hp.
  apply (align_pair_counting _ _ _ _ _ _ _ _ _ _ _ _ _ _ _ _ Hcount) in Hp
    as (almA & almB & HA & HB & _ & _ & -> & ->).
  split; by apply strip_gaps_assemble.
Qed.

Lemma gaps_stripped_give_input_witness :
  strip_gaps ["a"; "-"; "b"] = strip_gaps ["a"; "b"] ∧
  strip_gaps ["a"; "x"; "b"] = strip_gaps ["a"; "x"; "b"].
Proof.
  apply (gaps_stripped_give_input ["a"; "b"] ["a"; "x"; "b"] [-2; -2]
           [-2; -2; -2] [0; 0] [0; 0; 0] "VC" "VCC"
           (uniform_scores ["a"; "b"; "x"] 1 (-1)) 1 0 "global"
           ["a"; "-"; "b"] ["a"; "x"; "b"] 0).
  - apply list_elem_of_here.
  - vm_compute. reflexivity.
Defined.

(** X11.  In the same modes a returned alignment is at least as long as the longer
    input and at most as long as both together, on either side. *)
Theorem alignment_length_bounds {F : Type} `{FloatOps F}
    (seqA seqB : list string) (wghA wghB : list F) (resA resB : list Z)
    (prsA prsB : string) (score_dict : gmap (string * string) F)
    (scale sonority_factor : F) (mode : string)
    (outA outB : list string) (sim : F) :
  mode ∈ ["global"; "overlap"; "repeats"; "dialign"] →
  align_pairwise seqA seqB wghA wghB resA resB prsA prsB score_dict
    scale sonority_factor mode = Ok (outA, outB, sim) →
  length outB = length outA ∧
  (max (length seqA) (length seqB) ≤ length outA ≤ length seqA + length seqB)%nat.
Proof.
  intros Hmode Hp. unfold align_pairwise in Hp.
  destruct (select_counting mode Hmode) as (k & Hsel & Hcount).
  rewrite Hsel in Hp.
  apply (align_pair_counting _ _ _ _ _ _ _ _ _ _ _ _ _ _ _ _ Hcount) in Hp
    as (almA & almB & HA & HB & Hsum & Hbound & -> & ->).
  pose proof (length_assemble almA seqA HA).
  pose proof (length_assemble almB seqB HB).
  pose proof (length_assemble_ge almA seqA).
  pose proof (length_assemble_ge almB seqB).
  lia.
Qed.

Lemma alignment_length_bounds_witness :
  length ["a"; "x"; "b"] = length ["a"; "-"; "b"] ∧
  (max (length ["a"; "b"]) (length ["a"; "x"; "b"]) ≤ length ["a"; "-"; "b"]
   ≤ length ["a"; "b"] + length ["a"; "x"; "b"])%nat.
Proof.
  apply (alignment_length_bounds ["a"; "b"] ["a"; "x"; "b"] [-2; -2]
           [-2; -2; -2] [0; 0] [0; 0; 0] "VC" "VCC"
           (uniform_scores ["a"; "b"; "x"] 1 (-1)) 1 0 "global"
           ["a"; "-"; "b"] ["a"; "x"; "b"] 0).
  - apply list_elem_of_here.
  - vm_compute. reflexivity.
Defined.

(** ** The local mode on valid input *)

Lemma mark_outside_out (lo hi : Z) (alm : Z → Z) (k : Z) :
  k < lo ∨ hi ≤ k → mark_outside lo hi alm k = alm k.
Proof.
  intros Hk. unfold mark_outside.
  apply (for_range_keep (λ a : Z → Z, a k = alm k)); [done|].
  intros k' a Hk' Ha. rewrite upd_ne by lia. done.
Qed.

Lemma local_walk_mono (tb : Z → Z → Z) (fuel : nat) :
  ∀ i j almA almB i' j' almA' almB',
    local_walk fuel tb i j almA almB = Ok (i', j', almA', almB') →
    (∀ k, almA k ≤ almA' k) ∧ (∀ k, almB k ≤ almB' k).
Proof.
  induction fuel as [|fuel IH]; intros i j almA almB i' j' almA' almB' Hw;
    simpl in Hw;
    destruct ((i <? 0) || (j <? 0)); try done;
    destruct (tb i j =? 0); try (simplify_eq; done).
  destruct (tb i j =? 3).
  { apply IH in Hw as [HA HB]. split; [|done].
    intros k. etrans; [apply (upd_incr_le almA j k)|apply HA]. }
  destruct (tb i j =? 1).
  { by apply IH in Hw. }
  destruct (tb i j =? 2); [|simplify_eq; done].
  apply IH in Hw as [HA HB]. split; [done|].
  intros k. etrans; [apply (upd_incr_le almB i k)|apply HB].
Qed.

(** From gap counts that are all 0 the local kernel returns counts that are
    not negative at the two indices past the sequences. *)
Lemma local_counts_end {F : Type} `{FloatOrder F} (arrayA : Z → Z) (lA : Z)
    (arrayB : Z → Z) (lB : Z) (scorer : Z → Z → F) (scale : F) :
  1 ≤ lA → 1 ≤ lB →
  ∃ sim almA almB,
    _local arrayA lA arrayB lB scorer scale (λ _, 0) (λ _, 0)
    = Ok (sim, almA, almB) ∧
    0 ≤ almA lA ∧ 0 ≤ almB lB.
Proof.
  intros HlA HlB. unfold _local.
  replace ((lB <? 0) || (lA <? 0)) with false by lia.
  destruct (local_fill_last arrayA lA arrayB lB scorer scale HlA HlB)
    as [_ (i & j & -> & -> & Hi & Hj)].
  cbv zeta.
  destruct (local_walk_returns
              (traceback (l_dp (local_fill arrayA lA arrayB lB scorer scale)))
              (S (walk_fuel lA lB))
              (local_fill_border arrayA lA arrayB lB scorer scale) i j
              (mark_outside j lA (λ _, 0)) (mark_outside i lB (λ _, 0)))
    as (i' & j' & almA' & almB' & Hw & Hi' & Hj');
    [lia|lia|unfold walk_fuel; lia|].
  rewrite Hw. simpl. eexists _, _, _. split; [done|].
  apply local_walk_mono in Hw as [HA HB].
  rewrite !mark_outside_out by lia.
  specialize (HA lA). specialize (HB lB).
  rewrite mark_outside_out in HA, HB by lia. lia.
Qed.

(** X12.  In local mode [align_pairwise] returns on every valid input: the
    maximum is assigned, the walk stays inside the arrays, and every ["*"]
    is written inside its list; no output is shorter than its input. *)
Theorem local_mode_returns {F : Type} `{FloatOrder F}
    (seqA seqB : list string) (wghA wghB : list F) (resA resB : list Z)
    (prsA prsB : string) (score_dict : gmap (string * string) F)
    (scale sonority_factor : F) :
  valid_input key_AB seqA seqB wghA wghB resA resB prsA prsB score_dict →
  ∃ outA outB sim,
    align_pairwise seqA seqB wghA wghB resA resB prsA prsB score_dict
      scale sonority_factor "local" = Ok (outA, outB, sim) ∧
    (length seqA ≤ length outA)%nat ∧ (length seqB ≤ length outB)%nat.
Proof.
  intros Hvalid.
  pose proof Hvalid as (HlA & HlB & _ & _ & HrA & HrB & _).
  unfold align_pairwise, align_pair. cbn [select_kernel String.eqb Ascii.eqb].
  destruct (build_scorer_ok key_AB seqA seqB wghA wghB resA resB prsA prsB
              score_dict Hvalid sonority_factor) as (scorer & ->).
  destruct (int_array_ok resA (length seqA) HrA) as (arrayA & ->).
  destruct (int_array_ok resB (length seqB) HrB) as (arrayB & ->).
  cbn [mbind outcome_bind].
  destruct (local_counts_end arrayA (Z.of_nat (length seqA)) arrayB
              (Z.of_nat (length seqB)) scorer scale)
    as (sim & almA & almB & Hk & HA & HB); [lia..|].
  change (select_kernel "local") with (Some (@_local F _)).
  cbv beta iota. rewrite Hk. cbn [mbind outcome_bind].
  rewrite !retrieve_assemble.
  replace (almA (Z.of_nat (length seqA)) <? 0) with false by lia.
  replace (almB (Z.of_nat (length seqB)) <? 0) with false by lia.
  cbn [mbind outcome_bind]. eexists _, _, _. split; [done|].
  split; apply length_assemble_ge.
Qed.

Lemma local_mode_returns_witness :
  ∃ outA outB sim,
    align_pairwise ["x"; "a"; "b"] ["a"; "b"] [-5; -5; -5] [-5; -5]
      [0; 0; 0] [0; 0] "CVC" "VC" (uniform_scores ["a"; "b"; "x"] 1 (-1))
      1 0 "local" = Ok (outA, outB, sim) ∧
    (length ["x"; "a"; "b"] ≤ length outA)%nat ∧
    (length ["a"; "b"] ≤ length outB)%nat.
Proof.
  apply (local_mode_returns ["x"; "a"; "b"] ["a"; "b"] [-5; -5; -5] [-5; -5]
           [0; 0; 0] [0; 0] "CVC" "VC" (uniform_scores ["a"; "b"; "x"] 1 (-1))
           1 0).
  valid_input_tac.
Defined.

(** ** Input that is too short *)

(** A loop whose rounds return or raise [e], with one round that raises it
    from every state, raises [e]. *)
Lemma for_eachM_raises {St : Type} (e : pyexc) (ks : list Z)
    (body : Z → St → outcome St) (st : St) :
  (∀ k s, k ∈ ks → body k s = Raised e ∨ ∃ s', body k s = Ok s') →
  (∃ k, k ∈ ks ∧ ∀ s, body k s = Raised e) →
  for_eachM ks body st = Raised e.
Proof.
  revert st. induction ks as [|k ks IH]; intros st Hbody (k0 & Hin & Hk0).
  - by apply elem_of_nil in Hin.
  - simpl. destruct (Hbody k st) as [->|(s' & Hs')]; [left|done|].
    rewrite Hs'. simpl. apply IH.
    + intros k' s Hk'. apply Hbody. by right.
    + apply elem_of_cons in Hin as [->|Hin]; [|by exists k0].
      rewrite Hk0 in Hs'. done.
Qed.

(** The same loop without such a round returns or raises [e]. *)
Lemma for_eachM_returns_or_raises {St : Type} (e : pyexc) (ks : list Z)
    (body : Z → St → outcome St) (st : St) :
  (∀ k s, k ∈ ks → body k s = Raised e ∨ ∃ s', body k s = Ok s') →
  for_eachM ks body st = Raised e ∨ ∃ s', for_eachM ks body st = Ok s'.
Proof.
  revert st. induction ks as [|k ks IH]; intros st Hbody.
  - right. by exists st.
  - simpl. destruct (Hbody k st) as [->|(s' & ->)]; [left|by left|].
    simpl. apply IH. intros k' s Hk'. apply Hbody. by right.
Qed.

Lemma py_get_short {T : Type} (l : list T) (k : Z) :
  Z.of_nat (length l) ≤ k → py_get l k = Raised IndexError.
Proof.
  intros Hk. unfold py_get. by rewrite lookup_ge_None_2 by lia.
Qed.

Lemma py_get_cases {T : Type} (l : list T) (k : Z) :
  py_get l k = Raised IndexError ∨ ∃ x, py_get l k = Ok x.
Proof. unfold py_get. destruct (l !! Z.to_nat k); eauto. Qed.

(** The loop that copies gap weights. *)
Lemma copy_weights {F : Type} (wgh : list F) (n : Z)
    (put : (Z → Z → F) → Z → F → Z → Z → F) (scorer : Z → Z → F) :
  if decide (n ≤ Z.of_nat (length wgh))
  then ∃ scorer', for_eachM (seqZ 1 n) (λ k s,
         w ← py_get wgh (k - 1); Ok (put s k w)) scorer = Ok scorer'
  else for_eachM (seqZ 1 n) (λ k s,
         w ← py_get wgh (k - 1); Ok (put s k w)) scorer = Raised IndexError.
Proof.
  destruct (decide (n ≤ Z.of_nat (length wgh))) as [Hle|Hgt].
  - edestruct (for_eachM_ok (λ _ : Z → Z → F, True) (seqZ 1 n))
      as (s & Hs & _); [done| |by eexists].
    intros k s Hk _. apply elem_of_seqZ in Hk.
    destruct (py_get_ok wgh (k - 1)) as (w & -> & _); [lia|]. by eexists.
  - apply for_eachM_raises.
    + intros k s _. destruct (py_get_cases wgh (k - 1)) as [->|[w ->]];
        [by left|right; by eexists].
    + exists (Z.of_nat (length wgh) + 1). split.
      * apply elem_of_seqZ. lia.
      * intros s. by rewrite py_get_short by lia.
Qed.

Lemma int_array_cases (res : list Z) (n : Z) :
  if decide (n ≤ Z.of_nat (length res))
  then ∃ a, int_array res n = Ok a ∧
         ∀ k, 0 ≤ k < n → res !! Z.to_nat k = Some (a k)
  else int_array res n = Raised IndexError.
Proof.
  unfold int_array.
  destruct (decide (n ≤ Z.of_nat (length res))) as [Hle|Hgt].
  - destruct (Z_le_gt_dec n 0) as [Hn|Hn].
    { unfold seqZ. replace (Z.to_nat n) with O by lia. simpl.
      eexists. split; [done|]. intros k Hk. lia. }
    pose (P := λ (m : Z) (o : outcome (Z → Z)),
            ∃ a, o = Ok a ∧ ∀ k, 0 ≤ k < m → res !! Z.to_nat k = Some (a k)).
    assert (P (0 + n) (for_range 0 n (λ k o,
              o ≫= λ a, r ← py_get res k; Ok (upd a k r)) (Ok (λ _, 0))))
      as (a & Ha & Hval).
    { apply for_range_ind; [lia| |].
      - eexists. split; [done|]. intros k Hk. lia.
      - intros k o Hk (a & -> & Hval). simpl.
        destruct (py_get_ok res k) as (r & -> & Hr); [lia|]. simpl.
        eexists. split; [done|]. intros k' Hk'.
        destruct (decide (k' = k)) as [->|Hne].
        + by rewrite upd_eq.
        + rewrite upd_ne by done. apply Hval. lia. }
    exists a. split; [|intros k Hk; apply Hval; lia].
    rewrite <- Ha. unfold for_range.
    change (for_eachM (seqZ 0 n) (λ k a0, r ← py_get res k; Ok (upd a0 k r))
              (λ _, 0))
      with (Ok (λ _ : Z, 0) ≫= for_eachM (seqZ 0 n)
              (λ k a0, r ← py_get res k; Ok (upd a0 k r))).
    by rewrite for_eachM_foldl.
  - apply for_eachM_raises.
    + intros k s _. destruct (py_get_cases res k) as [->|[w ->]];
        [by left|right; by eexists].
    + exists (Z.of_nat (length res)). split.
      * apply elem_of_seqZ. lia.
      * intros s. by rewrite py_get_short by lia.
Qed.

(** X13.  A list of gap weights shorter than its sequence raises [IndexError],
    whatever the mode and the other arguments: the weights are read before
    anything else. *)
Theorem short_weights_raise {F : Type} `{FloatOps F}
    (seqA seqB : list string) (wghA wghB : list F) (resA resB : list Z)
    (prsA prsB : string) (score_dict : gmap (string * string) F)
    (scale sonority_factor : F) (mode : string) :
  (length wghA < length seqA)%nat ∨ (length wghB < length seqB)%nat →
  align_pairwise seqA seqB wghA wghB resA resB prsA prsB score_dict
    scale sonority_factor mode = Raised IndexError.
Proof.
  intros Hshort. unfold align_pairwise, align_pair, build_scorer. cbv zeta.
  pose proof (copy_weights wghB (Z.of_nat (length seqB))
                (λ s k w, upd2 s k 0 w)
                (upd2 (λ _ _, f_of_Z 0) 0 0 (f_of_Z 0))) as HB.
  destruct (decide (Z.of_nat (length seqB) ≤ Z.of_nat (length wghB)))
    as [HleB|HgtB]; [|by rewrite HB].
  destruct HB as (s1 & ->). cbn [mbind outcome_bind].
  pose proof (copy_weights wghA (Z.of_nat (length seqA))
                (λ s k w, upd2 s 0 k w) s1) as HA.
  destruct (decide (Z.of_nat (length seqA) ≤ Z.of_nat (length wghA)))
    as [HleA|HgtA]; [lia|by rewrite HA].
Qed.

Lemma short_weights_raise_witness :
  align_pairwise ["a"; "b"] ["a"] [-1] [-1] [0; 0] [0] "VC" "V"
    (uniform_scores ["a"; "b"] 1 (-1)) 1 0 "global" = Raised IndexError.
Proof.
  apply (short_weights_raise ["a"; "b"] ["a"] [-1] [-1] [0; 0] [0] "VC" "V"
           (uniform_scores ["a"; "b"] 1 (-1)) 1 0 "global").
  left. simpl. lia.
Defined.

(** ** A pair without a score *)

Lemma dict_get_cases {F : Type} (score_dict : gmap (string * string) F)
    (key : string * string) :
  dict_get score_dict key = Raised KeyError ∨ ∃ s, dict_get score_dict key = Ok s.
Proof. unfold dict_get. destruct (score_dict !! key); eauto. Qed.

Section MissingKey.
Context {F : Type} `{FloatOps F}.
Variable key : string → string → string * string.
Variables (seqA seqB : list string) (prsA prsB : string).
Variables (score_dict : gmap (string * string) F) (sonority_factor : F).
Hypothesis HprsA : (length seqA ≤ String.length prsA)%nat.
Hypothesis HprsB : (length seqB ≤ String.length prsB)%nat.

(** Inside the scorer a round returns or raises [KeyError]. *)
Lemma score_cell_cases (k l : Z) (scorer : Z → Z → F) :
  1 ≤ k ≤ Z.of_nat (length seqB) → 1 ≤ l ≤ Z.of_nat (length seqA) →
  ∃ a b,
    seqA !! Z.to_nat (l - 1) = Some a ∧ seqB !! Z.to_nat (k - 1) = Some b ∧
    ((score_dict !! key a b = None ∧
      score_cell key seqA seqB prsA prsB score_dict sonority_factor k l scorer
      = Raised KeyError) ∨
     (∃ scorer',
        score_cell key seqA seqB prsA prsB score_dict sonority_factor k l scorer
        = Ok scorer')).
Proof.
  intros Hk Hl. unfold score_cell.
  destruct (py_get_ok seqA (l - 1)) as (a & -> & Ha); [lia|].
  destruct (py_get_ok seqB (k - 1)) as (b & -> & Hb); [lia|].
  exists a, b. split; [done|]. split; [done|].
  cbn [mbind outcome_bind]. unfold dict_get.
  destruct (score_dict !! key a b) as [s|]; [|by left].
  right. cbn [mbind outcome_bind].
  destruct (str_get_ok prsA (l - 1)) as (ca & ->); [lia|].
  destruct (str_get_ok prsB (k - 1)) as (cb & ->); [lia|].
  cbn [mbind outcome_bind]. by eexists.
Qed.

Lemma score_loop_missing (a b : string) (scorer : Z → Z → F) :
  a ∈ seqA → b ∈ seqB → score_dict !! key a b = None →
  for_eachM (seqZ 1 (Z.of_nat (length seqB))) (λ k scorer,
    for_eachM (seqZ 1 (Z.of_nat (length seqA))) (λ l scorer,
      score_cell key seqA seqB prsA prsB score_dict sonority_factor
        k l scorer) scorer) scorer
  = Raised KeyError.
Proof.
  intros Ha Hb Hnone.
  apply list_elem_of_lookup_1 in Ha as [ia Hia].
  apply list_elem_of_lookup_1 in Hb as [ib Hib].
  pose proof (lookup_lt_Some _ _ _ Hia).
  pose proof (lookup_lt_Some _ _ _ Hib).
  assert (∀ k l s, k ∈ seqZ 1 (Z.of_nat (length seqB)) →
            l ∈ seqZ 1 (Z.of_nat (length seqA)) →
            score_cell key seqA seqB prsA prsB score_dict sonority_factor k l s
            = Raised KeyError ∨
            ∃ s', score_cell key seqA seqB prsA prsB score_dict sonority_factor
                    k l s = Ok s') as Hcell.
  { intros k l s Hk Hl. apply elem_of_seqZ in Hk, Hl.
    destruct (score_cell_cases k l s) as (a' & b' & _ & _ & [[_ ->]|[s' ->]]);
      [lia|lia|by left|right; by eexists]. }
  apply for_eachM_raises.
  - intros k s Hk. apply for_eachM_returns_or_raises.
    intros l s' Hl. by apply Hcell.
  - exists (Z.of_nat ib + 1). split; [apply elem_of_seqZ; lia|].
    intros s. apply for_eachM_raises.
    + intros l s' Hl. apply Hcell; [apply elem_of_seqZ; lia|done].
    + exists (Z.of_nat ia + 1). split; [apply elem_of_seqZ; lia|].
      intros s'.
      destruct (score_cell_cases (Z.of_nat ib + 1) (Z.of_nat ia + 1) s')
        as (a' & b' & Ha' & Hb' & Hc); [lia|lia|].
      replace (Z.to_nat (Z.of_nat ia + 1 - 1)) with ia in Ha' by lia.
      replace (Z.to_nat (Z.of_nat ib + 1 - 1)) with ib in Hb' by lia.
      simplify_eq. destruct Hc as [[_ ->]|[s2 Hs2]]; [done|].
      unfold score_cell in Hs2.
      destruct (py_get_ok seqA (Z.of_nat ia + 1 - 1)) as (a2 & Hg & Ha2); [lia|].
      destruct (py_get_ok seqB (Z.of_nat ib + 1 - 1)) as (b2 & Hg' & Hb2); [lia|].
      rewrite Hg, Hg' in Hs2. cbn [mbind outcome_bind] in Hs2.
      replace (Z.to_nat (Z.of_nat ia + 1 - 1)) with ia in Ha2 by lia.
      replace (Z.to_nat (Z.of_nat ib + 1 - 1)) with ib in Hb2 by lia.
      simplify_eq. unfold dict_get in Hs2. by rewrite Hnone in Hs2.
Qed.
End MissingKey.

(** X14.  With weights and prosodic strings long enough, a symbol of A and a
    symbol of B whose pair has no entry in the similarity mapping make
    [align_pairwise] raise [KeyError], whatever the mode: every pair is
    looked up before the kernel is called. *)
Theorem missing_score_raises {F : Type} `{FloatOps F}
    (seqA seqB : list string) (wghA wghB : list F) (resA resB : list Z)
    (prsA prsB : string) (score_dict : gmap (string * string) F)
    (scale sonority_factor : F) (mode : string) (a b : string) :
  (length seqA ≤ length wghA)%nat → (length seqB ≤ length wghB)%nat →
  (length seqA ≤ String.length prsA)%nat →
  (length seqB ≤ String.length prsB)%nat →
  a ∈ seqA → b ∈ seqB → score_dict !! (a, b) = None →
  align_pairwise seqA seqB wghA wghB resA resB prsA prsB score_dict
    scale sonority_factor mode = Raised KeyError.
Proof.
  intros HwA HwB HpA HpB Ha Hb Hnone.
  unfold align_pairwise, align_pair, build_scorer. cbv zeta.
  pose proof (copy_weights wghB (Z.of_nat (length seqB))
                (λ s k w, upd2 s k 0 w)
                (upd2 (λ _ _, f_of_Z 0) 0 0 (f_of_Z 0))) as HB.
  destruct (decide (Z.of_nat (length seqB) ≤ Z.of_nat (length wghB)));
    [|lia].
  destruct HB as (s1 & ->). cbn [mbind outcome_bind].
  pose proof (copy_weights wghA (Z.of_nat (length seqA))
                (λ s k w, upd2 s 0 k w) s1) as HA.
  destruct (decide (Z.of_nat (length seqA) ≤ Z.of_nat (length wghA)));
    [|lia].
  destruct HA as (s2 & ->). cbn [mbind outcome_bind].
  by rewrite (score_loop_missing key_AB seqA seqB prsA prsB score_dict
                sonority_factor HpA HpB a b s2 Ha Hb Hnone).
Qed.

Lemma missing_score_raises_witness :
  align_pairwise ["a"; "b"] ["a"; "c"] [-1; -1] [-1; -1] [0; 0] [0; 0]
    "VC" "VC" (uniform_scores ["a"; "b"] 1 (-1)) 1 0 "overlap"
  = Raised KeyError.
Proof.
  apply (missing_score_raises ["a"; "b"] ["a"; "c"] [-1; -1] [-1; -1] [0; 0]
           [0; 0] "VC" "VC" (uniform_scores ["a"; "b"] 1 (-1)) 1 0 "overlap"
           "b" "c"); try (simpl; lia).
  - apply list_elem_of_further, list_elem_of_here.
  - apply list_elem_of_further, list_elem_of_here.
  - vm_compute. reflexivity.
Defined.

(** ** Restrictions that are too short *)

(** X15.  Once the scorer is built, a list of restrictions shorter than its
    sequence raises [IndexError], whatever the mode. *)
Theorem short_restrictions_raise {F : Type} `{FloatOps F}
    (seqA seqB : list string) (wghA wghB : list F) (resA resB : list Z)
    (prsA prsB : string) (score_dict : gmap (string * string) F)
    (scale sonority_factor : F) (mode : string) (scorer : Z → Z → F) :
  build_scorer key_AB seqA seqB wghA wghB prsA prsB score_dict sonority_factor
  = Ok scorer →
  (length resA < length seqA)%nat ∨ (length resB < length seqB)%nat →
  align_pairwise seqA seqB wghA wghB resA resB prsA prsB score_dict
    scale sonority_factor mode = Raised IndexError.
Proof.
  intros Hscorer Hshort. unfold align_pairwise, align_pair.
  rewrite Hscorer. cbn [mbind outcome_bind].
  pose proof (int_array_cases resA (Z.of_nat (length seqA))) as HA.
  destruct (decide (Z.of_nat (length seqA) ≤ Z.of_nat (length resA)));
    [|by rewrite HA].
  destruct HA as (arrayA & -> & _). cbn [mbind outcome_bind].
  pose proof (int_array_cases resB (Z.of_nat (length seqB))) as HB.
  destruct (decide (Z.of_nat (length seqB) ≤ Z.of_nat (length resB)));
    [lia|by rewrite HB].
Qed.

Lemma short_restrictions_raise_witness :
  align_pairwise ["a"; "b"] ["a"] [-1; -1] [-1] [0; 0] [] "VC" "V"
    (uniform_scores ["a"; "b"] 1 (-1)) 1 0 "dialign" = Raised IndexError.
Proof.
  eapply (short_restrictions_raise ["a"; "b"] ["a"] [-1; -1] [-1] [0; 0] []
            "VC" "V" (uniform_scores ["a"; "b"] 1 (-1)) 1 0 "dialign").
  - vm_compute. reflexivity.
  - right. simpl. lia.
Defined.

(** ** Empty sequences *)

Lemma select_kernel_cases {F : Type} `{FloatOps F} (mode : string) :
  select_kernel (F := F) mode
  ∈ [Some _global; Some _local; Some _repeats; Some _overlap; Some _dialign;
     None].
Proof.
  unfold select_kernel. repeat case_match; set_solver.
Qed.

(** Without a symbol in B no kernel has a defined result: the variable [j]
    of the fill, or [imax] and [jmax], is read before it is assigned. *)
Lemma kernels_empty_B {F : Type} `{FloatOps F} (align : option kernel)
    (arrayA : Z → Z) (lA : Z) (arrayB : Z → Z) (scorer : Z → Z → F) (scale : F)
    (almA almB : Z → Z) :
  0 ≤ lA →
  align ∈ [Some _global; Some _local; Some _repeats; Some _overlap;
           Some _dialign; None] →
  match align with
  | Some k => k arrayA lA arrayB 0 scorer scale almA almB
  | None => Undefined
  end = Undefined.
Proof.
  intros HlA Hin.
  repeat (apply elem_of_cons in Hin as [->|Hin]);
    [..|by apply elem_of_nil in Hin]; try done.
  unfold _local. by replace ((0 <? 0) || (lA <? 0)) with false by lia.
Qed.

(** X16.  With weights and restrictions for A, aligning against an empty B is
    undefined in every mode. *)
Theorem empty_seqB_undefined {F : Type} `{FloatOps F}
    (seqA : list string) (wghA wghB : list F) (resA resB : list Z)
    (prsA prsB : string) (score_dict : gmap (string * string) F)
    (scale sonority_factor : F) (mode : string) :
  (length seqA ≤ length wghA)%nat → (length seqA ≤ length resA)%nat →
  align_pairwise seqA [] wghA wghB resA resB prsA prsB score_dict
    scale sonority_factor mode = Undefined.
Proof.
  intros HwA HrA. unfold align_pairwise, align_pair, build_scorer.
  cbn [length]. change (Z.of_nat 0) with 0. change (seqZ 1 0) with (@nil Z).
  cbn [for_eachM mbind outcome_bind].
  pose proof (copy_weights wghA (Z.of_nat (length seqA))
                (λ s k w, upd2 s 0 k w)
                (upd2 (λ _ _, f_of_Z 0) 0 0 (f_of_Z 0))) as HA.
  destruct (decide (Z.of_nat (length seqA) ≤ Z.of_nat (length wghA)));
    [|lia].
  destruct HA as (s1 & ->). cbn [mbind outcome_bind].
  pose proof (int_array_cases resA (Z.of_nat (length seqA))) as HR.
  destruct (decide (Z.of_nat (length seqA) ≤ Z.of_nat (length resA)));
    [|lia].
  destruct HR as (arrayA & -> & _). cbn [mbind outcome_bind].
  change (int_array resB 0) with (Ok (λ _ : Z, 0)).
  cbn [mbind outcome_bind].
  rewrite (kernels_empty_B (select_kernel mode)); [done|lia|].
  apply select_kernel_cases.
Qed.

Lemma empty_seqB_undefined_witness :
  align_pairwise ["a"; "b"] [] [-1; -1] [] [0; 0] [] "VC" ""
    (uniform_scores ["a"; "b"] 1 (-1)) 1 0 "global" = Undefined.
Proof.
  apply (empty_seqB_undefined ["a"; "b"] [-1; -1] [] [0; 0] [] "VC" ""
           (uniform_scores ["a"; "b"] 1 (-1)) 1 0 "global"); simpl; lia.
Defined.

Lemma gap_total_nonneg (alm : Z → Z) (n : nat) :
  (∀ k, 0 ≤ alm k) → 0 ≤ gap_total alm n.
Proof.
  intros Hpos. induction n as [|n IH]; simpl.
  - apply Hpos.
  - specialize (Hpos (Z.of_nat (S n))). lia.
Qed.

Lemma gap_total_zero_inv (alm : Z → Z) (n : nat) :
  (∀ k, 0 ≤ alm k) → gap_total alm n ≤ 0 →
  ∀ k, 0 ≤ k ≤ Z.of_nat n → alm k = 0.
Proof.
  intros Hpos. induction n as [|n IH]; intros Hz k Hk; simpl in Hz.
  - replace k with 0 by lia. specialize (Hpos 0). lia.
  - pose proof (gap_total_nonneg alm n Hpos).
    pose proof (Hpos (Z.of_nat (S n))).
    destruct (decide (k = Z.of_nat (S n))) as [->|Hne]; [lia|].
    apply IH; lia.
Qed.

Lemma retrieve_zero (alm : Z → Z) (n : nat) (out : list string) :
  (∀ k, 0 ≤ k ≤ Z.of_nat n → alm k = 0) → retrieve alm n out = Ok out.
Proof.
  induction n as [|n IH]; intros Hz; cbn [retrieve]; unfold retrieve_step.
  - by rewrite (Hz (Z.of_nat 0)) by lia.
  - rewrite (Hz (Z.of_nat (S n))) by lia. cbn [mbind outcome_bind].
    apply IH. intros k Hk. apply Hz. lia.
Qed.

Lemma select_gapped {F : Type} `{FloatOps F} (mode : string) :
  mode ∈ ["global"; "overlap"; "repeats"; "dialign"] →
  ∃ k, select_kernel (F := F) mode = Some k ∧ gapped_kernel k ∧ counting_kernel k.
Proof.
  intros Hmode.
  repeat (apply elem_of_cons in Hmode as [->|Hmode]);
    [..|by apply elem_of_nil in Hmode]; eexists; (split; [reflexivity|]).
  - split; [apply global_gapped|apply global_counting].
  - split; [apply overlap_gapped|apply overlap_counting].
  - split; [apply repeats_gapped|apply repeats_counting].
  - split; [apply dialign_gapped|apply dialign_counting].
Qed.

(** X17.  With weights and restrictions for B, an empty A against a non-empty B
    comes back as one gap for every symbol of B, opposite B unchanged, in
    the modes global, overlap, repeats and dialign; in local mode the result
    is undefined, since no cell sets [imax] and [jmax]. *)
Theorem empty_seqA_all_gaps {F : Type} `{FloatOps F}
    (seqB : list string) (wghA wghB : list F) (resA resB : list Z)
    (prsA prsB : string) (score_dict : gmap (string * string) F)
    (scale sonority_factor : F) (mode : string) :
  seqB ≠ [] →
  (length seqB ≤ length wghB)%nat → (length seqB ≤ length resB)%nat →
  mode ∈ ["global"; "overlap"; "repeats"; "dialign"] →
  (∃ sim,
     align_pairwise [] seqB wghA wghB resA resB prsA prsB score_dict
       scale sonority_factor mode
     = Ok (replicate (length seqB) "-", seqB, sim)) ∧
  align_pairwise [] seqB wghA wghB resA resB prsA prsB score_dict
    scale sonority_factor "local" = Undefined.
Proof.
  intros Hne HwB HrB Hmode.
  assert (1 ≤ Z.of_nat (length seqB)) as HlB.
  { destruct seqB; [done|]. simpl length. lia. }
  assert (∀ align,
    align_pair key_AB align [] seqB wghA wghB resA resB prsA prsB score_dict
      scale sonority_factor
    = arrayB ← int_array resB (Z.of_nat (length seqB));
      '(sim, almA, almB) ←
        match align with
        | Some f =>
          f (λ _, 0) 0 arrayB (Z.of_nat (length seqB))
            (match build_scorer key_AB [] seqB wghA wghB prsA prsB score_dict
                     sonority_factor with
             | Ok s => s
             | _ => λ _ _, f_of_Z 0
             end) scale (λ _, 0) (λ _, 0)
        | None => Undefined
        end;
      outA ← retrieve almA 0 [];
      outB ← retrieve almB (length seqB) seqB;
      Ok (outA, outB, sim)) as Hpair.
  { intros align. unfold align_pair.
    assert (∃ s, build_scorer key_AB [] seqB wghA wghB prsA prsB score_dict
                   sonority_factor = Ok s) as [s ->]; [|done].
    unfold build_scorer. cbn [length]. change (Z.of_nat 0) with 0.
    change (seqZ 1 0) with (@nil Z).
    pose proof (copy_weights wghB (Z.of_nat (length seqB))
                  (λ s k w, upd2 s k 0 w)
                  (upd2 (λ _ _, f_of_Z 0) 0 0 (f_of_Z 0))) as HB.
    destruct (decide (Z.of_nat (length seqB) ≤ Z.of_nat (length wghB)));
      [|lia].
    destruct HB as (s1 & ->). cbn [for_eachM mbind outcome_bind].
    edestruct (for_eachM_ok (λ _ : Z → Z → F, True)
                 (seqZ 1 (Z.of_nat (length seqB)))) as (s3 & -> & _);
      [done| |by eexists].
    intros k s _ _. by eexists. }
  unfold align_pairwise. rewrite !Hpair.
  pose proof (int_array_cases resB (Z.of_nat (length seqB))) as HR.
  destruct (decide (Z.of_nat (length seqB) ≤ Z.of_nat (length resB)));
    [|lia].
  destruct HR as (arrayB & -> & _). cbn [mbind outcome_bind].
  split.
  - destruct (select_gapped (F := F) mode Hmode) as (k & -> & Hg & Hc).
    set (scorer := match build_scorer _ _ _ _ _ _ _ _ _ with
                   | Ok s => s | _ => _ end).
    destruct (Hg (λ _, 0) 0 arrayB (Z.of_nat (length seqB)) scorer scale
                (λ _, 0) (λ _, 0)) as (sim & almA & almB & Hk & Hbal);
      [lia..|].
    rewrite Hk. cbn [mbind outcome_bind].
    apply Hc in Hk as (_ & _ & (HA & HB & Hsum) & Hbound).
    change (Z.to_nat 0) with O in *. cbn [gap_total] in *.
    rewrite Nat2Z.id, gap_total_zero in *.
    pose proof (gap_total_nonneg almB (length seqB) HB).
    assert (almA 0 = Z.of_nat (length seqB)) as HA0 by lia.
    change (retrieve almA 0 []) with (retrieve almA (length (@nil string)) []).
    rewrite (retrieve_assemble almA []). cbn [length]. change (Z.of_nat 0) with 0.
    replace (almA 0 <? 0) with false by lia.
    cbn [mbind outcome_bind].
    rewrite retrieve_zero by (apply gap_total_zero_inv; [done|lia]).
    cbn [mbind outcome_bind]. exists sim.
    unfold assemble. cbn [imap concat length app].
    change (Z.of_nat 0) with 0. by rewrite HA0, Nat2Z.id.
  - change (select_kernel "local") with (Some (@_local F _)).
    cbv beta iota. unfold _local.
    replace ((Z.of_nat (length seqB) <? 0) || (0 <? 0)) with false by lia.
    cbv zeta.
    assert (imax (local_fill (λ _, 0) 0 arrayB (Z.of_nat (length seqB))
                    (match build_scorer key_AB [] seqB wghA wghB prsA prsB
                             score_dict sonority_factor with
                     | Ok s => s
                     | _ => λ _ _, f_of_Z 0
                     end) scale) = None) as ->; [|done].
    unfold local_fill.
    apply (fill_cells_Inv 0 (Z.of_nat (length seqB)) _
             (λ ls : local_state, imax ls = None)); [|done].
    intros i j ls Hi Hj. lia.
Qed.

Lemma empty_seqA_all_gaps_witness :
  (∃ sim,
     align_pairwise [] ["a"; "b"] [] [-1; -1] [] [0; 0] "" "VC"
       (uniform_scores ["a"; "b"] 1 (-1)) 1 0 "global"
     = Ok (replicate (length ["a"; "b"]) "-", ["a"; "b"], sim)) ∧
  align_pairwise [] ["a"; "b"] [] [-1; -1] [] [0; 0] "" "VC"
    (uniform_scores ["a"; "b"] 1 (-1)) 1 0 "local" = Undefined.
Proof.
  apply (empty_seqA_all_gaps ["a"; "b"] [] [-1; -1] [] [0; 0] "" "VC"
           (uniform_scores ["a"; "b"] 1 (-1)) 1 0 "global");
    [done|simpl; lia|simpl; lia|apply list_elem_of_here].
Defined.

(** ** What the kernels read of their arguments *)

Lemma foldl_rel {A A' B : Type} (R : A → A' → Prop) (f : A → B → A)
    (g : A' → B → A') (l : list B) (a : A) (a' : A') :
  R a a' →
  (∀ x s s', x ∈ l → R s s' → R (f s x) (g s' x)) →
  R (foldl f a l) (foldl g a' l).
Proof.
  revert a a'. induction l as [|x l IH]; intros a a' Ha Hstep; [done|].
  simpl. apply IH.
  - apply Hstep; [left|done].
  - intros y s s' Hy. apply Hstep. by right.
Qed.

Lemma for_range_rel {St St' : Type} (R : St → St' → Prop) (lo n : Z)
    (body : Z → St → St) (body' : Z → St' → St') (st : St) (st' : St') :
  R st st' →
  (∀ k s s', lo ≤ k < lo + n → R s s' → R (body k s) (body' k s')) →
  R (for_range lo n body st) (for_range lo n body' st').
Proof.
  intros Hst Hstep. unfold for_range. apply foldl_rel; [done|].
  intros k s s' Hk. apply Hstep. apply elem_of_seqZ in Hk. lia.
Qed.

Lemma fill_cells_rel {St St' : Type} (R : St → St' → Prop) (lA lB : Z)
    (cell : Z → Z → St → St) (cell' : Z → Z → St' → St') (st : St) (st' : St') :
  R st st' →
  (∀ i j s s', 1 ≤ i ≤ lB → 1 ≤ j ≤ lA → R s s' →
     R (cell i j s) (cell' i j s')) →
  R (fill_cells lA lB cell st) (fill_cells lA lB cell' st').
Proof.
  intros Hst Hcell. unfold fill_cells.
  apply for_range_rel; [done|]. intros i s s' Hi Hs.
  apply for_range_rel; [done|]. intros j t t' Hj Ht.
  apply Hcell; (done || lia).
Qed.

Lemma dp_eq_refl {F : Type} (st : dp F) : dp_eq st st.
Proof. by split. Qed.

Lemma set_cell_eq {F : Type} (st st' : dp F) (i j : Z) (v : F) (t : Z) :
  dp_eq st st' → dp_eq (set_cell st i j v t) (set_cell st' i j v t).
Proof.
  intros [Hm Ht]. split; intros i' j'; simpl; unfold upd2;
    case_branch; auto.
Qed.

Section SameRestrictions.
Context {F : Type} `{FloatOps F}.
Variables (arrayA arrayB arrayA' arrayB' : Z → Z) (lA lB : Z).
Variables (scorer : Z → Z → F) (scale : F).
Hypothesis same : same_restrictions arrayA arrayB arrayA' arrayB' lA lB.

Lemma global_cell_same (i j : Z) (st st' : dp F) :
  1 ≤ i ≤ lB → 1 ≤ j ≤ lA → dp_eq st st' →
  dp_eq (global_cell arrayA lA arrayB lB scorer scale i j st)
        (global_cell arrayA' lA arrayB' lB scorer scale i j st').
Proof.
  intros Hi Hj Heq. unfold global_cell.
  destruct (same i j Hi Hj) as [<- <-]. same_reads Heq.
  repeat case_branch; by apply set_cell_eq.
Qed.

Lemma overlap_cell_same (i j : Z) (st st' : dp F) :
  1 ≤ i ≤ lB → 1 ≤ j ≤ lA → dp_eq st st' →
  dp_eq (overlap_cell arrayA lA arrayB lB scorer scale i j st)
        (overlap_cell arrayA' lA arrayB' lB scorer scale i j st').
Proof.
  intros Hi Hj Heq. unfold overlap_cell, overlap_gapA, overlap_gapB.
  destruct (same i j Hi Hj) as [<- <-]. same_reads Heq.
  repeat case_branch; by apply set_cell_eq.
Qed.

Lemma repeats_cell_same (i j : Z) (st st' : dp F) :
  1 ≤ i ≤ lB → 1 ≤ j ≤ lA → dp_eq st st' →
  dp_eq (repeats_cell arrayA lA arrayB lB scorer scale i j st)
        (repeats_cell arrayA' lA arrayB' lB scorer scale i j st').
Proof.
  intros Hi Hj Heq. unfold repeats_cell.
  destruct (same i j Hi Hj) as [<- <-]. same_reads Heq.
  repeat case_branch; by apply set_cell_eq.
Qed.

Lemma local_cell_same (i j : Z) (ls ls' : local_state) :
  1 ≤ i ≤ lB → 1 ≤ j ≤ lA → local_eq ls ls' →
  local_eq (local_cell arrayA lA arrayB lB scorer scale i j ls)
           (local_cell arrayA' lA arrayB' lB scorer scale i j ls').
Proof.
  intros Hi Hj (Heq & Hmax & Him & Hjm). unfold local_cell.
  destruct (same i j Hi Hj) as [<- <-]. same_reads Heq.
  rewrite <- Hmax, <- Him, <- Hjm.
  repeat case_branch; simpl in *;
    rewrite ?upd2_eq in *; try congruence;
    (split; [by apply set_cell_eq|done]).
Qed.

Lemma diagonal_score_same (scorer' : Z → Z → F) (m m' : Z → Z → F)
    (i j k : Z) :
  same_matchings scorer scorer' → (∀ a b, m a b = m' a b) →
  k < i → k < j →
  diagonal_score scorer m i j k = diagonal_score scorer' m' i j k.
Proof.
  intros Hs Hm Hi Hj. unfold diagonal_score. rewrite Hm.
  apply (foldl_rel eq); [done|].
  intros l s s' Hl ->. apply elem_of_reverse, elem_of_seqZ in Hl.
  rewrite Hs by lia. done.
Qed.

Lemma best_diagonal_same (scorer' : Z → Z → F) (m m' : Z → Z → F) (i j : Z) :
  same_matchings scorer scorer' → (∀ a b, m a b = m' a b) →
  best_diagonal scorer m i j = best_diagonal scorer' m' i j.
Proof.
  intros Hs Hm. unfold best_diagonal.
  apply (for_range_rel eq); [done|].
  intros k [old_score old_length] p Hk <-.
  rewrite (diagonal_score_same scorer' m m'); [done..| |];
    destruct (i <? j) eqn:Hij; lia.
Qed.

Lemma mark_diagonal_same (tb tb' : Z → Z → Z) (i j len : Z) :
  (∀ a b, tb a b = tb' a b) →
  ∀ a b, mark_diagonal tb i j len a b = mark_diagonal tb' i j len a b.
Proof.
  intros Htb. unfold mark_diagonal.
  apply (for_range_rel (λ t t' : Z → Z → Z, ∀ a b, t a b = t' a b)); [done|].
  intros k t t' Hk Ht a b. unfold upd2. case_branch; auto.
Qed.

Lemma dialign_cell_same (scorer' : Z → Z → F) (i j : Z) (st st' : dp F) :
  same_matchings scorer scorer' →
  1 ≤ i ≤ lB → 1 ≤ j ≤ lA → dp_eq st st' →
  dp_eq (dialign_cell arrayA lA arrayB lB scorer i j st)
        (dialign_cell arrayA' lA arrayB' lB scorer' i j st').
Proof.
  intros Hs Hi Hj Heq. unfold dialign_cell.
  rewrite <- (best_diagonal_same scorer' (matrix st) (matrix st'))
    by (done || apply Heq).
  destruct (best_diagonal scorer (matrix st) i j) as [old_score old_length].
  destruct (same i j Hi Hj) as [<- <-]. same_reads Heq.
  repeat case_branch; (split; intros a b; simpl);
    try (unfold upd2; case_branch; auto; fail).
  by apply mark_diagonal_same.
Qed.

Lemma global_fill_same :
  dp_eq (global_fill arrayA lA arrayB lB scorer scale)
        (global_fill arrayA' lA arrayB' lB scorer scale).
Proof.
  unfold global_fill. apply fill_cells_rel; [apply dp_eq_refl|].
  intros. by apply global_cell_same.
Qed.

Lemma overlap_fill_same :
  dp_eq (overlap_fill arrayA lA arrayB lB scorer scale)
        (overlap_fill arrayA' lA arrayB' lB scorer scale).
Proof.
  unfold overlap_fill. apply fill_cells_rel; [apply dp_eq_refl|].
  intros. by apply overlap_cell_same.
Qed.

Lemma repeats_fill_same :
  dp_eq (repeats_fill arrayA lA arrayB lB scorer scale)
        (repeats_fill arrayA' lA arrayB' lB scorer scale).
Proof.
  unfold repeats_fill. apply fill_cells_rel; [apply dp_eq_refl|].
  intros. by apply repeats_cell_same.
Qed.

Lemma local_fill_same :
  local_eq (local_fill arrayA lA arrayB lB scorer scale)
           (local_fill arrayA' lA arrayB' lB scorer scale).
Proof.
  unfold local_fill. apply fill_cells_rel; [repeat split|].
  intros. by apply local_cell_same.
Qed.

Lemma dialign_fill_same (scorer' : Z → Z → F) :
  same_matchings scorer scorer' →
  dp_eq (dialign_fill arrayA lA arrayB lB scorer)
        (dialign_fill arrayA' lA arrayB' lB scorer').
Proof.
  intros Hs. unfold dialign_fill. apply fill_cells_rel; [apply dp_eq_refl|].
  intros. by apply dialign_cell_same.
Qed.
End SameRestrictions.

Lemma traceback_walk_same (tb tb' : Z → Z → Z) (fuel : nat) :
  (∀ i j, tb i j = tb' i j) →
  ∀ i j almA almB,
    traceback_walk fuel tb i j almA almB = traceback_walk fuel tb' i j almA almB.
Proof.
  intros Htb. induction fuel as [|fuel IH]; intros i j almA almB; [done|].
  simpl. rewrite <- Htb. repeat case_branch; auto.
Qed.

Lemma local_walk_same (tb tb' : Z → Z → Z) (fuel : nat) :
  (∀ i j, tb i j = tb' i j) →
  ∀ i j almA almB,
    local_walk fuel tb i j almA almB = local_walk fuel tb' i j almA almB.
Proof.
  intros Htb. induction fuel as [|fuel IH]; intros i j almA almB; simpl;
    rewrite <- Htb; [done|].
  repeat case_branch; auto.
Qed.

Lemma repeats_scan_same (tb tb' : Z → Z → Z) (i j : Z) (l : option Z) :
  repeats_scan tb i j l = repeats_scan tb' i j l.
Proof.
  unfold repeats_scan. generalize (j - 1). revert l.
  induction (Z.to_nat j) as [|fuel IH]; intros l k; [done|].
  simpl. unfold repeats_scan_inner. repeat case_branch; auto.
Qed.

Lemma repeats_walk_same {F : Type} `{FloatOps F} (st st' : dp F) (fuel : nat) :
  dp_eq st st' →
  ∀ i j l sim almA almB,
    repeats_walk fuel st i j l sim almA almB
    = repeats_walk fuel st' i j l sim almA almB.
Proof.
  intros [Hm Ht]. induction fuel as [|fuel IH]; intros i j l sim almA almB;
    [done|].
  simpl. rewrite <- Ht.
  rewrite (repeats_scan_same (traceback st') (traceback st)).
  repeat case_branch; auto.
  destruct (repeats_scan (traceback st) i j l) as [k [l'|]]; [|done].
  case_branch; [done|]. rewrite <- Hm. apply IH.
Qed.

(** The kernels read their restriction arrays through the two tests only,
    and the diagonal kernel reads neither the gap weights nor [scale]. *)
Lemma kernels_same {F : Type} `{FloatOps F} (mode : string)
    (arrayA arrayB arrayA' arrayB' : Z → Z) (lA lB : Z)
    (scorer : Z → Z → F) (scale : F) (almA almB : Z → Z) :
  same_restrictions arrayA arrayB arrayA' arrayB' lA lB →
  match select_kernel mode with
  | Some k => k arrayA lA arrayB lB scorer scale almA almB
  | None => Undefined
  end
  = match select_kernel mode with
    | Some k => k arrayA' lA arrayB' lB scorer scale almA almB
    | None => Undefined
    end.
Proof.
  intros Hsame. unfold select_kernel. repeat case_match; simplify_eq; try done.
  - unfold _global. case_branch; [done|]. cbv zeta.
    destruct (global_fill_same arrayA arrayB arrayA' arrayB' lA lB scorer scale
                Hsame) as [Hm Ht].
    by rewrite (traceback_walk_same _ _ _ Ht), Hm.
  - unfold _local. case_branch; [done|]. cbv zeta.
    destruct (local_fill_same arrayA arrayB arrayA' arrayB' lA lB scorer scale
                Hsame) as ([Hm Ht] & _ & <- & <-).
    destruct (imax _) as [i|]; [|done]. destruct (jmax _) as [j|]; [|done].
    by rewrite (local_walk_same _ _ _ Ht), Hm.
  - unfold _repeats. case_branch; [done|]. cbv zeta.
    pose proof (repeats_fill_same arrayA arrayB arrayA' arrayB' lA lB scorer
                  scale Hsame) as Heq.
    rewrite (repeats_walk_same _ _ _ Heq). destruct Heq as [Hm _].
    by rewrite Hm.
  - unfold _overlap. case_branch; [done|]. cbv zeta.
    destruct (overlap_fill_same arrayA arrayB arrayA' arrayB' lA lB scorer scale
                Hsame) as [Hm Ht].
    by rewrite (traceback_walk_same _ _ _ Ht), Hm.
  - unfold _dialign. case_branch; [done|]. cbv zeta.
    destruct (dialign_fill_same arrayA arrayB arrayA' arrayB' lA lB scorer
                Hsame scorer) as [Hm Ht]; [done|].
    by rewrite (traceback_walk_same _ _ _ Ht), Hm.
Qed.

Lemma dialign_same {F : Type} `{FloatOps F} (arrayA arrayB : Z → Z) (lA lB : Z)
    (scorer scorer' : Z → Z → F) (scale scale' : F) (almA almB : Z → Z) :
  same_matchings scorer scorer' →
  _dialign arrayA lA arrayB lB scorer scale almA almB
  = _dialign arrayA lA arrayB lB scorer' scale' almA almB.
Proof.
  intros Hs. unfold _dialign. case_branch; [done|]. cbv zeta.
  destruct (dialign_fill_same arrayA arrayB arrayA arrayB lA lB scorer) with
    (scorer' := scorer') as [Hm Ht]; [done|done|].
  by rewrite (traceback_walk_same _ _ _ Ht), Hm.
Qed.

Lemma sign_tests (a a' : Z) :
  Z.sgn a = Z.sgn a' → (a <? 0) = (a' <? 0) ∧ (0 <? a) = (0 <? a').
Proof. destruct a, a'; simpl; intros Hs; try discriminate Hs; done. Qed.

(** The block for one pair reads the restrictions through the two tests. *)
Lemma align_pair_same_restrictions {F : Type} `{FloatOps F}
    (key : string → string → string * string) (mode : string)
    (seqA seqB : list string) (wghA wghB : list F)
    (resA resB resA' resB' : list Z)
    (prsA prsB : string) (score_dict : gmap (string * string) F)
    (scale sonority_factor : F) :
  length resA = length resA' → length resB = length resB' →
  (∀ i j a b a' b',
     resA !! j = Some a → resA' !! j = Some a' →
     resB !! i = Some b → resB' !! i = Some b' →
     (b <? 0) && (0 <? a) = (b' <? 0) && (0 <? a') ∧
     (a <? 0) && (0 <? b) = (a' <? 0) && (0 <? b')) →
  align_pair key (select_kernel mode) seqA seqB wghA wghB resA resB
    prsA prsB score_dict scale sonority_factor
  = align_pair key (select_kernel mode) seqA seqB wghA wghB resA' resB'
      prsA prsB score_dict scale sonority_factor.
Proof.
  intros HlenA HlenB Htests. unfold align_pair.
  destruct (build_scorer _ _ _ _ _ _ _ _ _) as [scorer| | |]; try done.
  cbn [mbind outcome_bind].
  pose proof (int_array_cases resA (Z.of_nat (length seqA))) as HA.
  pose proof (int_array_cases resA' (Z.of_nat (length seqA))) as HA'.
  rewrite <- HlenA in HA'.
  destruct (decide (Z.of_nat (length seqA) ≤ Z.of_nat (length resA)));
    [|by rewrite HA, HA'].
  destruct HA as (arrayA & -> & HvA). destruct HA' as (arrayA' & -> & HvA').
  cbn [mbind outcome_bind].
  pose proof (int_array_cases resB (Z.of_nat (length seqB))) as HB.
  pose proof (int_array_cases resB' (Z.of_nat (length seqB))) as HB'.
  rewrite <- HlenB in HB'.
  destruct (decide (Z.of_nat (length seqB) ≤ Z.of_nat (length resB)));
    [|by rewrite HB, HB'].
  destruct HB as (arrayB & -> & HvB). destruct HB' as (arrayB' & -> & HvB').
  cbn [mbind outcome_bind].
  rewrite (kernels_same mode arrayA arrayB arrayA' arrayB'); [done|].
  intros i j Hi Hj. unfold R_A, R_B.
  destruct (Htests (Z.to_nat (i - 1)) (Z.to_nat (j - 1))
              (arrayA (j - 1)) (arrayB (i - 1)) (arrayA' (j - 1)) (arrayB' (i - 1)))
    as [-> ->]; [apply HvA|apply HvA'|apply HvB|apply HvB'|done]; lia.
Qed.





(** ** The diagonal mode ignores the gap weights *)

Lemma for_eachM_rel {St St' : Type} (R : St → St' → Prop) (ks : list Z)
    (body : Z → St → outcome St) (body' : Z → St' → outcome St')
    (st : St) (st' : St') :
  R st st' →
  (∀ k s s', k ∈ ks → R s s' → outcome_rel R (body k s) (body' k s')) →
  outcome_rel R (for_eachM ks body st) (for_eachM ks body' st').
Proof.
  revert st st'. induction ks as [|k ks IH]; intros st st' Hst Hbody; [done|].
  simpl. specialize (Hbody k st st') as Hk.
  destruct (body k st) as [s| | |], (body' k st') as [s'| | |];
    try (by destruct Hk; [left|done]); simpl.
  - apply IH.
    + apply Hk; [left|done].
    + intros k' t t' Hk'. apply Hbody. by right.
  - apply Hk; [left|done].
  - done.
  - done.
Qed.

Lemma bind_rel {A A' B B' : Type} (R : A → A' → Prop) (R' : B → B' → Prop)
    (o : outcome A) (o' : outcome A') (f : A → outcome B) (g : A' → outcome B') :
  outcome_rel R o o' →
  (∀ x y, R x y → outcome_rel R' (f x) (g y)) →
  outcome_rel R' (o ≫= f) (o' ≫= g).
Proof. destruct o, o'; simpl; auto; done. Qed.

Lemma py_get_same_length {T : Type} (l l' : list T) (k : Z) :
  length l = length l' →
  outcome_rel (λ _ _, True) (py_get l k) (py_get l' k).
Proof.
  intros Hlen. unfold py_get.
  destruct (l !! Z.to_nat k) as [x|] eqn:Hx.
  - destruct (lookup_lt_is_Some_2 l' (Z.to_nat k)) as [y ->]; [|done].
    rewrite <- Hlen. by eapply lookup_lt_Some.
  - rewrite lookup_ge_None_2; [done|].
    rewrite <- Hlen. by apply lookup_ge_None_1.
Qed.

Lemma copy_weights_same {F : Type} (wgh wgh' : list F) (n : Z)
    (put : (Z → Z → F) → Z → F → Z → Z → F) (scorer scorer' : Z → Z → F) :
  length wgh = length wgh' →
  (∀ s s' k w w', same_matchings s s' → same_matchings (put s k w) (put s' k w')) →
  same_matchings scorer scorer' →
  outcome_rel same_matchings
    (for_eachM (seqZ 1 n) (λ k s, w ← py_get wgh (k - 1); Ok (put s k w)) scorer)
    (for_eachM (seqZ 1 n) (λ k s, w ← py_get wgh' (k - 1); Ok (put s k w)) scorer').
Proof.
  intros Hlen Hput Hs. apply for_eachM_rel; [done|].
  intros k s s' _ Hss.
  apply (bind_rel (λ _ _, True)); [by apply py_get_same_length|].
  intros w w' _. simpl. by apply Hput.
Qed.

Lemma score_cell_same_matchings {F : Type} `{FloatOps F}
    (key : string → string → string * string) (seqA seqB : list string)
    (prsA prsB : string) (score_dict : gmap (string * string) F)
    (sonority_factor : F) (k l : Z) (s s' : Z → Z → F) :
  same_matchings s s' →
  outcome_rel same_matchings
    (score_cell key seqA seqB prsA prsB score_dict sonority_factor k l s)
    (score_cell key seqA seqB prsA prsB score_dict sonority_factor k l s').
Proof.
  intros Hs. unfold score_cell.
  destruct (py_get seqA (l - 1)) as [a| | |]; try done.
  destruct (py_get seqB (k - 1)) as [b| | |]; try done.
  cbn [mbind outcome_bind].
  destruct (dict_get score_dict (key a b)) as [sc| | |]; try done.
  cbn [mbind outcome_bind].
  destruct (str_get prsA (l - 1)) as [ca| | |]; try done.
  destruct (str_get prsB (k - 1)) as [cb| | |]; try done.
  cbn [mbind outcome_bind outcome_rel].
  intros i j Hi Hj. unfold upd2. case_branch; auto.
Qed.

Lemma build_scorer_same_matchings {F : Type} `{FloatOps F}
    (key : string → string → string * string)
    (seqA seqB : list string) (wghA wghB wghA' wghB' : list F)
    (prsA prsB : string) (score_dict : gmap (string * string) F)
    (sonority_factor : F) :
  length wghA = length wghA' → length wghB = length wghB' →
  outcome_rel same_matchings
    (build_scorer key seqA seqB wghA wghB prsA prsB score_dict sonority_factor)
    (build_scorer key seqA seqB wghA' wghB' prsA prsB score_dict sonority_factor).
Proof.
  intros HlenA HlenB. unfold build_scorer. cbv zeta.
  apply (bind_rel same_matchings).
  { apply (copy_weights_same wghB wghB' _ (λ s k w, upd2 s k 0 w));
      [done| |done].
    intros s s' k w w' Hs i j Hi Hj. unfold upd2.
    replace ((i =? k) && (j =? 0)) with false by lia. by apply Hs. }
  intros s1 s1' Hs1.
  apply (bind_rel same_matchings).
  { apply (copy_weights_same wghA wghA' _ (λ s k w, upd2 s 0 k w));
      [done| |done].
    intros s s' k w w' Hs i j Hi Hj. unfold upd2.
    replace ((i =? 0) && (j =? k)) with false by lia. by apply Hs. }
  intros s2 s2' Hs2.
  apply for_eachM_rel; [done|]. intros k s s' _ Hs.
  apply for_eachM_rel; [done|]. intros l t t' _ Ht.
  by apply score_cell_same_matchings.
Qed.

(** X20.  In dialign mode the gap weights and [scale] have no effect on the
    result: two lists of weights of the same lengths, with any two values of
    [scale], give the same alignment and the same score. *)
Theorem dialign_ignores_gap_weights {F : Type} `{FloatOps F}
    (seqA seqB : list string) (wghA wghB wghA' wghB' : list F)
    (resA resB : list Z) (prsA prsB : string)
    (score_dict : gmap (string * string) F)
    (scale scale' sonority_factor : F) :
  length wghA = length wghA' → length wghB = length wghB' →
  align_pairwise seqA seqB wghA wghB resA resB prsA prsB score_dict
    scale sonority_factor "dialign"
  = align_pairwise seqA seqB wghA' wghB' resA resB prsA prsB score_dict
      scale' sonority_factor "dialign".
Proof.
  intros HlenA HlenB. unfold align_pairwise, align_pair.
  pose proof (build_scorer_same_matchings key_AB seqA seqB wghA wghB wghA' wghB'
                prsA prsB score_dict sonority_factor HlenA HlenB) as Hb.
  destruct (build_scorer key_AB seqA seqB wghA wghB _ _ _ _) as [s| | |],
    (build_scorer key_AB seqA seqB wghA' wghB' _ _ _ _) as [s'| | |];
    try done; [|simpl in Hb; by subst].
  simpl in Hb. cbn [mbind outcome_bind].
  destruct (int_array resA _) as [arrayA| | |]; try done.
  destruct (int_array resB _) as [arrayB| | |]; try done.
  cbn [mbind outcome_bind].
  change (select_kernel "dialign") with (Some (@_dialign F _)).
  cbv beta iota.
  by rewrite (dialign_same arrayA arrayB _ _ s s' scale scale').
Qed.

Lemma dialign_ignores_gap_weights_witness :
  align_pairwise ["k"; "a"; "t"] ["k"; "t"] [-1; -1; -1] [-1; -1]
    [0; 0; 0] [0; 0] "CVC" "CC" (uniform_scores ["k"; "a"; "t"] 3 (-1))
    1 0 "dialign"
  = align_pairwise ["k"; "a"; "t"] ["k"; "t"] [-9; 4; 0] [7; -2]
      [0; 0; 0] [0; 0] "CVC" "CC" (uniform_scores ["k"; "a"; "t"] 3 (-1))
      5 0 "dialign".
Proof.
  apply (dialign_ignores_gap_weights ["k"; "a"; "t"] ["k"; "t"] [-1; -1; -1]
           [-1; -1] [-9; 4; 0] [7; -2] [0; 0; 0] [0; 0] "CVC" "CC"
           (uniform_scores ["k"; "a"; "t"] 3 (-1)) 1 5 0); reflexivity.
Defined.

(** ** The local similarity is not negative *)

(** An invariant of the fill that knows the cell the next round writes. *)
Lemma fill_cells_ind {St : Type} (lA lB : Z) (cell : Z → Z → St → St)
    (I : Z → Z → St → Prop) (st0 : St) :
  0 ≤ lA → 0 ≤ lB →
  I 1 1 st0 →
  (∀ i j st, 1 ≤ i ≤ lB → 1 ≤ j ≤ lA → I i j st → I i (j + 1) (cell i j st)) →
  (∀ i st, 1 ≤ i ≤ lB → I i (lA + 1) st → I (i + 1) 1 st) →
  I (lB + 1) 1 (fill_cells lA lB cell st0).
Proof.
  intros HlA HlB H0 Hcell Hrow. unfold fill_cells.
  replace (lB + 1) with (1 + lB) by lia.
  apply (for_range_ind (λ i s, I i 1 s)); [done..|].
  intros i s Hi Hs. apply Hrow; [lia|].
  replace (lA + 1) with (1 + lA) by lia.
  apply (for_range_ind (λ j t, I i j t)); [done..|].
  intros j t Hj Ht. apply Hcell; (done || lia).
Qed.

Section LocalMaximum.
Context {F : Type} `{FloatOrder F}.
Variables (arrayA : Z → Z) (lA : Z) (arrayB : Z → Z) (lB : Z).
Variables (scorer : Z → Z → F) (scale : F).
Hypothesis fge_trans : ∀ x y z : F,
  fge x y = true → fge y z = true → fge x z = true.

(** A round either moves the maximum to its own cell, whose value is at
    least the old maximum, or leaves it alone. *)
Lemma local_cell_max (i j : Z) (ls : local_state) :
  let ls' := local_cell arrayA lA arrayB lB scorer scale i j ls in
  (imax ls' = Some i ∧ jmax ls' = Some j ∧
   max_score ls' = matrix (l_dp ls') i j ∧
   fge (max_score ls') (max_score ls) = true) ∨
  (imax ls' = imax ls ∧ jmax ls' = jmax ls ∧ max_score ls' = max_score ls).
Proof.
  cbv zeta. unfold local_cell.
  repeat case_branch; simpl; auto.
Qed.

Lemma local_fill_max :
  0 ≤ lA → 0 ≤ lB →
  let ls := local_fill arrayA lA arrayB lB scorer scale in
  fge (max_score ls) (f_of_Z 0) = true ∧
  ∀ a b, imax ls = Some a → jmax ls = Some b →
    matrix (l_dp ls) a b = max_score ls.
Proof.
  intros HlA HlB. cbv zeta. unfold local_fill.
  pose (I := λ (i j : Z) (ls : @local_state F),
          fge (max_score ls) (f_of_Z 0) = true ∧
          ∀ a b, imax ls = Some a → jmax ls = Some b →
            matrix (l_dp ls) a b = max_score ls ∧ earlier a b i j).
  assert (I (lB + 1) 1
            (fill_cells lA lB (local_cell arrayA lA arrayB lB scorer scale)
               (LocalState (local_init lA lB) (f_of_Z 0) None None)))
    as [Hge Hmax].
  { apply (fill_cells_ind lA lB _ I); [done|done| | |].
    - split; [apply fge_zero_refl|done].
    - intros i j ls Hi Hj [Hge Hmax].
      destruct (local_cell_max i j ls) as [(Hi' & Hj' & Hm & Hs)|(Hi' & Hj' & Hm)].
      + split; [by eapply fge_trans|].
        intros a b Ha Hb. rewrite Hi' in Ha. rewrite Hj' in Hb.
        simplify_eq. split; [done|]. unfold earlier. lia.
      + split; [by rewrite Hm|].
        intros a b Ha Hb. rewrite Hi' in Ha. rewrite Hj' in Hb.
        destruct (Hmax a b Ha Hb) as [Hv He].
        destruct (local_cell_frame arrayA lA arrayB lB scorer scale i j ls a b)
          as [-> _].
        { unfold earlier in He. lia. }
        rewrite Hm. split; [done|]. unfold earlier in *. lia.
    - intros i ls Hi [Hge Hmax]. split; [done|].
      intros a b Ha Hb. destruct (Hmax a b Ha Hb) as [Hv He].
      split; [done|]. unfold earlier in *. lia. }
  split; [done|]. intros a b Ha Hb. by apply Hmax.
Qed.
End LocalMaximum.

(** X21.  In local mode a returned similarity is never negative, restrictions or
    not: it is the running maximum, which starts at 0. *)
Theorem local_similarity_nonneg {F : Type} `{FloatOrder F}
    (seqA seqB : list string) (wghA wghB : list F) (resA resB : list Z)
    (prsA prsB : string) (score_dict : gmap (string * string) F)
    (scale sonority_factor : F) (outA outB : list string) (sim : F) :
  (∀ x y z : F, fge x y = true → fge y z = true → fge x z = true) →
  align_pairwise seqA seqB wghA wghB resA resB prsA prsB score_dict
    scale sonority_factor "local" = Ok (outA, outB, sim) →
  fge sim (f_of_Z 0) = true.
Proof.
  intros Htrans Hp. unfold align_pairwise in Hp.
  apply align_pair_Ok in Hp
    as (k & scorer & arrayA & arrayB & almA & almB & Hsel & _ & _ & _ & Hk & _).
  change (select_kernel "local") with (Some (@_local F _)) in Hsel.
  injection Hsel as <-. unfold _local in Hk.
  destruct ((Z.of_nat (length seqB) <? 0) || (Z.of_nat (length seqA) <? 0));
    [done|].
  cbv zeta in Hk.
  destruct (local_fill_max arrayA (Z.of_nat (length seqA)) arrayB
              (Z.of_nat (length seqB)) scorer scale Htrans) as [Hge Hmax];
    [lia..|].
  destruct (imax _) as [i|] eqn:Hi; [|done].
  destruct (jmax _) as [j|] eqn:Hj; [|done].
  destruct (local_walk _ _ _ _ _ _) as [[[[i' j'] a] b]| | |]; try done.
  simpl in Hk. injection Hk as <- _ _.
  by rewrite (Hmax i j).
Qed.

Lemma local_similarity_nonneg_witness :
  fge (F := Z) 3 (f_of_Z 0) = true.
Proof.
  apply (local_similarity_nonneg ["x"; "a"; "b"; "c"; "y"] ["a"; "b"; "c"]
           [-5; -5; -5; -5; -5] [-5; -5; -5] [0; 0; 0; 0; 0] [0; 0; 0]
           "CVCVC" "VCV" (uniform_scores ["a"; "b"; "c"; "x"; "y"] 1 (-1))
           1 0 ["*"; "a"; "b"; "c"; "*"] ["a"; "b"; "c"] 3).
  - intros x y z. simpl. lia.
  - vm_compute. reflexivity.
Defined.

(** ** The batch drivers *)

Lemma outcome_mapM_app {A B : Type} (f : A → outcome B) (l1 l2 : list A) :
  outcome_mapM f (l1 ++ l2)
  = ys1 ← outcome_mapM f l1; ys2 ← outcome_mapM f l2; Ok (ys1 ++ ys2).
Proof.
  induction l1 as [|x l1 IH]; simpl.
  - by destruct (outcome_mapM f l2).
  - destruct (f x) as [y| | |]; try done. simpl. rewrite IH.
    destruct (outcome_mapM f l1) as [ys1| | |]; try done. simpl.
    by destruct (outcome_mapM f l2).
Qed.

Lemma outcome_mapM_length {A B : Type} (f : A → outcome B) (l : list A)
    (ys : list B) :
  outcome_mapM f l = Ok ys → length ys = length l.
Proof.
  revert ys. induction l as [|x l IH]; intros ys Hm; simpl in Hm.
  - by injection Hm as <-.
  - destruct (f x) as [y| | |]; try done. simpl in Hm.
    destruct (outcome_mapM f l) as [ys'| | |]; try done. simpl in Hm.
    injection Hm as <-. simpl. by rewrite (IH ys').
Qed.

Lemma outcome_mapM_ext {A B : Type} (f g : A → outcome B) (l : list A) :
  (∀ x, x ∈ l → f x = g x) → outcome_mapM f l = outcome_mapM g l.
Proof.
  induction l as [|x l IH]; intros Hfg; [done|]. simpl.
  rewrite Hfg by left. destruct (g x); try done. simpl.
  rewrite IH; [done|]. intros y Hy. apply Hfg. by right.
Qed.

Lemma outcome_mapM_fmap {A A' B : Type} (h : A → A') (f : A' → outcome B)
    (l : list A) :
  outcome_mapM f (h <$> l) = outcome_mapM (f ∘ h) l.
Proof.
  induction l as [|x l IH]; [done|]. simpl. by rewrite <- IH.
Qed.

(** A loop that appends one result in every round. *)
Lemma for_eachM_append {B : Type} (f : Z → outcome (list B)) (ks : list Z)
    (acc : list B) :
  for_eachM ks (λ k acc, ts ← f k; Ok (acc ++ ts)) acc
  = tss ← outcome_mapM f ks; Ok (acc ++ concat tss).
Proof.
  revert acc. induction ks as [|k ks IH]; intros acc; simpl.
  - by rewrite app_nil_r.
  - destruct (f k) as [ts| | |]; try done. simpl. rewrite IH.
    destruct (outcome_mapM f ks) as [tss| | |]; try done. simpl.
    by rewrite app_assoc.
Qed.

Lemma for_eachM_collect {B : Type} (f : Z → outcome B) (ks : list Z)
    (acc : list B) :
  for_eachM ks (λ k acc, t ← f k; Ok (acc ++ [t])) acc
  = ts ← outcome_mapM f ks; Ok (acc ++ ts).
Proof.
  revert acc. induction ks as [|k ks IH]; intros acc; simpl.
  - by rewrite app_nil_r.
  - destruct (f k) as [t| | |]; try done. simpl. rewrite IH.
    destruct (outcome_mapM f ks) as [ts| | |]; try done. simpl.
    by rewrite <- app_assoc.
Qed.

Lemma outcome_mapM_indices {X B : Type} (l : list X) (f : Z → outcome B)
    (g : X → outcome B) (lo : Z) :
  (∀ i x, l !! i = Some x → f (lo + Z.of_nat i) = g x) →
  outcome_mapM f (seqZ lo (Z.of_nat (length l))) = outcome_mapM g l.
Proof.
  revert lo. induction l as [|x l IH]; intros lo Hfg; [done|].
  simpl length. rewrite Nat2Z.inj_succ, seqZ_cons by lia. simpl.
  rewrite <- (Hfg 0%nat x) by done. rewrite Z.add_0_r.
  destruct (f lo); try done. simpl.
  replace (Z.pred (Z.succ (Z.of_nat (length l)))) with (Z.of_nat (length l))
    by lia.
  rewrite (IH (Z.succ lo)); [done|].
  intros i y Hy. rewrite <- (Hfg (S i) y) by done. f_equal. lia.
Qed.

Lemma py_get_lookup {T : Type} (l : list T) (i : nat) (x : T) :
  l !! i = Some x → py_get l (Z.of_nat i) = Ok x.
Proof. intros Hx. unfold py_get. by rewrite Nat2Z.id, Hx. Qed.

(** X22.  The driver of given pairs returns, in order, what [align_pairwise]
    returns for each pair, or the first outcome that is not an alignment. *)
Theorem align_sequence_pairs_maps {F : Type} `{FloatOps F}
    (seqs : list (list string * list string))
    (weights : list (list F * list F)) (restrictions : list (list Z * list Z))
    (prosodics : list (string * string))
    (score_dict : gmap (string * string) F)
    (scale sonority_factor : F) (mode : string) :
  (length seqs ≤ length weights)%nat →
  (length seqs ≤ length restrictions)%nat →
  (length seqs ≤ length prosodics)%nat →
  align_sequence_pairs seqs weights restrictions prosodics score_dict
    scale sonority_factor mode
  = outcome_mapM
      (λ '(s, w, r, p),
         align_pairwise s.1 s.2 w.1 w.2 r.1 r.2 p.1 p.2 score_dict
           scale sonority_factor mode)
      (zip (zip (zip seqs weights) restrictions) prosodics).
Proof.
  intros Hw Hr Hp. unfold align_sequence_pairs. cbv zeta.
  rewrite (for_eachM_pointwise _ _
             (λ i acc,
                t ← (s ← py_get seqs i; w ← py_get weights i;
                     r ← py_get restrictions i; p ← py_get prosodics i;
                     align_pair key_AB (select_kernel mode) s.1 s.2 w.1 w.2
                       r.1 r.2 p.1 p.2 score_dict scale sonority_factor);
                Ok (acc ++ [t]))).
  2:{ intros i acc.
      destruct (py_get seqs i); try done. simpl.
      destruct (py_get weights i); try done. simpl.
      destruct (py_get restrictions i); try done. simpl.
      by destruct (py_get prosodics i). }
  rewrite for_eachM_collect.
  assert (length (zip (zip (zip seqs weights) restrictions) prosodics)
          = length seqs) as Hlen.
  { rewrite !length_zip. lia. }
  rewrite <- Hlen.
  rewrite (outcome_mapM_indices _ _
             (λ '(s, w, r, p),
                align_pairwise s.1 s.2 w.1 w.2 r.1 r.2 p.1 p.2 score_dict
                  scale sonority_factor mode)).
  { by destruct (outcome_mapM _ _). }
  intros i [[[s w] r] p] Hx.
  apply lookup_zip_with_Some in Hx as (x1 & p' & [= <- <-] & Hx & Hp').
  apply lookup_zip_with_Some in Hx as (x2 & r' & [= <- <-] & Hx & Hr').
  apply lookup_zip_with_Some in Hx as (s' & w' & [= <- <-] & Hs' & Hw').
  rewrite Z.add_0_l.
  rewrite (py_get_lookup _ _ _ Hs'), (py_get_lookup _ _ _ Hw'),
    (py_get_lookup _ _ _ Hr'), (py_get_lookup _ _ _ Hp').
  done.
Qed.

Lemma align_sequence_pairs_maps_witness :
  align_sequence_pairs [(["a"], ["a"]); (["a"; "b"], ["b"])]
    [([-1], [-1]); ([-1; -1], [-1])] [([0], [0]); ([0; 0], [0])]
    [("V", "V"); ("VC", "C")] (uniform_scores ["a"; "b"] 1 (-1)) 1 0 "global"
  = outcome_mapM
      (λ '(s, w, r, p),
         align_pairwise s.1 s.2 w.1 w.2 r.1 r.2 p.1 p.2
           (uniform_scores ["a"; "b"] 1 (-1)) 1 0 "global")
      (zip (zip (zip [(["a"], ["a"]); (["a"; "b"], ["b"])]
                     [([-1], [-1]); ([-1; -1], [-1])])
                [([0], [0]); ([0; 0], [0])])
           [("V", "V"); ("VC", "C")]).
Proof.
  apply (align_sequence_pairs_maps [(["a"], ["a"]); (["a"; "b"], ["b"])]
           [([-1], [-1]); ([-1; -1], [-1])] [([0], [0]); ([0; 0], [0])]
           [("V", "V"); ("VC", "C")] (uniform_scores ["a"; "b"] 1 (-1))
           1 0 "global"); simpl; lia.
Defined.

Lemma for_eachM_app {St : Type} (l1 l2 : list Z) (body : Z → St → outcome St)
    (st : St) :
  for_eachM (l1 ++ l2) body st = st' ← for_eachM l1 body st; for_eachM l2 body st'.
Proof.
  revert st. induction l1 as [|k l1 IH]; intros st; [done|]. simpl.
  destruct (body k st); try done. simpl. apply IH.
Qed.

Lemma for_eachM_ext_in {St : Type} (ks : list Z)
    (body body' : Z → St → outcome St) (st : St) :
  (∀ k s, k ∈ ks → body k s = body' k s) →
  for_eachM ks body st = for_eachM ks body' st.
Proof.
  revert st. induction ks as [|k ks IH]; intros st Hb; [done|]. simpl.
  rewrite Hb by left. destruct (body' k st); try done. simpl.
  apply IH. intros k' s Hk'. apply Hb. by right.
Qed.

Lemma for_eachM_skip {St : Type} (ks : list Z) (body : Z → St → outcome St)
    (st : St) :
  (∀ k s, k ∈ ks → body k s = Ok s) → for_eachM ks body st = Ok st.
Proof.
  revert st. induction ks as [|k ks IH]; intros st Hb; [done|]. simpl.
  rewrite Hb by left. simpl. apply IH. intros k' s Hk'. apply Hb. by right.
Qed.

Lemma outcome_mapM_bind {A A' B : Type} (h : A' → outcome B) (k : A → list A')
    (l : list A) :
  outcome_mapM h (l ≫= k)
  = tss ← outcome_mapM (λ x, outcome_mapM h (k x)) l; Ok (concat tss).
Proof.
  induction l as [|x l IH]; [done|].
  change ((x :: l) ≫= k) with (k x ++ (l ≫= k)).
  rewrite outcome_mapM_app, IH. simpl.
  destruct (outcome_mapM h (k x)) as [ys| | |]; try done. simpl.
  by destruct (outcome_mapM _ l).
Qed.

Lemma length_index_pairs (n : nat) :
  (2 * length (index_pairs (Z.of_nat n)) = n * (n - 1))%nat.
Proof.
  unfold index_pairs.
  assert (∀ m lo, (lo + m = n)%nat →
            (2 * length (seqZ (Z.of_nat lo) (Z.of_nat m) ≫=
                          λ i, (λ j, (i, j)) <$> seqZ (i + 1) (Z.of_nat n - i - 1))
             = m * (m - 1))%nat) as Hgen.
  { induction m as [|m IH]; intros lo Hlo; [done|].
    rewrite Nat2Z.inj_succ, seqZ_cons by lia.
    change ((?x :: ?l) ≫= ?k) with (k x ++ (l ≫= k)).
    rewrite length_app, length_fmap, length_seqZ.
    replace (Z.pred (Z.succ (Z.of_nat m))) with (Z.of_nat m) by lia.
    replace (Z.succ (Z.of_nat lo)) with (Z.of_nat (S lo)) by lia.
    specialize (IH (S lo)). nia. }
  apply (Hgen n 0%nat). lia.
Qed.

Lemma py_get_total {T : Type} `{Inhabited T} (l : list T) (k : Z) :
  0 ≤ k < Z.of_nat (length l) → py_get l k = Ok (l !!! Z.to_nat k).
Proof.
  intros Hk. unfold py_get.
  destruct (lookup_lt_is_Some_2 l (Z.to_nat k)) as [x Hx]; [lia|].
  rewrite Hx. by rewrite (list_lookup_total_correct _ _ _ Hx).
Qed.

Section AllPairs.
Context {F : Type} `{FloatOps F}.
Variables (seqs : list (list string)) (weights : list (list F)).
Variables (restrictions : list (list Z)) (prosodics : list string).
Variables (score_dict : gmap (string * string) F).
Variables (scale sonority_factor : F) (mode : string).

Lemma all_pairs_loops :
  align_sequences_pairwise seqs weights restrictions prosodics score_dict
    scale sonority_factor mode
  = outcome_mapM
      (λ '(i, j), pair_body seqs weights restrictions prosodics score_dict
                    scale sonority_factor mode i j)
      (index_pairs (Z.of_nat (length seqs))).
Proof.
  unfold align_sequences_pairwise. cbv zeta.
  set (n := Z.of_nat (length seqs)).
  rewrite (for_eachM_ext_in _ _
             (λ i acc,
                ts ← outcome_mapM
                       (pair_body seqs weights restrictions prosodics score_dict
                          scale sonority_factor mode i)
                       (seqZ (i + 1) (n - i - 1));
                Ok (acc ++ ts))).
  2:{ intros i acc Hi. apply elem_of_seqZ in Hi.
      replace (seqZ 0 n) with (seqZ 0 (i + 1) ++ seqZ (0 + (i + 1)) (n - i - 1)).
      2:{ rewrite <- seqZ_app by lia. f_equal. lia. }
      rewrite for_eachM_app, for_eachM_skip.
      2:{ intros j s Hj. apply elem_of_seqZ in Hj.
          by replace (i <? j) with false by lia. }
      cbn [mbind outcome_bind]. rewrite Z.add_0_l.
      rewrite (for_eachM_ext_in _ _
                 (λ j acc,
                    t ← pair_body seqs weights restrictions prosodics
                          score_dict scale sonority_factor mode i j;
                    Ok (acc ++ [t]))).
      2:{ intros j s Hj. apply elem_of_seqZ in Hj.
          replace (i <? j) with true by lia. unfold pair_body.
          destruct (py_get seqs i); try done. simpl.
          destruct (py_get seqs j); try done. simpl.
          destruct (py_get weights i); try done. simpl.
          destruct (py_get weights j); try done. simpl.
          destruct (py_get restrictions i); try done. simpl.
          destruct (py_get restrictions j); try done. simpl.
          destruct (py_get prosodics i); try done. simpl.
          by destruct (py_get prosodics j). }
      apply for_eachM_collect. }
  rewrite for_eachM_append. unfold index_pairs.
  rewrite outcome_mapM_bind. simpl.
  f_equal.
  - apply outcome_mapM_ext. intros i _. by rewrite outcome_mapM_fmap.
Qed.

Lemma pair_body_align (i j : Z) :
  (length seqs ≤ length weights)%nat →
  (length seqs ≤ length restrictions)%nat →
  (length seqs ≤ length prosodics)%nat →
  0 ≤ i < Z.of_nat (length seqs) → 0 ≤ j < Z.of_nat (length seqs) →
  pair_body seqs weights restrictions prosodics score_dict scale
    sonority_factor mode i j
  = align_pairwise (seqs !!! Z.to_nat i) (seqs !!! Z.to_nat j)
      (weights !!! Z.to_nat i) (weights !!! Z.to_nat j)
      (restrictions !!! Z.to_nat i) (restrictions !!! Z.to_nat j)
      (prosodics !!! Z.to_nat i) (prosodics !!! Z.to_nat j)
      (transpose score_dict) scale sonority_factor mode.
Proof.
  intros Hw Hr Hp Hi Hj. unfold pair_body, align_pairwise.
  rewrite <- align_pair_transpose.
  rewrite !py_get_total by lia. done.
Qed.
End AllPairs.

(** X23.  The all-pairs driver returns one alignment for every pair of indices
    [i < j], ordered by [i] and then by [j]: what [align_pairwise] returns
    for the two sequences on the transposed similarity mapping, or the first
    outcome that is not an alignment; on success there are
    [n * (n - 1) / 2] of them. *)
Theorem align_sequences_pairwise_maps {F : Type} `{FloatOps F}
    (seqs : list (list string)) (weights : list (list F))
    (restrictions : list (list Z)) (prosodics : list string)
    (score_dict : gmap (string * string) F)
    (scale sonority_factor : F) (mode : string) :
  (length seqs ≤ length weights)%nat →
  (length seqs ≤ length restrictions)%nat →
  (length seqs ≤ length prosodics)%nat →
  align_sequences_pairwise seqs weights restrictions prosodics score_dict
    scale sonority_factor mode
  = outcome_mapM
      (λ '(i, j),
         align_pairwise (seqs !!! Z.to_nat i) (seqs !!! Z.to_nat j)
           (weights !!! Z.to_nat i) (weights !!! Z.to_nat j)
           (restrictions !!! Z.to_nat i) (restrictions !!! Z.to_nat j)
           (prosodics !!! Z.to_nat i) (prosodics !!! Z.to_nat j)
           (transpose score_dict) scale sonority_factor mode)
      (index_pairs (Z.of_nat (length seqs))) ∧
  ∀ ts,
    align_sequences_pairwise seqs weights restrictions prosodics score_dict
      scale sonority_factor mode = Ok ts →
    (2 * length ts = length seqs * (length seqs - 1))%nat.
Proof.
  intros Hw Hr Hp. rewrite all_pairs_loops. split.
  - apply outcome_mapM_ext. intros [i j] Hij.
    unfold index_pairs in Hij.
    apply list_elem_of_bind in Hij as (i' & Hj & Hi).
    apply list_elem_of_fmap in Hj as (j' & [= <- <-] & Hj).
    apply elem_of_seqZ in Hi, Hj.
    apply pair_body_align; (done || lia).
  - intros ts Hts. apply outcome_mapM_length in Hts.
    rewrite Hts. apply length_index_pairs.
Qed.

Lemma align_sequences_pairwise_maps_witness :
  align_sequences_pairwise [["a"]; ["b"]; ["a"; "b"]] [[-1]; [-1]; [-1; -1]]
    [[0]; [0]; [0; 0]] ["V"; "C"; "VC"] (uniform_scores ["a"; "b"] 1 (-1))
    1 0 "global"
  = outcome_mapM
      (λ '(i, j),
         align_pairwise ([["a"]; ["b"]; ["a"; "b"]] !!! Z.to_nat i)
           ([["a"]; ["b"]; ["a"; "b"]] !!! Z.to_nat j)
           ([[-1]; [-1]; [-1; -1]] !!! Z.to_nat i)
           ([[-1]; [-1]; [-1; -1]] !!! Z.to_nat j)
           ([[0]; [0]; [0; 0]] !!! Z.to_nat i)
           ([[0]; [0]; [0; 0]] !!! Z.to_nat j)
           (["V"; "C"; "VC"] !!! Z.to_nat i) (["V"; "C"; "VC"] !!! Z.to_nat j)
           (transpose (uniform_scores ["a"; "b"] 1 (-1))) 1 0 "global")
      (index_pairs (Z.of_nat (length [["a"]; ["b"]; ["a"; "b"]]))) ∧
  ∀ ts,
    align_sequences_pairwise [["a"]; ["b"]; ["a"; "b"]] [[-1]; [-1]; [-1; -1]]
      [[0]; [0]; [0; 0]] ["V"; "C"; "VC"] (uniform_scores ["a"; "b"] 1 (-1))
      1 0 "global" = Ok ts →
    (2 * length ts
     = length [["a"]; ["b"]; ["a"; "b"]]
       * (length [["a"]; ["b"]; ["a"; "b"]] - 1))%nat.
Proof.
  apply (align_sequences_pairwise_maps [["a"]; ["b"]; ["a"; "b"]]
           [[-1]; [-1]; [-1; -1]] [[0]; [0]; [0; 0]] ["V"; "C"; "VC"]
           (uniform_scores ["a"; "b"] 1 (-1)) 1 0 "global"); simpl; lia.
Defined.

(** ** The content of the scorer *)

(** An invariant of a returning loop, indexed by the next value of the
    counter. *)
Lemma for_eachM_ind {St : Type} (P : Z → St → Prop) (lo : Z) (n : nat)
    (body : Z → St → outcome St) (st st' : St) :
  for_eachM (seqZ lo (Z.of_nat n)) body st = Ok st' →
  P lo st →
  (∀ k s s', lo ≤ k < lo + Z.of_nat n → P k s → body k s = Ok s' →
     P (k + 1) s') →
  P (lo + Z.of_nat n) st'.
Proof.
  revert st'. induction n as [|n IH]; intros st' Hloop Hst Hstep.
  - simpl in Hloop. injection Hloop as <-. by rewrite Z.add_0_r.
  - rewrite seqZ_S, for_eachM_app in Hloop.
    destruct (for_eachM (seqZ lo (Z.of_nat n)) body st) as [s| | |] eqn:Hs;
      try done.
    simpl in Hloop.
    destruct (body (lo + Z.of_nat n) s) as [s2| | |] eqn:Hb; try done.
    simpl in Hloop. injection Hloop as <-.
    replace (lo + Z.of_nat (S n)) with (lo + Z.of_nat n + 1) by lia.
    apply (Hstep _ s); [lia| |done].
    apply IH; [done..|]. intros k t t' Hk. apply Hstep. lia.
Qed.

Section ScorerCells.
Context {F : Type} `{FloatOps F}.
Variable key : string → string → string * string.
Variables (seqA seqB : list string) (wghA wghB : list F).
Variables (prsA prsB : string) (score_dict : gmap (string * string) F).
Variable sonority_factor : F.

Lemma score_cell_matching (k l : Z) (scorer scorer' : Z → Z → F) :
  score_cell key seqA seqB prsA prsB score_dict sonority_factor k l scorer
  = Ok scorer' →
  matching_score key seqA seqB prsA prsB score_dict sonority_factor scorer' k l ∧
  ∀ k' l', k' ≠ k ∨ l' ≠ l → scorer' k' l' = scorer k' l'.
Proof.
  unfold score_cell, py_get, dict_get. intros Hc.
  destruct (seqA !! Z.to_nat (l - 1)) as [a|] eqn:Ha; [|done].
  destruct (seqB !! Z.to_nat (k - 1)) as [b|] eqn:Hb; [|done].
  simpl in Hc.
  destruct (score_dict !! key a b) as [s|] eqn:Hs; [|done].
  simpl in Hc.
  destruct (str_get prsA (l - 1)) as [ca| | |] eqn:Hca; try done.
  destruct (str_get prsB (k - 1)) as [cb| | |] eqn:Hcb; try done.
  simpl in Hc. injection Hc as <-. split.
  - exists a, b, s, ca, cb. repeat split; try done. by rewrite upd2_eq.
  - intros k' l' Hne. by rewrite upd2_ne.
Qed.

Lemma matching_score_frame (scorer scorer' : Z → Z → F) (k l : Z) :
  scorer' k l = scorer k l →
  matching_score key seqA seqB prsA prsB score_dict sonority_factor scorer k l →
  matching_score key seqA seqB prsA prsB score_dict sonority_factor scorer' k l.
Proof.
  intros Heq (a & b & s & ca & cb & Ha & Hb & Hs & Hca & Hcb & Hv).
  exists a, b, s, ca, cb. repeat split; try done. by rewrite Heq.
Qed.

Lemma copy_column (n : nat) (s0 s1 : Z → Z → F) :
  for_eachM (seqZ 1 (Z.of_nat n)) (λ k s,
    w ← py_get wghB (k - 1); Ok (upd2 s k 0 w)) s0 = Ok s1 →
  (∀ k, 1 ≤ k ≤ Z.of_nat n → wghB !! Z.to_nat (k - 1) = Some (s1 k 0)) ∧
  (∀ i j, j ≠ 0 ∨ i < 1 → s1 i j = s0 i j).
Proof.
  intros Hloop.
  pose (P := λ (k : Z) (s : Z → Z → F),
          (∀ k', 1 ≤ k' < k → wghB !! Z.to_nat (k' - 1) = Some (s k' 0)) ∧
          (∀ i j, j ≠ 0 ∨ i < 1 → s i j = s0 i j)).
  assert (P (1 + Z.of_nat n) s1) as [Hcol Hframe].
  { apply (for_eachM_ind P 1 n _ s0 s1 Hloop).
    - split; [intros k' Hk'; lia|done].
    - intros k s s' Hk [Hcol Hframe] Hbody. unfold py_get in Hbody.
      destruct (wghB !! Z.to_nat (k - 1)) as [w|] eqn:Hw; [|done].
      simpl in Hbody. injection Hbody as <-. split.
      + intros k' Hk'. destruct (decide (k' = k)) as [->|Hne].
        * by rewrite upd2_eq.
        * rewrite upd2_ne by lia. apply Hcol. lia.
      + intros i j Hij. rewrite upd2_ne by lia. by apply Hframe. }
  split; [|done]. intros k Hk. apply Hcol. lia.
Qed.

Lemma copy_row (n : nat) (s0 s1 : Z → Z → F) :
  for_eachM (seqZ 1 (Z.of_nat n)) (λ k s,
    w ← py_get wghA (k - 1); Ok (upd2 s 0 k w)) s0 = Ok s1 →
  (∀ l, 1 ≤ l ≤ Z.of_nat n → wghA !! Z.to_nat (l - 1) = Some (s1 0 l)) ∧
  (∀ i j, i ≠ 0 ∨ j < 1 → s1 i j = s0 i j).
Proof.
  intros Hloop.
  pose (P := λ (l : Z) (s : Z → Z → F),
          (∀ l', 1 ≤ l' < l → wghA !! Z.to_nat (l' - 1) = Some (s 0 l')) ∧
          (∀ i j, i ≠ 0 ∨ j < 1 → s i j = s0 i j)).
  assert (P (1 + Z.of_nat n) s1) as [Hrow Hframe].
  { apply (for_eachM_ind P 1 n _ s0 s1 Hloop).
    - split; [intros l' Hl'; lia|done].
    - intros l s s' Hl [Hrow Hframe] Hbody. unfold py_get in Hbody.
      destruct (wghA !! Z.to_nat (l - 1)) as [w|] eqn:Hw; [|done].
      simpl in Hbody. injection Hbody as <-. split.
      + intros l' Hl'. destruct (decide (l' = l)) as [->|Hne].
        * by rewrite upd2_eq.
        * rewrite upd2_ne by lia. apply Hrow. lia.
      + intros i j Hij. rewrite upd2_ne by lia. by apply Hframe. }
  split; [|done]. intros l Hl. apply Hrow. lia.
Qed.

Lemma score_rows (nA nB : nat) (s0 s1 : Z → Z → F) :
  for_eachM (seqZ 1 (Z.of_nat nB)) (λ k scorer,
    for_eachM (seqZ 1 (Z.of_nat nA)) (λ l scorer,
      score_cell key seqA seqB prsA prsB score_dict sonority_factor
        k l scorer) scorer) s0 = Ok s1 →
  (∀ k l, 1 ≤ k ≤ Z.of_nat nB → 1 ≤ l ≤ Z.of_nat nA →
     matching_score key seqA seqB prsA prsB score_dict sonority_factor s1 k l) ∧
  (∀ i j, i < 1 ∨ j < 1 → s1 i j = s0 i j).
Proof.
  intros Hloop.
  pose (P := λ (k l : Z) (s : Z → Z → F),
          (∀ k' l', (1 ≤ k' < k ∧ 1 ≤ l' ≤ Z.of_nat nA) ∨ (k' = k ∧ 1 ≤ l' < l) →
             matching_score key seqA seqB prsA prsB score_dict sonority_factor
               s k' l') ∧
          (∀ i j, i < 1 ∨ j < 1 → s i j = s0 i j)).
  assert (P (1 + Z.of_nat nB) 1 s1) as [Hcells Hframe].
  { apply (for_eachM_ind (λ k s, P k 1 s) 1 nB _ s0 s1 Hloop).
    - split; [intros k' l' Hk'; lia|done].
    - intros k s s' Hk Hs Hrow.
      assert (P k (1 + Z.of_nat nA) s') as [Hc Hf].
      { apply (for_eachM_ind (λ l t, P k l t) 1 nA _ s s' Hrow); [done|].
        intros l t t' Hl [Hc Hf] Hcell.
        apply score_cell_matching in Hcell as [Hm Hother]. split.
        - intros k' l' Hkl.
          destruct (decide (k' = k ∧ l' = l)) as [[-> ->]|Hne]; [done|].
          apply (matching_score_frame t); [apply Hother; lia|].
          apply Hc. lia.
        - intros i j Hij. rewrite Hother by lia. by apply Hf. }
      split; [|done]. intros k' l' Hkl. apply Hc. lia. }
  split; [|done]. intros k l Hk Hl. apply Hcells. lia.
Qed.
End ScorerCells.

Lemma build_scorer_cells {F : Type} `{FloatOps F}
    (key : string → string → string * string)
    (seqA seqB : list string) (wghA wghB : list F) (prsA prsB : string)
    (score_dict : gmap (string * string) F) (sonority_factor : F)
    (scorer : Z → Z → F) :
  build_scorer key seqA seqB wghA wghB prsA prsB score_dict sonority_factor
  = Ok scorer →
  scorer 0 0 = f_of_Z 0 ∧
  (∀ k, 1 ≤ k ≤ Z.of_nat (length seqB) →
     wghB !! Z.to_nat (k - 1) = Some (scorer k 0)) ∧
  (∀ l, 1 ≤ l ≤ Z.of_nat (length seqA) →
     wghA !! Z.to_nat (l - 1) = Some (scorer 0 l)) ∧
  (∀ k l, 1 ≤ k ≤ Z.of_nat (length seqB) → 1 ≤ l ≤ Z.of_nat (length seqA) →
     matching_score key seqA seqB prsA prsB score_dict sonority_factor
       scorer k l).
Proof.
  unfold build_scorer. cbv zeta. intros Hb.
  destruct (for_eachM (seqZ 1 (Z.of_nat (length seqB))) _ _) as [s1| | |] eqn:H1;
    try done.
  cbn [mbind outcome_bind] in Hb.
  destruct (for_eachM (seqZ 1 (Z.of_nat (length seqA))) _ _) as [s2| | |] eqn:H2;
    try done.
  cbn [mbind outcome_bind] in Hb.
  apply copy_column in H1 as [Hcol Hf1].
  apply copy_row in H2 as [Hrow Hf2].
  apply score_rows in Hb as [Hcells Hf3].
  repeat split.
  - rewrite Hf3, Hf2, Hf1 by lia. by rewrite upd2_eq.
  - intros k Hk. rewrite Hf3, Hf2 by lia. by apply Hcol.
  - intros l Hl. rewrite Hf3 by lia. by apply Hrow.
  - done.
Qed.

(** X24.  The scorer that the drivers build holds 0 in cell (0,0), the gap
    weights of B in column 0 and those of A in row 0, and in every other
    cell the similarity of the two symbols, with the prosodic bonus exactly
    when the two prosodic characters are the same. *)
Theorem scorer_cells {F : Type} `{FloatOps F}
    (key : string → string → string * string)
    (seqA seqB : list string) (wghA wghB : list F) (prsA prsB : string)
    (score_dict : gmap (string * string) F) (sonority_factor : F)
    (scorer : Z → Z → F) :
  build_scorer key seqA seqB wghA wghB prsA prsB score_dict sonority_factor
  = Ok scorer →
  scorer 0 0 = f_of_Z 0 ∧
  (∀ k, 1 ≤ k ≤ Z.of_nat (length seqB) →
     wghB !! Z.to_nat (k - 1) = Some (scorer k 0)) ∧
  (∀ l, 1 ≤ l ≤ Z.of_nat (length seqA) →
     wghA !! Z.to_nat (l - 1) = Some (scorer 0 l)) ∧
  (∀ k l, 1 ≤ k ≤ Z.of_nat (length seqB) → 1 ≤ l ≤ Z.of_nat (length seqA) →
     matching_score key seqA seqB prsA prsB score_dict sonority_factor
       scorer k l).
Proof. apply build_scorer_cells. Qed.

Lemma scorer_cells_witness :
  ∃ scorer : Z → Z → Z,
    build_scorer key_AB ["a"; "b"] ["a"] [-2; -2] [-3] "VC" "V"
      (uniform_scores ["a"; "b"] 1 (-1)) 1 = Ok scorer ∧
    scorer 0 0 = f_of_Z 0 ∧
    (∀ k, 1 ≤ k ≤ Z.of_nat (length ["a"]) →
       [-3] !! Z.to_nat (k - 1) = Some (scorer k 0)) ∧
    (∀ l, 1 ≤ l ≤ Z.of_nat (length ["a"; "b"]) →
       [-2; -2] !! Z.to_nat (l - 1) = Some (scorer 0 l)) ∧
    (∀ k l, 1 ≤ k ≤ Z.of_nat (length ["a"]) →
       1 ≤ l ≤ Z.of_nat (length ["a"; "b"]) →
       matching_score key_AB ["a"; "b"] ["a"] "VC" "V"
         (uniform_scores ["a"; "b"] 1 (-1)) 1 scorer k l).
Proof.
  eexists. split; [vm_compute; reflexivity|].
  apply (scorer_cells key_AB ["a"; "b"] ["a"] [-2; -2] [-3] "VC" "V"
           (uniform_scores ["a"; "b"] 1 (-1)) 1).
  vm_compute. reflexivity.
Defined.

(** ** The permutation driver *)

Section RandomPairsCache.
Context {F : Type} `{FloatOps F} {G : Type}.
Variable random_shuffle : G → list Z → G * list Z.
Variables (seqs : list (list string * list string)).
Variables (weights : list (list F * list F)).
Variables (restrictions : list (list Z * list Z)).
Variables (prosodics : list (string * string)).
Variables (score_dict : gmap (string * string) F).
Variables (scale sonority_factor : F) (mode : string).

Lemma random_round_cached (v : list Z) (i : Z)
    (alm_pairs : gmap (Z * Z) (list string * list string))
    (corrs : gmap (string * string) nat) :
  cache_ok (select_kernel mode) seqs weights restrictions prosodics score_dict
    scale sonority_factor alm_pairs →
  outcome_rel
    (λ (st : random_state) corrs',
       st.2 = corrs' ∧
       cache_ok (select_kernel mode) seqs weights restrictions prosodics
         score_dict scale sonority_factor st.1)
    (random_round (select_kernel mode) seqs weights restrictions prosodics
       score_dict scale sonority_factor mode v i (alm_pairs, corrs))
    (random_round_uncached (select_kernel mode) seqs weights restrictions
       prosodics score_dict scale sonority_factor mode v i corrs).
Proof.
  intros Hcache. unfold random_round, random_round_uncached.
  destruct (vec_get v i) as [vi| | |]; try done.
  cbn [mbind outcome_bind].
  destruct (alm_pairs !! (vi, i)) as [[outA outB]|] eqn:Hhit.
  - rewrite (Hcache vi i outA outB Hhit). cbn [mbind outcome_bind].
    destruct (if negb (mode =? "local")%string then _ else _) as [c| | |];
      try done.
  - destruct (cross_pair _ _ _ _ _ _ _ _ vi i) as [[outA outB]| | |] eqn:Hc;
      try done.
    cbn [mbind outcome_bind].
    destruct (if negb (mode =? "local")%string then _ else _) as [c| | |];
      try done.
    simpl. split; [done|].
    intros vi' i' oA oB Hl.
    destruct (decide ((vi', i') = (vi, i))) as [[= -> ->]|Hne].
    + rewrite lookup_insert_eq in Hl. by injection Hl as <- <-.
    + rewrite lookup_insert_ne in Hl by done. by apply Hcache.
Qed.

Lemma random_rounds_cached (v : list Z) (ks : list Z) (st : random_state)
    (corrs : gmap (string * string) nat) :
  st.2 = corrs →
  cache_ok (select_kernel mode) seqs weights restrictions prosodics score_dict
    scale sonority_factor st.1 →
  outcome_rel
    (λ (st : random_state) corrs',
       st.2 = corrs' ∧
       cache_ok (select_kernel mode) seqs weights restrictions prosodics
         score_dict scale sonority_factor st.1)
    (for_eachM ks (λ i st,
       random_round (select_kernel mode) seqs weights restrictions prosodics
         score_dict scale sonority_factor mode v i st) st)
    (for_eachM ks (λ i corrs,
       random_round_uncached (select_kernel mode) seqs weights restrictions
         prosodics score_dict scale sonority_factor mode v i corrs) corrs).
Proof.
  intros Hc Hcache. apply for_eachM_rel; [done|].
  intros i [alm_pairs c] c' _ [<- Hok]. by apply random_round_cached.
Qed.

Lemma random_runs_cached (runs : Z) (rng : G) :
  random_align_sequence_pairs random_shuffle seqs weights restrictions
    prosodics score_dict scale sonority_factor mode runs rng
  = random_align_uncached random_shuffle seqs weights restrictions
      prosodics score_dict scale sonority_factor mode runs rng.
Proof.
  unfold random_align_sequence_pairs, random_align_uncached. cbv zeta.
  pose (R := λ (x : G * list Z * random_state)
               (y : G * list Z * gmap (string * string) nat),
          x.1 = y.1 ∧ x.2.2 = y.2 ∧
          cache_ok (select_kernel mode) seqs weights restrictions prosodics
            score_dict scale sonority_factor x.2.1).
  match goal with
  | |- ?o ≫= _ = ?o' ≫= _ => assert (outcome_rel R o o') as Hrel
  end.
  { apply for_eachM_rel.
    - repeat split. intros vi i outA outB Hl. cbn [fst snd] in Hl.
      by rewrite lookup_empty in Hl.
    - intros m [[g v] [cache c]] [[g' v'] c'] _ ([= <- <-] & Hc & Hok).
      simpl in Hc, Hok. subst c'.
      destruct (random_shuffle g v) as [g2 v2].
      apply (bind_rel (λ (st : random_state) corrs',
                         st.2 = corrs' ∧
                         cache_ok (select_kernel mode) seqs weights restrictions
                           prosodics score_dict scale sonority_factor st.1)).
      + by apply random_rounds_cached.
      + intros [cache2 c2] c2' [Hc2 Hok2]. simpl in *. by subst. }
  revert Hrel.
  match goal with
  | |- outcome_rel R ?o ?o' → _ =>
    destruct o as [[[g v] [cache c]]| | |], o' as [[[g' v'] c']| | |]
  end; try done.
  - intros (_ & Hc & _). simpl in Hc. by subst.
  - simpl. by intros ->.
Qed.
End RandomPairsCache.

(** X25.  The dictionary of aligned pairs never changes the result of the
    permutation driver: for every generator, every input and every mode the
    driver returns what it returns when each alignment is carried out anew. *)
Theorem random_align_cache_sound {F : Type} `{FloatOps F} {G : Type}
    (random_shuffle : G → list Z → G * list Z)
    (seqs : list (list string * list string))
    (weights : list (list F * list F)) (restrictions : list (list Z * list Z))
    (prosodics : list (string * string))
    (score_dict : gmap (string * string) F) (scale sonority_factor : F)
    (mode : string) (runs : Z) (rng : G) :
  random_align_sequence_pairs random_shuffle seqs weights restrictions
    prosodics score_dict scale sonority_factor mode runs rng
  = random_align_uncached random_shuffle seqs weights restrictions
      prosodics score_dict scale sonority_factor mode runs rng.
Proof. apply random_runs_cached. Qed.

(** ** Counting the columns *)

Lemma tally_count_pair (corrs : gmap (string * string) nat)
    (p q : string * string) :
  tally (count_pair corrs q) p
  = (tally corrs p + if decide (q = p) then 1 else 0)%nat.
Proof.
  unfold tally, count_pair.
  destruct (decide (q = p)) as [->|Hne].
  - destruct (corrs !! p) as [c|] eqn:Hc; rewrite lookup_insert_eq; simpl; lia.
  - destruct (corrs !! q) as [c|] eqn:Hc; rewrite lookup_insert_ne by done;
      simpl; lia.
Qed.

Lemma count_pair_None (corrs : gmap (string * string) nat)
    (p q : string * string) :
  count_pair corrs q !! p = None ↔ corrs !! p = None ∧ q ≠ p.
Proof.
  unfold count_pair.
  destruct (corrs !! q) as [c|] eqn:Hc;
    (destruct (decide (q = p)) as [->|Hne];
     [rewrite lookup_insert_eq|rewrite lookup_insert_ne by done]);
    split; try done; try (by intros [_ Hq]); try (by intros [Hq _]);
    try (intros Hq; by split).
Qed.

(** The loop over the columns, up to column [n]. *)
Lemma count_columns_prefix (outA outB : list string) (n : nat)
    (corrs : gmap (string * string) nat) :
  (n ≤ length outA)%nat → (n ≤ length outB)%nat →
  ∃ corrs',
    for_eachM (seqZ 0 (Z.of_nat n)) (λ n corrs,
      a ← py_get outA n; b ← py_get outB n; Ok (count_pair corrs (a, b))) corrs
    = Ok corrs' ∧
    ∀ p,
      tally corrs' p
      = (tally corrs p + columns_with p (take n outA) (take n outB))%nat ∧
      (corrs' !! p = None ↔
       corrs !! p = None ∧ p ∉ zip (take n outA) (take n outB)).
Proof.
  intros HA HB. induction n as [|n IH].
  - exists corrs. split; [done|]. intros p. unfold columns_with. simpl.
    split; [lia|]. split; [|by intros [Hn _]].
    intros Hn. split; [done|]. apply not_elem_of_nil.
  - destruct IH as (c & Hc & Hspec); [lia..|].
    rewrite seqZ_S, for_eachM_app, Hc. cbn [mbind outcome_bind for_eachM].
    rewrite Z.add_0_l.
    destruct (lookup_lt_is_Some_2 outA n) as [a Ha]; [lia|].
    destruct (lookup_lt_is_Some_2 outB n) as [b Hb]; [lia|].
    rewrite (py_get_lookup _ _ _ Ha), (py_get_lookup _ _ _ Hb).
    cbn [mbind outcome_bind]. eexists. split; [done|]. intros p.
    rewrite (take_S_r _ _ _ Ha), (take_S_r _ _ _ Hb).
    assert (zip (take n outA ++ [a]) (take n outB ++ [b])
            = zip (take n outA) (take n outB) ++ [(a, b)]) as Hzip.
    { rewrite zip_with_app by (rewrite !length_take; lia). done. }
    destruct (Hspec p) as [Ht Hnone]. split.
    + rewrite tally_count_pair, Ht. unfold columns_with.
      rewrite Hzip, filter_app, length_app.
      destruct (decide ((a, b) = p)) as [->|Hne].
      * rewrite filter_cons_True by done. simpl. lia.
      * rewrite filter_cons_False by done. simpl. lia.
    + rewrite count_pair_None, Hnone, Hzip, elem_of_app, list_elem_of_singleton.
      split.
      * intros [[Hn Hz] Hne]. split; [done|]. intros [Hin|Heq]; [done|].
        by apply Hne.
      * intros [Hn Hz]. repeat split; [done| |]; intros Hx; apply Hz; auto.
Qed.

Lemma count_columns_Ok (outA outB : list string)
    (corrs : gmap (string * string) nat) :
  (length outA ≤ length outB)%nat →
  ∃ corrs',
    count_columns outA outB corrs = Ok corrs' ∧
    ∀ p,
      tally corrs' p = (tally corrs p + columns_with p outA outB)%nat ∧
      (corrs' !! p = None ↔ corrs !! p = None ∧ p ∉ zip outA outB).
Proof.
  intros Hle. unfold count_columns.
  destruct (count_columns_prefix outA outB (length outA) corrs)
    as (c & Hc & Hspec); [lia..|].
  exists c. split; [done|]. intros p. specialize (Hspec p).
  rewrite firstn_all in Hspec.
  assert (zip outA (take (length outA) outB) = zip outA outB) as Hzip.
  { by rewrite zip_with_take_r by lia. }
  unfold columns_with in *. by rewrite Hzip in Hspec.
Qed.

(** X26.  The loop that counts the columns of [outA] over [outB] adds, for every
    pair, the number of columns that show it, and never stores a count of 0;
    columns of [outB] past the end of [outA] are not counted, and an [outA]
    longer than [outB] raises [IndexError]. *)
Theorem count_columns_counts (outA outB : list string)
    (corrs : gmap (string * string) nat) :
  ((length outA ≤ length outB)%nat →
   ∃ corrs',
     count_columns outA outB corrs = Ok corrs' ∧
     ∀ p,
       tally corrs' p = (tally corrs p + columns_with p outA outB)%nat ∧
       (corrs' !! p = None ↔ corrs !! p = None ∧ p ∉ zip outA outB)) ∧
  ((length outB < length outA)%nat →
   count_columns outA outB corrs = Raised IndexError).
Proof.
  split; [apply count_columns_Ok|].
  intros Hgt. unfold count_columns. apply for_eachM_raises.
  - intros n c Hn. apply elem_of_seqZ in Hn.
    destruct (py_get_ok outA n) as (a & -> & _); [lia|].
    cbn [mbind outcome_bind].
    destruct (py_get_cases outB n) as [->|[b ->]]; [by left|].
    right. by eexists.
  - exists (Z.of_nat (length outB)). split; [apply elem_of_seqZ; lia|].
    intros c.
    destruct (py_get_ok outA (Z.of_nat (length outB))) as (a & -> & _); [lia|].
    cbn [mbind outcome_bind]. by rewrite py_get_short by lia.
Qed.

(** ** The permutation driver on a valid batch *)

Lemma py_item_nonneg {T : Type} (l : list T) (k : Z) :
  0 ≤ k → py_item l k = py_get l k.
Proof. intros Hk. unfold py_item. by replace (k <? 0) with false by lia. Qed.

Section RandomPairsValid.
Context {F : Type} `{FloatOps F} {G : Type}.
Variable random_shuffle : G → list Z → G * list Z.
Variables (seqs : list (list string * list string)).
Variables (weights : list (list F * list F)).
Variables (restrictions : list (list Z * list Z)).
Variables (prosodics : list (string * string)).
Variables (score_dict : gmap (string * string) F).
Variables (scale sonority_factor : F) (mode : string).
Hypothesis valid : valid_batch seqs weights restrictions prosodics score_dict.
Hypothesis Hmode : mode ∈ ["global"; "overlap"; "repeats"; "dialign"].

Lemma cross_pair_valid (vi i : Z) :
  0 ≤ vi < Z.of_nat (length seqs) → 0 ≤ i < Z.of_nat (length seqs) →
  ∃ outA outB,
    cross_pair (select_kernel mode) seqs weights restrictions prosodics
      score_dict scale sonority_factor vi i = Ok (outA, outB) ∧
    length outA = length outB.
Proof.
  intros Hvi Hi. destruct valid as (Hw & Hr & Hp & Hvalid).
  unfold cross_pair. rewrite !py_item_nonneg by lia.
  destruct (py_get_ok seqs vi) as (sA & -> & HsA); [lia|].
  destruct (py_get_ok seqs i) as (sB & -> & HsB); [lia|].
  destruct (py_get_ok weights vi) as (wA & -> & HwA); [lia|].
  destruct (py_get_ok weights i) as (wB & -> & HwB); [lia|].
  destruct (py_get_ok restrictions vi) as (rA & -> & HrA); [lia|].
  destruct (py_get_ok restrictions i) as (rB & -> & HrB); [lia|].
  destruct (py_get_ok prosodics vi) as (pA & -> & HpA); [lia|].
  destruct (py_get_ok prosodics i) as (pB & -> & HpB); [lia|].
  cbn [mbind outcome_bind].
  destruct (select_gapped (F := F) mode Hmode) as (k & -> & Hg & _).
  destruct (align_pair_gapped key_AB sA.1 sB.2 wA.1 wB.2 rA.1 rB.2 pA.1 pB.2
              score_dict (Hvalid _ _ _ _ _ _ _ _ _ _ HsA HsB HwA HwB HrA HrB
                            HpA HpB) k scale sonority_factor Hg)
    as (outA & outB & sim & -> & Hlen).
  cbn [mbind outcome_bind]. by exists outA, outB.
Qed.

Lemma mode_not_local : negb (String.eqb mode "local") = true.
Proof.
  repeat (apply elem_of_cons in Hmode as [->|Hmode]);
    [..|by apply elem_of_nil in Hmode]; reflexivity.
Qed.

Lemma random_round_valid (v : list Z) (i : Z)
    (corrs : gmap (string * string) nat) :
  v ≡ₚ seqZ 0 (Z.of_nat (length seqs)) →
  0 ≤ i < Z.of_nat (length seqs) →
  ∃ corrs',
    random_round_uncached (select_kernel mode) seqs weights restrictions
      prosodics score_dict scale sonority_factor mode v i corrs = Ok corrs'.
Proof.
  intros Hv Hi. unfold random_round_uncached, vec_get.
  destruct (lookup_lt_is_Some_2 v (Z.to_nat i)) as [vi Hvi].
  { rewrite (Permutation_length Hv), length_seqZ. lia. }
  rewrite Hvi. cbn [mbind outcome_bind].
  assert (0 ≤ vi < Z.of_nat (length seqs)) as Hrange.
  { apply list_elem_of_lookup_2 in Hvi. rewrite Hv in Hvi.
    apply elem_of_seqZ in Hvi. lia. }
  destruct (cross_pair_valid vi i Hrange Hi) as (outA & outB & -> & Hlen).
  cbn [mbind outcome_bind]. rewrite mode_not_local.
  destruct (count_columns_Ok outA outB corrs) as (c & -> & _); [lia|].
  by exists c.
Qed.

Lemma random_runs_valid (runs : Z) (rng : G) :
  (∀ g v, (random_shuffle g v).2 ≡ₚ v) →
  ∃ corrs,
    random_align_uncached random_shuffle seqs weights restrictions
      prosodics score_dict scale sonority_factor mode runs rng = Ok corrs.
Proof.
  intros Hperm. unfold random_align_uncached. cbv zeta.
  edestruct (for_eachM_ok
               (λ x : G * list Z * gmap (string * string) nat,
                  x.1.2 ≡ₚ seqZ 0 (Z.of_nat (length seqs)))
               (seqZ 0 runs)) as ([[g v] c] & -> & _); [| |by eexists].
  - done.
  - intros m [[g v] c] _ Hv. simpl in Hv.
    pose proof (Hperm g v) as Hp.
    destruct (random_shuffle g v) as [g2 v2]. simpl in Hp.
    edestruct (for_eachM_ok (λ _ : gmap (string * string) nat, True)
                 (seqZ 0 (Z.of_nat (length seqs)))) as (c2 & -> & _);
      [done| |].
    + intros i c1 Hi _. apply elem_of_seqZ in Hi.
      destruct (random_round_valid v2 i c1) as (c2 & ->);
        [by rewrite Hp|lia|]. by eexists.
    + cbn [mbind outcome_bind]. eexists. split; [done|].
      simpl. by rewrite Hp.
Qed.
End RandomPairsValid.

(** X27.  On a valid batch, in the modes global, overlap, repeats and dialign and
    with a generator that permutes, the permutation driver returns: every
    shuffled index is inside the lists, every alignment is found, and the
    loop over the columns never runs past the end of [outB]. *)
Theorem random_align_returns {F : Type} `{FloatOps F} {G : Type}
    (random_shuffle : G → list Z → G * list Z)
    (seqs : list (list string * list string))
    (weights : list (list F * list F)) (restrictions : list (list Z * list Z))
    (prosodics : list (string * string))
    (score_dict : gmap (string * string) F) (scale sonority_factor : F)
    (mode : string) (runs : Z) (rng : G) :
  (∀ g v, (random_shuffle g v).2 ≡ₚ v) →
  valid_batch seqs weights restrictions prosodics score_dict →
  mode ∈ ["global"; "overlap"; "repeats"; "dialign"] →
  ∃ corrs,
    random_align_sequence_pairs random_shuffle seqs weights restrictions
      prosodics score_dict scale sonority_factor mode runs rng = Ok corrs.
Proof.
  intros Hperm Hvalid Hmode. rewrite random_runs_cached.
  by apply random_runs_valid.
Qed.

Lemma random_align_returns_witness :
  ∃ corrs,
    random_align_sequence_pairs (λ (g : nat) v, (S g, reverse v))
      [(["a"], ["a"]); (["a"; "b"], ["b"])]
      [([-1], [-1]); ([-1; -1], [-1])] [([0], [0]); ([0; 0], [0])]
      [("V", "V"); ("VC", "C")] (uniform_scores ["a"; "b"] 1 (-1)) 1 0
      "global" 2 0%nat
    = Ok corrs.
Proof.
  apply (random_align_returns (λ (g : nat) v, (S g, reverse v))
           [(["a"], ["a"]); (["a"; "b"], ["b"])]
           [([-1], [-1]); ([-1; -1], [-1])] [([0], [0]); ([0; 0], [0])]
           [("V", "V"); ("VC", "C")] (uniform_scores ["a"; "b"] 1 (-1)) 1 0
           "global" 2 0%nat).
  - intros g v. simpl. apply reverse_Permutation.
  - split; [done|]. split; [done|]. split; [done|].
    intros a b sA sB wA wB rA rB pA pB HsA HsB HwA HwB HrA HrB HpA HpB.
    destruct a as [|[|a']], b as [|[|b']]; simplify_eq/=; valid_input_tac.
  - apply list_elem_of_here.
Defined.

(** X28.  With no run, or with no pair, the permutation driver returns the empty
    mapping, whatever the mode, recognised or not, and whatever the
    generator does. *)
Theorem random_align_nothing_to_do {F : Type} `{FloatOps F} {G : Type}
    (random_shuffle : G → list Z → G * list Z)
    (seqs : list (list string * list string))
    (weights : list (list F * list F)) (restrictions : list (list Z * list Z))
    (prosodics : list (string * string))
    (score_dict : gmap (string * string) F) (scale sonority_factor : F)
    (mode : string) (runs : Z) (rng : G) :
  runs ≤ 0 ∨ seqs = [] →
  random_align_sequence_pairs random_shuffle seqs weights restrictions
    prosodics score_dict scale sonority_factor mode runs rng = Ok ∅.
Proof.
  intros Hnone. unfold random_align_sequence_pairs. cbv zeta.
  edestruct (for_eachM_ok
               (λ x : G * list Z * random_state, x.2 = (∅, ∅))
               (seqZ 0 runs)) as ([[g v] [cache c]] & -> & Hst).
  - done.
  - intros m [[g v] st] Hm Hst. simpl in Hst. subst st.
    destruct Hnone as [Hruns| ->].
    { apply elem_of_seqZ in Hm. lia. }
    destruct (random_shuffle g v) as [g2 v2]. simpl.
    eexists. split; [done|]. done.
  - simpl in Hst. by injection Hst as -> ->.
Qed.

Lemma random_align_nothing_to_do_witness :
  random_align_sequence_pairs (λ (g : nat) v, (S g, reverse v))
    [(["a"], ["a"]); (["a"; "b"], ["b"])]
    [([-1], [-1]); ([-1; -1], [-1])] [([0], [0]); ([0; 0], [0])]
    [("V", "V"); ("VC", "C")] (uniform_scores ["a"; "b"] 1 (-1)) 1 0
    "semiglobal" 0 0%nat
  = Ok ∅.
Proof.
  apply (random_align_nothing_to_do (λ (g : nat) v, (S g, reverse v))
           [(["a"], ["a"]); (["a"; "b"], ["b"])]
           [([-1], [-1]); ([-1; -1], [-1])] [([0], [0]); ([0; 0], [0])]
           [("V", "V"); ("VC", "C")] (uniform_scores ["a"; "b"] 1 (-1)) 1 0
           "semiglobal" 0 0%nat).
  left. lia.
Defined.

(** ** A sequence against itself, with integer scores *)

Lemma traceback_walk_diagonal (tb : Z → Z → Z) (n : Z) (fuel : nat) :
  (∀ i, 1 ≤ i ≤ n → tb i i = 1) →
  ∀ i almA almB,
    0 ≤ i ≤ n → (Z.to_nat i ≤ fuel)%nat →
    traceback_walk fuel tb i i almA almB = Ok (almA, almB).
Proof.
  intros Hdiag. induction fuel as [|fuel IH]; intros i almA almB Hi Hfuel.
  - replace i with 0 by lia. done.
  - simpl. destruct (Z.ltb_spec 0 i) as [Hpos|Hz]; simpl.
    + replace (i <? 0) with false by lia. simpl.
      rewrite Hdiag by lia. simpl. apply IH; lia.
    + done.
Qed.

Section SelfAlignment.
Variables (arrayA arrayB : Z → Z) (n : Z) (scorer : Z → Z → Z) (scale s : Z).
Hypothesis Hs : 0 < s.
Hypothesis Hscale : 0 ≤ scale.
Hypothesis Hcol : ∀ k, 1 ≤ k ≤ n → scorer k 0 ≤ 0.
Hypothesis Hrow : ∀ l, 1 ≤ l ≤ n → scorer 0 l ≤ 0.
Hypothesis Hle : ∀ k l, 1 ≤ k ≤ n → 1 ≤ l ≤ n → scorer k l ≤ s.
Hypothesis Hdiag : ∀ k, 1 ≤ k ≤ n → scorer k k = s.

Lemma global_init_nonpos :
  0 ≤ n → borders_nonpos n (global_init n n scorer scale).
Proof.
  intros Hn. unfold global_init. cbv zeta.
  pose (P := λ (k : Z) (st : dp Z),
          matrix st 0 0 = 0 ∧ ∀ j, 0 ≤ j < k → matrix st 0 j ≤ 0).
  assert (P (1 + n)
            (for_range 1 n (λ i st,
               set_cell st 0 i
                 (fadd (matrix st 0 (i - 1)) (fmul (scorer 0 i) scale)) 2)
               (set_cell dp_fresh 0 0 (f_of_Z 0) 1))) as [H00 Hr].
  { apply for_range_ind; [done| |].
    - split; [done|]. intros j Hj. replace j with 0 by lia. done.
    - intros k st Hk [H00 Hr]. unfold set_cell. split; cbn [matrix].
      + rewrite upd2_ne by lia. done.
      + intros j Hj. destruct (decide (j = k)) as [->|Hne].
        * rewrite upd2_eq. specialize (Hr (k - 1)). specialize (Hrow k).
          simpl. nia.
        * rewrite upd2_ne by lia. apply Hr. lia. }
  pose (R := λ (k : Z) (st : dp Z),
          matrix st 0 0 = 0 ∧ (∀ j, 0 ≤ j ≤ n → matrix st 0 j ≤ 0) ∧
          ∀ i, 0 ≤ i < k → matrix st i 0 ≤ 0).
  match goal with
  | |- borders_nonpos n ?st => assert (R (1 + n) st) as (H0 & Hr' & Hc)
  end.
  { apply for_range_ind; [done| |].
    - repeat split; [done|intros j Hj; apply Hr; lia|].
      intros i Hi. replace i with 0 by lia. lia.
    - intros k st Hk (H0 & Hr' & Hc). unfold set_cell.
      split; [|split]; cbn [matrix].
      + rewrite upd2_ne by lia. done.
      + intros j Hj. rewrite upd2_ne by lia. by apply Hr'.
      + intros i Hi. destruct (decide (i = k)) as [->|Hne].
        * rewrite upd2_eq. specialize (Hc (k - 1)). specialize (Hcol k).
          simpl. nia.
        * rewrite upd2_ne by lia. apply Hc. lia. }
  repeat split; [done|done|]. intros i Hi. apply Hc. lia.
Qed.

Lemma spec_gapA_le (st : dp Z) (i j : Z) :
  1 ≤ i ≤ n →
  spec_gapA arrayA n arrayB scorer scale st i j ≤ matrix st (i - 1) j.
Proof.
  intros Hi. unfold spec_gapA. specialize (Hcol i Hi).
  repeat case_branch; simpl; nia.
Qed.

Lemma spec_gapB_le (st : dp Z) (i j : Z) :
  1 ≤ j ≤ n →
  spec_gapB arrayA arrayB n scorer scale st i j ≤ matrix st i (j - 1).
Proof.
  intros Hj. unfold spec_gapB. specialize (Hrow j Hj).
  repeat case_branch; simpl; nia.
Qed.

Lemma spec_argmax_cases (gapA match_ gapB : Z) :
  (spec_argmax gapA match_ gapB).1 ≤ Z.max gapA (Z.max match_ gapB) ∧
  (gapA < match_ → gapB < match_ → spec_argmax gapA match_ gapB = (match_, 1)).
Proof.
  unfold spec_argmax. simpl.
  destruct (Z.gtb_spec gapA match_), (Z.geb_spec gapA gapB),
    (Z.geb_spec match_ gapB); simpl; split; (lia || (intros; (done || lia))).
Qed.

(** What a cell of the borders or a filled cell holds. *)
Lemma read_cell (st : dp Z) (i j a b : Z) :
  borders_nonpos n st →
  (∀ i' j', 1 ≤ i' ≤ n → 1 ≤ j' ≤ n → earlier i' j' i j →
     diagonal_cell s i' j' st) →
  0 ≤ a ≤ n → 0 ≤ b ≤ n → earlier a b i j →
  matrix st a b ≤ Z.min a b * s ∧ (a = b → matrix st a b = a * s).
Proof.
  intros (H00 & Hr & Hc) Hq Ha Hb He.
  destruct (decide (a = 0)) as [->|Ha0].
  { split; [specialize (Hr b); lia|]. intros <-. lia. }
  destruct (decide (b = 0)) as [->|Hb0].
  { split; [specialize (Hc a); lia|]. intros ->. lia. }
  destruct (Hq a b) as [Hle' Hd]; [lia|lia|done|].
  split; [done|]. intros Hab. by apply Hd.
Qed.

Lemma global_cell_diagonal (i j : Z) (st : dp Z) :
  1 ≤ i ≤ n → 1 ≤ j ≤ n → borders_nonpos n st →
  (∀ i' j', 1 ≤ i' ≤ n → 1 ≤ j' ≤ n → earlier i' j' i j →
     diagonal_cell s i' j' st) →
  diagonal_cell s i j (global_cell arrayA n arrayB n scorer scale i j st).
Proof.
  intros Hi Hj Hinv Hq.
  pose proof (global_cell_at arrayA n arrayB n scorer scale i j st) as Hat.
  cbv zeta in Hat. unfold global_recurrence in Hat.
  pose proof (spec_gapA_le st i j Hi) as HgA.
  pose proof (spec_gapB_le st i j Hj) as HgB.
  destruct (read_cell st i j (i - 1) j Hinv Hq) as [HA _];
    [lia|lia|unfold earlier; lia|].
  destruct (read_cell st i j i (j - 1) Hinv Hq) as [HB _];
    [lia|lia|unfold earlier; lia|].
  destruct (read_cell st i j (i - 1) (j - 1) Hinv Hq) as [HM HMd];
    [lia|lia|unfold earlier; lia|].
  pose proof (Hle i j Hi Hj) as Hsc.
  destruct (spec_argmax_cases
              (spec_gapA arrayA n arrayB scorer scale st i j)
              (spec_match scorer st i j)
              (spec_gapB arrayA arrayB n scorer scale st i j)) as [Hmax Hwin].
  rewrite <- Hat in Hmax, Hwin. simpl in Hmax.
  unfold spec_match in *. simpl in *.
  split.
  - nia.
  - intros <-. rewrite HMd in * by lia. rewrite Hdiag in * by lia.
    assert (Z.min (i - 1) i = i - 1) as Hm1 by lia.
    assert (Z.min i (i - 1) = i - 1) as Hm2 by lia.
    rewrite Hm1 in HA. rewrite Hm2 in HB.
    injection (Hwin ltac:(nia) ltac:(nia)) as Hv Ht. split; [lia|done].
Qed.

Lemma global_fill_diagonal :
  1 ≤ n →
  let st := global_fill arrayA n arrayB n scorer scale in
  matrix st n n = n * s ∧ ∀ i, 1 ≤ i ≤ n → traceback st i i = 1.
Proof.
  intros Hn. cbv zeta.
  assert (∀ i, 1 ≤ i ≤ n →
            diagonal_cell s i i (global_fill arrayA n arrayB n scorer scale))
    as Hd.
  { intros i Hi. unfold global_fill.
    apply (fill_cells_Q n n (global_cell arrayA n arrayB n scorer scale)
             (borders_nonpos n) (diagonal_cell s)); try done.
    - intros i1 j1 st Hi1 Hj1 (H00 & Hr & Hc).
      repeat split;
        [|intros j' Hj'|intros i' Hi'];
        (destruct (global_cell_frame arrayA n arrayB n scorer scale i1 j1 st)
           with (i' := 0) (j' := 0) as [-> _]; [lia|done]) ||
        idtac.
      + destruct (global_cell_frame arrayA n arrayB n scorer scale i1 j1 st
                    0 j') as [-> _]; [lia|]. by apply Hr.
      + destruct (global_cell_frame arrayA n arrayB n scorer scale i1 j1 st
                    i' 0) as [-> _]; [lia|]. by apply Hc.
    - intros. by apply global_cell_diagonal.
    - intros i1 j1 i2 j2 st Hi1 Hj1 Hi2 Hj2 He _ [Hle' Hdg].
      unfold diagonal_cell.
      destruct (global_cell_frame arrayA n arrayB n scorer scale i1 j1 st
                  i2 j2) as [-> ->]; [unfold earlier in He; lia|].
      by split.
    - apply global_init_nonpos. lia. }
  split.
  - destruct (Hd n) as [_ Hdg]; [lia|]. by apply Hdg.
  - intros i Hi. destruct (Hd i Hi) as [_ Hdg]. by apply Hdg.
Qed.

Lemma global_self (almA almB : Z → Z) :
  1 ≤ n →
  _global arrayA n arrayB n scorer scale almA almB = Ok (n * s, almA, almB).
Proof.
  intros Hn. unfold _global, bad_dims.
  replace ((n <? 1) || (n <? 0)) with false by lia. cbv zeta.
  destruct (global_fill_diagonal Hn) as [-> Htb].
  rewrite (traceback_walk_diagonal _ n); [done|done|lia|].
  unfold walk_fuel. lia.
Qed.
End SelfAlignment.


